(** * DuckDB type strings: the parser of [ibis/backends/duckdb/datatypes.py]

    A shallow embedding of [parse], the parsy grammar that turns a DuckDB
    type string into an ibis data type, and the properties of it that the
    specification states. *)

From Stdlib Require Import List Ascii String ZArith Lia Bool Arith DecimalString.
Import ListNotations.
Local Open Scope list_scope.

#[local] Abbreviation length := Datatypes.length.

(** ** Text

    A Python [str] is modelled as the list of its characters; characters are
    8-bit, and [str.lower] acts on the letters [A]..[Z]. *)

Definition text := list ascii.

Definition T (s : string) : text := list_ascii_of_string s.

Definition code (c : ascii) : N := N_of_ascii c.

Definition between (lo hi : N) (c : ascii) : bool :=
  (N.leb lo (code c) && N.leb (code c) hi)%bool.

Definition is_upper : ascii -> bool := between 65 90.
Definition is_lower : ascii -> bool := between 97 122.
Definition is_digit : ascii -> bool := between 48 57.

(** [str.lower] on one character. *)
Definition lower_char (c : ascii) : ascii :=
  if is_upper c then ascii_of_N (code c + 32) else c.

Definition lower (s : text) : text := map lower_char s.

Fixpoint text_eqb (a b : text) : bool :=
  match a, b with
  | [], [] => true
  | x :: a', y :: b' => (Ascii.eqb x y && text_eqb a' b')%bool
  | _, _ => false
  end.

(** The longest prefix of characters satisfying [f], and what follows it:
    what a greedy character-class repetition of a regular expression
    matches at the current position. *)
Fixpoint span (f : ascii -> bool) (s : text) : text * text :=
  match s with
  | [] => ([], [])
  | c :: s' =>
      if f c then let '(m, r) := span f s' in (c :: m, r) else ([], s)
  end.

(** ** The data model ([ibis.expr.datatypes], imported as [dt]) *)

Module dt.

#[local] Set Warnings "-register-all".

(** Modelled from the spec: the [DataType] classes of
    [ibis.expr.datatypes] (section 3 of the specification), which the parser
    only constructs.  [Decimal] has its two integer parameters, [Timestamp]
    an optional timezone and an optional scale, and [Struct] is the ordered
    sequence of (name, type) pairs that [Struct.from_tuples] receives. *)
Inductive DataType : Type :=
| Interval
| int8 | int16 | int32 | int64
| uint8 | uint16 | uint32 | uint64
| float32 | float64
| boolean | binary | string | date | time | uuid | json
| Timestamp (timezone : option String.string) (scale : option Z)
| Decimal (precision scale : Z)
| Array (value_type : DataType)
| Map (key_type value_type : DataType)
| Struct (fields : list (String.string * DataType)).

End dt.

Abbreviation DataType := dt.DataType.

(** ** The parser combinators ([parsy])

    A parsy parser is a function of the stream and an index; no parser of
    this grammar looks behind the index, so a parser is modelled as a
    function of the remaining input, returning the value and the input left,
    or [None] on failure. *)

Module parsy.

Definition parser (A : Type) : Type := text -> option (A * text).

Inductive result (A : Type) : Type :=
| Ok (value : A)
| ParseError.
Arguments Ok {A} value.
Arguments ParseError {A}.

Definition success {A : Type} (v : A) : parser A := fun s => Some (v, s).

Definition fail {A : Type} : parser A := fun _ => None.

(** One [yield] of a [@generate] block, followed by the rest of the
    block; also [Parser.bind]. *)
Definition bind {A B : Type} (p : parser A) (k : A -> parser B) : parser B :=
  fun s => match p s with
           | Some (v, r) => k v r
           | None => None
           end.

(** [p.map(f)] *)
Definition map {A B : Type} (f : A -> B) (p : parser A) : parser B :=
  fun s => match p s with
           | Some (v, r) => Some (f v, r)
           | None => None
           end.

(** [p.result(v)] *)
Definition result_ {A B : Type} (p : parser A) (v : B) : parser B :=
  map (fun _ => v) p.

(** [p.then(q)], [p >> q] *)
Definition then_ {A B : Type} (p : parser A) (q : parser B) : parser B :=
  bind p (fun _ => q).

(** [p.skip(q)], [p << q] *)
Definition skip {A B : Type} (p : parser A) (q : parser B) : parser A :=
  bind p (fun v => map (fun _ => v) q).

(** [p | q]: [q] is tried at the same position when [p] fails. *)
Definition or_ {A : Type} (p q : parser A) : parser A :=
  fun s => match p s with
           | Some x => Some x
           | None => q s
           end.

(** [alt(p1, ..., pn)]: the first parser that succeeds. *)
Fixpoint alt {A : Type} (ps : list (parser A)) : parser A :=
  match ps with
  | [] => fail
  | p :: ps' => or_ p (alt ps')
  end.

(** [p.optional()]: a failure of [p] consumes nothing. *)
Definition optional {A : Type} (p : parser A) : parser (option A) :=
  fun s => match p s with
           | Some (v, r) => Some (Some v, r)
           | None => Some (None, s)
           end.

(** The loop of [p.many()]: [p] is run until it fails.  Every run that
    succeeds consumes input in this grammar, so the length of the input
    bounds the number of runs. *)
Fixpoint many_loop {A : Type} (fuel : nat) (p : parser A) (s : text) : list A * text :=
  match fuel with
  | O => ([], s)
  | S fuel' =>
      match p s with
      | Some (v, r) =>
          let '(vs, r') := many_loop fuel' p r in (v :: vs, r')
      | None => ([], s)
      end
  end.

Definition many {A : Type} (p : parser A) : parser (list A) :=
  fun s => Some (many_loop (length s) p s).

(** [p.at_least(1)], that is [p.times(1) + p.many()] *)
Definition at_least1 {A : Type} (p : parser A) : parser (list A) :=
  bind p (fun v => map (cons v) (many p)).

(** [p.sep_by(sep)] with its default bounds [min=0], [max=inf]:
    [p.times(1) + (sep >> p).many() | success([])] *)
Definition sep_by {A B : Type} (p : parser A) (sep : parser B) : parser (list A) :=
  or_ (bind p (fun v => map (cons v) (many (then_ sep p)))) (success []).

(** [string(expected, transform)] compares the transformed slice of the
    stream of the length of [expected] with the transformed [expected]. *)
Definition string (expected : text) (transform : text -> text) : parser text :=
  fun stream =>
    let slen := length expected in
    if text_eqb (transform (firstn slen stream)) (transform expected)
    then Some (expected, skipn slen stream)
    else None.

Definition eof : parser unit :=
  fun s => match s with [] => Some (tt, []) | _ :: _ => None end.

(** [p.parse(text)]: [p] followed by the end of the input, or a
    [ParseError]. *)
Definition parse {A : Type} (p : parser A) (s : text) : result A :=
  match skip p eof s with
  | Some (v, _) => Ok v
  | None => ParseError
  end.

End parsy.

Notation "x <- p ;; k" := (parsy.bind p (fun x => k))
  (at level 61, p at next level, right associativity).
Notation "p ;;; k" := (parsy.bind p (fun _ => k))
  (at level 61, right associativity).

(** ** Lexical atoms ([ibis.common.parsing]) *)

(** Modelled from the spec: the whitespace class of the atoms of
    [ibis.common.parsing] (section 4.1: spaces, tabs, newlines); the
    characters 9 to 13 and the space. *)
Definition is_space (c : ascii) : bool :=
  (between 9 13 c || Ascii.eqb c " ")%bool.

(** The characters of an identifier: a letter or an underscore first,
    then letters, digits and underscores. *)
Definition is_ident_start (c : ascii) : bool :=
  (is_lower c || is_upper c || Ascii.eqb c "_")%bool.

Definition is_ident_char (c : ascii) : bool :=
  (is_ident_start c || is_digit c)%bool.

(** Modelled from the spec: [SPACES], any run of whitespace. *)
Definition SPACES : parsy.parser text := fun s => Some (span is_space s).

(** Modelled from the spec: [spaceless(parser)], the parser between two
    runs of whitespace that are not part of its value (section 4.1). *)
Definition spaceless {A : Type} (p : parsy.parser A) : parsy.parser A :=
  parsy.skip (parsy.then_ SPACES p) SPACES.

(** Modelled from the spec: [spaceless_string], a case-insensitive,
    whitespace-tolerant matcher of a set of keyword aliases (section 4.1),
    tried in the order given: each alias is a [parsy.string] compared
    through [str.lower]. *)
Definition spaceless_string (strings : list String.string) : parsy.parser text :=
  spaceless (parsy.alt (List.map (fun s => parsy.string (T s) lower) strings)).

(** The value of a run of decimal digits. *)
Definition int (ds : text) : Z :=
  fold_left (fun acc c => (10 * acc + (Z.of_N (code c) - 48))%Z) ds 0%Z.

(** Modelled from the spec: a number atom, one or more decimal digits read
    as a non-negative integer (section 4.3), tolerating whitespace around it
    (section 4.1). *)
Definition NUMBER : parsy.parser Z :=
  spaceless (fun s => match span is_digit s with
                      | ([], _) => None
                      | (ds, r) => Some (int ds, r)
                      end).

Definition PRECISION : parsy.parser Z := NUMBER.
Definition SCALE : parsy.parser Z := NUMBER.

(** Modelled from the spec: the identifier atom, a letter or underscore
    followed by letters, digits and underscores. *)
Definition FIELD : parsy.parser String.string :=
  fun s => match s with
           | c :: s' =>
               if is_ident_start c
               then let '(m, r) := span is_ident_char s' in
                    Some (string_of_list_ascii (c :: m), r)
               else None
           | [] => None
           end.

(** Modelled from the spec: the punctuation atoms. *)
Definition COMMA : parsy.parser text := spaceless_string ["," % string].
Definition LPAREN : parsy.parser text := spaceless_string ["(" % string].
Definition RPAREN : parsy.parser text := spaceless_string [")" % string].
Definition LBRACKET : parsy.parser text := spaceless_string ["[" % string].
Definition RBRACKET : parsy.parser text := spaceless_string ["]" % string].

(** ** The grammar of [parse] *)

Definition UTC : option String.string := Some "UTC"%string.

(** The alternatives of [primitive], in the order of the source: the
    aliases of each [spaceless_string] and the value of its [result]. *)
Definition primitive_table : list (list String.string * DataType) :=
  [ (["interval"], dt.Interval);
    (["bigint"; "int8"; "long"], dt.int64);
    (["boolean"; "bool"; "logical"], dt.boolean);
    (["blob"; "bytea"; "binary"; "varbinary"], dt.binary);
    (["double"; "float8"], dt.float64);
    (["real"; "float4"; "float"], dt.float32);
    (["smallint"; "int2"; "short"], dt.int16);
    (["timestamp with time zone"; "timestamp_tz"; "datetime"],
      dt.Timestamp UTC None);
    (["timestamp_sec"; "timestamp_s"], dt.Timestamp UTC (Some 0%Z));
    (["timestamp_ms"], dt.Timestamp UTC (Some 3%Z));
    (["timestamp_us"], dt.Timestamp UTC (Some 6%Z));
    (["timestamp_ns"], dt.Timestamp UTC (Some 9%Z));
    (["timestamp"], dt.Timestamp UTC None);
    (["date"], dt.date);
    (["time"], dt.time);
    (["tinyint"; "int1"], dt.int8);
    (["integer"; "int4"; "int"; "signed"], dt.int32);
    (["ubigint"], dt.uint64);
    (["usmallint"], dt.uint16);
    (["uinteger"], dt.uint32);
    (["utinyint"], dt.uint8);
    (["uuid"], dt.uuid);
    (["varchar"; "char"; "bpchar"; "text"; "string"], dt.string);
    (["json"], dt.json) ]%string.

(** [primitive]: the alternatives joined by [|], the first that matches
    giving the result. *)
Definition primitive : parsy.parser DataType :=
  parsy.alt
    (List.map (fun '(names, v) => parsy.result_ (spaceless_string names) v)
       primitive_table).

(** [toolz.nth(n, toolz.iterate(f, x))] *)
Definition nth_iterate {A : Type} (n : nat) (f : A -> A) (x : A) : A :=
  Nat.iter n f x.

(** One [[]] suffix. *)
Definition brackets : parsy.parser unit :=
  spaceless LBRACKET ;;; spaceless RBRACKET ;;; parsy.success tt.

Definition field : parsy.parser String.string := spaceless FIELD.

Section Grammar.

Variable default_decimal_parameters : Z * Z.

(** [decimal]: the keyword, then the optional parenthesized pair [or]
    the default parameters. *)
Definition decimal : parsy.parser DataType :=
  spaceless_string ["decimal"; "numeric"]%string ;;;
  prec_scale <-
    parsy.optional
      (parsy.skip
         (parsy.then_ LPAREN
            (prec <- parsy.skip PRECISION COMMA ;;
             scale <- SCALE ;;
             parsy.success (prec, scale)))
         RPAREN) ;;
  let '(prec, scale) :=
    match prec_scale with
    | Some ps => ps
    | None => default_decimal_parameters
    end in
  parsy.success (dt.Decimal prec scale).

(** The productions that refer to [ty], which Python resolves when the
    parser runs; here [ty] is the parser of the nested types. *)
Section Productions.

Variable ty : parsy.parser DataType.

Definition map : parsy.parser DataType :=
  spaceless_string ["map"]%string ;;;
  LPAREN ;;;
  key_type <- primitive ;;
  COMMA ;;;
  value_type <- ty ;;
  RPAREN ;;;
  parsy.success (dt.Map key_type value_type).

Definition struct : parsy.parser DataType :=
  spaceless_string ["struct"]%string ;;;
  LPAREN ;;;
  field_names_types <-
    parsy.sep_by (name <- field ;; t <- ty ;; parsy.success (name, t))
      COMMA ;;
  RPAREN ;;;
  parsy.success (dt.Struct field_names_types).

Definition non_pg_array_type : parsy.parser DataType :=
  parsy.or_ (parsy.or_ (parsy.or_ primitive decimal) map) struct.

Definition pg_array : parsy.parser DataType :=
  value_type <- non_pg_array_type ;;
  bs <- parsy.at_least1 brackets ;;
  parsy.success (nth_iterate (length bs) dt.Array value_type).

Definition ty_body : parsy.parser DataType :=
  parsy.or_ pg_array non_pg_array_type.

End Productions.

(** [ty] refers to itself through [map] and [struct], which call it on
    what is left after their keyword: a nested type is shorter than the
    input, and the length of the input bounds the depth of the calls. *)
Fixpoint ty_fuel (fuel : nat) : parsy.parser DataType :=
  match fuel with
  | O => ty_body parsy.fail
  | S fuel' => ty_body (ty_fuel fuel')
  end.

Definition ty : parsy.parser DataType :=
  fun s => ty_fuel (length s) s.

End Grammar.

(** [parse(text, default_decimal_parameters)] *)
Definition parse (text_ : text) (default_decimal_parameters : Z * Z)
  : parsy.result DataType :=
  parsy.parse (ty default_decimal_parameters) text_.

Definition default_parameters : Z * Z := (18, 3)%Z.

(** ** Notions used to state the properties *)

(** The input after its leading whitespace. *)
Definition strip (s : text) : text := snd (span is_space s).

(** The first character of the next token, if there is one. *)
Definition next_char (s : text) : option ascii := hd_error (strip s).

(** A parser returns no more input than it was given, or less. *)
Definition nonincr {A} (p : parsy.parser A) : Prop :=
  forall s v r, p s = Some (v, r) -> length r <= length s.

Definition consuming {A} (p : parsy.parser A) : Prop :=
  forall s v r, p s = Some (v, r) -> length r < length s.

Definition nonempty (s : String.string) : Prop := s <> EmptyString.

(** One (name, type) pair of a struct body. *)
Definition item (ty : parsy.parser DataType)
  : parsy.parser (String.string * DataType) :=
  name <- field ;; t <- ty ;; parsy.success (name, t).

(** The parser that [ty_fuel] hands to the productions. *)
Definition rec_of (d : Z * Z) (fuel : nat) : parsy.parser DataType :=
  match fuel with
  | O => parsy.fail
  | S fuel' => ty_fuel d fuel'
  end.

(** The same result on the input left after a change of the input. *)
Definition on_rest {A} (f : text -> text) (x : option (A * text))
  : option (A * text) :=
  match x with
  | Some (v, r) => Some (v, f r)
  | None => None
  end.

(** The input left by a keyword matched case-insensitively, character by
    character. *)
Fixpoint match_kw (k s : text) : option text :=
  match k, s with
  | [], _ => Some s
  | _ :: _, [] => None
  | x :: k', y :: s' =>
      if Ascii.eqb (lower_char y) (lower_char x) then match_kw k' s' else None
  end.

Definition is_punct (x : ascii) : bool :=
  existsb (Ascii.eqb x) ["," ; "(" ; ")" ; "[" ; "]"]%char.

(** The keywords as texts. *)
Definition keywords (names : list String.string) : list text :=
  List.map T names.

Definition raw_strings (names : list text) : parsy.parser text :=
  parsy.alt (List.map (fun k => parsy.string k lower) names).

(** A keyword made of letters, digits, underscores and spaces. *)
Definition plain (k : text) : bool :=
  forallb (fun x => is_ident_char x || is_space x)%bool k.

(** [p] succeeds on an input extended by [sfx] as it does on the input,
    leaving [sfx] in addition. *)
Definition extends {A} (sfx : text) (p : parsy.parser A) : Prop :=
  forall s v r, p s = Some (v, r) -> p (s ++ sfx) = Some (v, r ++ sfx).

(** [p] behaves on an input extended by [sfx] as on the input, whether it
    succeeds or fails. *)
Definition stable {A} (sfx : text) (p : parsy.parser A) : Prop :=
  forall s, p (s ++ sfx) = on_rest (fun r => r ++ sfx) (p s).

Definition plain_table (tbl : list (list String.string * DataType)) : bool :=
  forallb (fun e => forallb plain (keywords (fst e))) tbl.

(** The optional parameters of [decimal]. *)
Definition prec_scale_group : parsy.parser (Z * Z) :=
  parsy.skip
    (parsy.then_ LPAREN
       (prec <- parsy.skip PRECISION COMMA ;;
        scale <- SCALE ;;
        parsy.success (prec, scale)))
    RPAREN.

(** What may follow a type when [c] starts the text after it: no opening
    parenthesis or bracket, and, at the end of the input, [c] opens no
    bracket. *)
Definition follows (c : ascii) (r : text) : Prop :=
  next_char r <> Some "("%char /\ next_char r <> Some "["%char /\
  (next_char r = None -> c <> "["%char).

(** [n] consecutive bracket suffixes. *)
Definition suffixes (n : nat) : text := List.concat (repeat (T "[]") n).

(** The decimal text of an integer, [str(n)]. *)
Definition repr (n : Z) : text := T (NilZero.string_of_int (Z.to_int n)).

Definition digits (ds : text) : Prop := Forall (fun x => is_digit x = true) ds.

(** [p] does on the changed input [f s] what it does on [s], leaving the
    changed rest. *)
Definition respects {A} (f : text -> text) (p : parsy.parser A) : Prop :=
  forall s, p (f s) = on_rest f (p s).

(** [p] skips the whitespace before its token. *)
Definition lead {A} (p : parsy.parser A) : Prop :=
  forall s, p (strip s) = p s.

Definition blank (ws : text) : Prop := Forall (fun x => is_space x = true) ws.

(** Whitespace added at the end of an input that is not empty. *)
Definition pad (ws s : text) : text :=
  match s with
  | [] => []
  | _ :: _ => s ++ ws
  end.

(** A keyword that is not empty and does not end with whitespace. *)
Fixpoint solid (k : text) : bool :=
  match k with
  | [] => false
  | [x] => negb (is_space x)
  | _ :: k' => solid k'
  end.

Definition solid_table (tbl : list (list String.string * DataType)) : bool :=
  forallb (fun e => forallb solid (keywords (fst e))) tbl.

(** Every value that [p] returns satisfies [P]. *)
Definition yields {A} (P : A -> Prop) (p : parsy.parser A) : Prop :=
  forall s v r, p s = Some (v, r) -> P v.

(** The input that [p] leaves starts with no whitespace. *)
Definition stripped {A} (p : parsy.parser A) : Prop :=
  forall s v r, p s = Some (v, r) -> strip r = r.

(** The values of the primitive alternation. *)
Definition is_primitive_value (v : DataType) : Prop :=
  In v (List.map snd primitive_table).

#[local] Set Warnings "-register-all".

(** Every map inside the type, at any depth, has a key that is a value of
    the primitive alternation. *)
Inductive map_keys_primitive : DataType -> Prop :=
| keys_primitive v : is_primitive_value v -> map_keys_primitive v
| keys_decimal p s : map_keys_primitive (dt.Decimal p s)
| keys_array v : map_keys_primitive v -> map_keys_primitive (dt.Array v)
| keys_map k v :
    is_primitive_value k -> map_keys_primitive v ->
    map_keys_primitive (dt.Map k v)
| keys_struct fs :
    Forall (fun f => map_keys_primitive (snd f)) fs ->
    map_keys_primitive (dt.Struct fs).

(** Decimal, array, map and struct types. *)
Definition is_composite (v : DataType) : Prop :=
  match v with
  | dt.Decimal _ _ | dt.Array _ | dt.Map _ _ | dt.Struct _ => True
  | _ => False
  end.

(** A field name: what the identifier atom matches. *)
Definition identifier (name : text) : Prop :=
  match name with
  | [] => False
  | x :: m =>
      is_ident_start x = true /\ Forall (fun y => is_ident_char y = true) m
  end.

(** A struct field given as its name, the text of its type and the type
    that this text parses to; the text of a struct body with these fields,
    and the fields of the struct. *)
Definition given_field : Type := text * text * DataType.

Definition pair_text (f : given_field) : text :=
  fst (fst f) ++ " "%char :: snd (fst f).

Definition more_pairs (fs : list given_field) : text :=
  flat_map (fun f => ","%char :: pair_text f) fs.

Definition struct_body (fs : list given_field) : text :=
  match fs with
  | [] => []
  | f :: fs' => pair_text f ++ more_pairs fs'
  end.

Definition struct_field (f : given_field) : String.string * DataType :=
  (string_of_list_ascii (fst (fst f)), snd f).

Definition well_typed (d : Z * Z) (f : given_field) : Prop :=
  identifier (fst (fst f)) /\ parse (snd (fst f)) d = parsy.Ok (snd f).

(** A character that is no whitespace, letter, digit or underscore, and a
    text that has one. *)
Definition barrier (x : ascii) : bool :=
  negb (is_ident_char x || is_space x).

Definition barred (s : text) : bool := existsb barrier s.

(** [p] does at [s] followed by [sfx] what it does at [s], and leaves
    [sfx] in addition. *)
Definition stable_at {A} (sfx : text) (p : parsy.parser A) (s : text) : Prop :=
  p (s ++ sfx) = on_rest (fun r => r ++ sfx) (p s).

(** What [p] leaves is the end of its input. *)
Definition tails {A} (p : parsy.parser A) : Prop :=
  forall s v r, p s = Some (v, r) -> exists pre, s = pre ++ r.

(** What follows a type inside a map or a struct that is read: a comma or
    a closing parenthesis. *)
Definition closing (r : text) : Prop :=
  next_char r = Some ","%char \/ next_char r = Some ")"%char.

(** [p], when it leaves at least [sfx] of an input that ends with [sfx],
    has read nothing of [sfx]: it does the same on the input without it. *)
Definition within {A} (sfx : text) (p : parsy.parser A) : Prop :=
  forall s v r, p (s ++ sfx) = Some (v, r) -> length sfx <= length r ->
                exists r', r = r' ++ sfx /\ p s = Some (v, r').

(** [p] still succeeds when text is added after an input that it reads. *)
Definition persists {A} (sfx : text) (p : parsy.parser A) : Prop :=
  forall s, p s <> None -> p (s ++ sfx) <> None.

(** A keyword made of letters, digits and underscores, and a text with a
    character that is none of these. *)
Definition word (k : text) : bool := forallb is_ident_char k.

Definition spaced (s : text) : bool :=
  existsb (fun x => negb (is_ident_char x)) s.

(** The keyword [k] matches [u] followed by [sfx] as it matches [u]. *)
Definition calm (sfx k u : text) : Prop :=
  match_kw k (u ++ sfx) = option_map (fun r => r ++ sfx) (match_kw k u).

(** ** Notions used to state the further properties *)

Definition is_array (v : DataType) : Prop :=
  match v with
  | dt.Array _ => True
  | _ => False
  end.

(** The number of [Array] constructors around a type. *)
Fixpoint array_depth (v : DataType) : nat :=
  match v with
  | dt.Array u => S (array_depth u)
  | _ => 0
  end.

(** The scales of the timestamp keywords. *)
Definition timestamp_scales : list (option Z) :=
  [None; Some 0%Z; Some 3%Z; Some 6%Z; Some 9%Z].

#[local] Set Warnings "-register-all".

(** The types that the grammar builds with the default parameters [d]: the
    values of the primitive alternation, decimals with the default or with
    parameters read from digits, arrays, maps with a primitive key, and
    structs. *)
Inductive built (d : Z * Z) : DataType -> Prop :=
| built_primitive v : is_primitive_value v -> built d v
| built_decimal p s :
    (p, s) = d \/ (0 <= p /\ 0 <= s)%Z -> built d (dt.Decimal p s)
| built_array v : built d v -> built d (dt.Array v)
| built_map k v :
    is_primitive_value k -> built d v -> built d (dt.Map k v)
| built_struct fs :
    Forall (fun f => built d (snd f)) fs -> built d (dt.Struct fs).

(** [u] occurs in [v]: it is [v], or the element of an array, the key or
    the value of a map, or the type of a field, at any depth. *)
Inductive occurs (u : DataType) : DataType -> Prop :=
| occurs_here : occurs u u
| occurs_array v : occurs u v -> occurs u (dt.Array v)
| occurs_key k v : occurs u k -> occurs u (dt.Map k v)
| occurs_value k v : occurs u v -> occurs u (dt.Map k v)
| occurs_field fs name v :
    In (name, v) fs -> occurs u v -> occurs u (dt.Struct fs).

(** [p] on the changed input [f s] and [q] on [s] fail together or
    succeed together, with values related by [R] and the changed rest. *)
Definition sim {A B} (f : text -> text) (R : A -> B -> Prop)
  (p : parsy.parser A) (q : parsy.parser B) : Prop :=
  forall s,
    match p (f s), q s with
    | Some (v1, r1), Some (v2, r2) => R v1 v2 /\ r1 = f r2
    | None, None => True
    | _, _ => False
    end.

Definition option_rel {A B} (R : A -> B -> Prop) (x : option A) (y : option B)
  : Prop :=
  match x, y with
  | Some a, Some b => R a b
  | None, None => True
  | _, _ => False
  end.

(** A keyword of the grammar: a punctuation character, or letters, digits,
    underscores and spaces not ending with a space. *)
Definition token (k : text) : bool :=
  (solid k && (plain k || match k with [x] => is_punct x | _ => false end))%bool.

Definition token_table (tbl : list (list String.string * DataType)) : bool :=
  forallb (fun e => forallb token (keywords (fst e))) tbl.

(** Two types that are the same but for decimals that carry the default
    parameters [d1] in the first and [d2] in the second. *)
Inductive up_to_default (d1 d2 : Z * Z) : DataType -> DataType -> Prop :=
| same_type v : up_to_default d1 d2 v v
| default_decimals :
    up_to_default d1 d2
      (dt.Decimal (fst d1) (snd d1)) (dt.Decimal (fst d2) (snd d2))
| same_array v1 v2 :
    up_to_default d1 d2 v1 v2 ->
    up_to_default d1 d2 (dt.Array v1) (dt.Array v2)
| same_map k v1 v2 :
    up_to_default d1 d2 v1 v2 ->
    up_to_default d1 d2 (dt.Map k v1) (dt.Map k v2)
| same_struct fs1 fs2 :
    Forall2 (fun a b => fst a = fst b /\ up_to_default d1 d2 (snd a) (snd b))
      fs1 fs2 ->
    up_to_default d1 d2 (dt.Struct fs1) (dt.Struct fs2).

(** A name in lower case, and a type with the names of all its fields in
    lower case. *)
Definition lower_string (n : String.string) : String.string :=
  string_of_list_ascii (lower (list_ascii_of_string n)).

Fixpoint lower_names (v : DataType) : DataType :=
  match v with
  | dt.Array u => dt.Array (lower_names u)
  | dt.Map k u => dt.Map k (lower_names u)
  | dt.Struct fs =>
      dt.Struct
        (List.map (fun f => let '(n, u) := f in (lower_string n, lower_names u))
           fs)
  | _ => v
  end.

(** The text with the whitespace [w1] before and [w2] after each of its
    commas, parentheses and brackets; and that text without its leading
    whitespace. *)
Definition spread (w1 w2 : text) (s : text) : text :=
  flat_map (fun c => if is_punct c then w1 ++ c :: w2 else [c]) s.

Definition spread_strip (w1 w2 : text) (s : text) : text :=
  strip (spread w1 w2 s).

(** An atom without the whitespace that [spaceless] skips around it, on a
    spread input that starts with no whitespace. *)
Definition raw_sim {A} (w1 w2 : text) (q : parsy.parser A) : Prop :=
  forall u, strip u = u ->
    match q (spread_strip w1 w2 u), q u with
    | Some (v1, r1), Some (v2, r2) =>
        v1 = v2 /\ strip r1 = spread_strip w1 w2 r2
    | None, None => True
    | _, _ => False
    end.

(** What may follow the last type of a struct body that is read: nothing,
    a comma, or a closing parenthesis. *)
Definition closes (tl : text) : Prop :=
  tl = [] \/
  exists c tl', tl = c :: tl' /\ (c = ","%char \/ c = ")"%char).

(** The ways of writing a type that the grammar is made of, and the type
    that each stands for when [d] is the default: an alias of a primitive
    group, a decimal keyword without parameters, which stands for the
    decimal of the default, or with a parenthesized precision and scale,
    which stands for the decimal of these, a type followed by a bracket
    suffix, a map from a primitive alias to a type, and a struct of named
    types. *)
Inductive writes (d : Z * Z) : text -> DataType -> Prop :=
| writes_primitive names v alias :
    In (names, v) primitive_table -> In alias names ->
    writes d (T alias) v
| writes_decimal kw :
    In kw ["decimal"; "numeric"]%string ->
    writes d (T kw) (dt.Decimal (fst d) (snd d))
| writes_parameters kw ds1 ds2 :
    In kw ["decimal"; "numeric"]%string ->
    digits ds1 -> ds1 <> [] -> digits ds2 -> ds2 <> [] ->
    writes d (T kw ++ T "(" ++ ds1 ++ T "," ++ ds2 ++ T ")")
      (dt.Decimal (int ds1) (int ds2))
| writes_array t v :
    writes d t v -> writes d (t ++ T "[]") (dt.Array v)
| writes_map names k alias t v :
    In (names, k) primitive_table -> In alias names -> writes d t v ->
    writes d (T "map(" ++ T alias ++ T "," ++ t ++ T ")") (dt.Map k v)
| writes_struct fs :
    writes_fields d fs ->
    writes d (T "struct(" ++ struct_body fs ++ T ")")
      (dt.Struct (List.map struct_field fs))
with writes_fields (d : Z * Z) : list given_field -> Prop :=
| writes_no_field : writes_fields d []
| writes_field name t v fs :
    identifier name -> writes d t v -> writes_fields d fs ->
    writes_fields d ((name, t, v) :: fs).

Scheme writes_both := Minimality for writes Sort Prop
  with writes_fields_both := Minimality for writes_fields Sort Prop.

(** * Properties *)

(** ** Characters *)

Ltac each_char c :=
  destruct c as [[] [] [] [] [] [] [] []]; vm_compute; try reflexivity;
  try discriminate; auto.

Lemma lower_char_idem c : lower_char (lower_char c) = lower_char c.
Proof. each_char c. Qed.

Lemma is_space_lower c : is_space (lower_char c) = is_space c.
Proof. each_char c. Qed.

Lemma space_not_digit c : is_space c = true -> is_digit c = false.
Proof. each_char c. Qed.

Lemma space_not_ident c : is_space c = true -> is_ident_char c = false.
Proof. each_char c. Qed.

Lemma ident_start_char c : is_ident_start c = true -> is_ident_char c = true.
Proof. each_char c. Qed.

Lemma digit_ident c : is_digit c = true -> is_ident_char c = true.
Proof. each_char c. Qed.

Lemma lower_ident c : is_ident_char (lower_char c) = is_ident_char c.
Proof. each_char c. Qed.

(** ** Runs of characters *)

Lemma span_app f s : fst (span f s) ++ snd (span f s) = s.
Proof.
  induction s as [|c s IH]; simpl; [reflexivity|].
  destruct (f c); [|reflexivity].
  destruct (span f s) as [m r]; simpl in *. now rewrite IH.
Qed.

Lemma span_length f s : length (snd (span f s)) <= length s.
Proof.
  rewrite <- (span_app f s) at 2. rewrite length_app. lia.
Qed.

Lemma span_stop f s c r : snd (span f s) = c :: r -> f c = false.
Proof.
  induction s as [|x s IH]; simpl; [discriminate|].
  destruct (f x) eqn:E.
  - destruct (span f s) as [m r']; simpl in *. exact IH.
  - simpl. intros H; injection H as -> ->. exact E.
Qed.

Lemma span_snd_idem f s : span f (snd (span f s)) = ([], snd (span f s)).
Proof.
  destruct (snd (span f s)) as [|c r] eqn:E; [reflexivity|].
  apply span_stop in E. simpl. now rewrite E.
Qed.

(** A run followed by a character outside the class stops there. *)
Lemma span_run f m c r :
  Forall (fun x => f x = true) m -> f c = false ->
  span f (m ++ c :: r) = (m, c :: r).
Proof.
  intros Hm Hc. induction Hm as [|x m Hx _ IH]; simpl.
  - now rewrite Hc.
  - now rewrite Hx, IH.
Qed.

Lemma span_run_end f m :
  Forall (fun x => f x = true) m -> span f m = (m, []).
Proof.
  intros Hm. induction Hm as [|x m Hx _ IH]; simpl; [reflexivity|].
  now rewrite Hx, IH.
Qed.

(** Appending text that starts outside the class leaves the run as it is. *)
Lemma span_append f s c r :
  f c = false ->
  span f (s ++ c :: r) = (fst (span f s), snd (span f s) ++ c :: r).
Proof.
  intros Hc. induction s as [|x s IH]; simpl.
  - now rewrite Hc.
  - destruct (f x); [|reflexivity].
    rewrite IH. now destruct (span f s).
Qed.

Lemma strip_length s : length (strip s) <= length s.
Proof. apply span_length. Qed.

Lemma strip_idem s : strip (strip s) = strip s.
Proof. unfold strip. now rewrite span_snd_idem. Qed.

Lemma strip_cons c s : is_space c = false -> strip (c :: s) = c :: s.
Proof. unfold strip; simpl. now intros ->. Qed.

Lemma strip_append s c r :
  is_space c = false -> strip (s ++ c :: r) = strip s ++ c :: r.
Proof. intros H. unfold strip. now rewrite span_append. Qed.

Lemma strip_lower s : strip (lower s) = lower (strip s).
Proof.
  unfold strip. induction s as [|c s IH]; simpl; [reflexivity|].
  rewrite is_space_lower. destruct (is_space c); [|reflexivity].
  simpl in IH. destruct (span is_space (lower s)), (span is_space s).
  exact IH.
Qed.

(** ** The atoms in closed form *)

Lemma spaceless_eq {A} (p : parsy.parser A) s :
  spaceless p s =
  match p (strip s) with
  | Some (v, r) => Some (v, strip r)
  | None => None
  end.
Proof.
  unfold spaceless, parsy.skip, parsy.then_, parsy.bind, parsy.map, SPACES,
    strip.
  destruct (span is_space s) as [m r]; simpl.
  destruct (p r) as [[v r']|]; [|reflexivity].
  now destruct (span is_space r').
Qed.

Lemma string_eq k s :
  parsy.string k lower s =
  if text_eqb (lower (firstn (length k) s)) (lower k)
  then Some (k, skipn (length k) s) else None.
Proof. reflexivity. Qed.

(** ** Consumption

    A parser never returns more input than it was given, and the atoms
    return less: this is what bounds the loops and the recursion. *)

Lemma consuming_nonincr {A} (p : parsy.parser A) : consuming p -> nonincr p.
Proof. intros H s v r E. apply H in E. lia. Qed.

Lemma nonincr_success {A} (v : A) : nonincr (parsy.success v).
Proof. intros s v' r E. injection E as _ <-. lia. Qed.

Lemma nonincr_fail {A} : nonincr (@parsy.fail A).
Proof. intros s v r E. discriminate. Qed.

Lemma nonincr_bind {A B} (p : parsy.parser A) (k : A -> parsy.parser B) :
  nonincr p -> (forall v, nonincr (k v)) -> nonincr (parsy.bind p k).
Proof.
  intros Hp Hk s v r. unfold parsy.bind.
  destruct (p s) as [[v1 r1]|] eqn:E; [|discriminate].
  intros E2. apply Hp in E. apply Hk in E2. lia.
Qed.

Lemma consuming_bind_l {A B} (p : parsy.parser A) (k : A -> parsy.parser B) :
  consuming p -> (forall v, nonincr (k v)) -> consuming (parsy.bind p k).
Proof.
  intros Hp Hk s v r. unfold parsy.bind.
  destruct (p s) as [[v1 r1]|] eqn:E; [|discriminate].
  intros E2. apply Hp in E. apply Hk in E2. lia.
Qed.

Lemma nonincr_map {A B} (f : A -> B) (p : parsy.parser A) :
  nonincr p -> nonincr (parsy.map f p).
Proof.
  intros Hp s v r. unfold parsy.map.
  destruct (p s) as [[v1 r1]|] eqn:E; [|discriminate].
  intros E2. injection E2 as _ <-. now apply Hp in E.
Qed.

Lemma consuming_map {A B} (f : A -> B) (p : parsy.parser A) :
  consuming p -> consuming (parsy.map f p).
Proof.
  intros Hp s v r. unfold parsy.map.
  destruct (p s) as [[v1 r1]|] eqn:E; [|discriminate].
  intros E2. injection E2 as _ <-. now apply Hp in E.
Qed.

Lemma nonincr_or {A} (p q : parsy.parser A) :
  nonincr p -> nonincr q -> nonincr (parsy.or_ p q).
Proof.
  intros Hp Hq s v r. unfold parsy.or_.
  destruct (p s) as [[v1 r1]|] eqn:E.
  - intros E2. injection E2 as <- <-. now apply Hp in E.
  - apply Hq.
Qed.

Lemma consuming_or {A} (p q : parsy.parser A) :
  consuming p -> consuming q -> consuming (parsy.or_ p q).
Proof.
  intros Hp Hq s v r. unfold parsy.or_.
  destruct (p s) as [[v1 r1]|] eqn:E.
  - intros E2. injection E2 as <- <-. now apply Hp in E.
  - apply Hq.
Qed.

Lemma consuming_alt {A} (ps : list (parsy.parser A)) :
  Forall consuming ps -> consuming (parsy.alt ps).
Proof.
  induction 1 as [|p ps Hp _ IH]; simpl.
  - intros s v r E. discriminate.
  - now apply consuming_or.
Qed.

Lemma nonincr_optional {A} (p : parsy.parser A) :
  nonincr p -> nonincr (parsy.optional p).
Proof.
  intros Hp s v r. unfold parsy.optional.
  destruct (p s) as [[v1 r1]|] eqn:E; intros E2; injection E2 as _ <-.
  - now apply Hp in E.
  - lia.
Qed.

Lemma many_loop_length {A} (p : parsy.parser A) n :
  nonincr p -> forall s, length (snd (parsy.many_loop n p s)) <= length s.
Proof.
  intros Hp. induction n as [|n IH]; intros s; simpl; [lia|].
  destruct (p s) as [[v r]|] eqn:E; simpl; [|lia].
  specialize (IH r). apply Hp in E.
  destruct (parsy.many_loop n p r); simpl in *. lia.
Qed.

Lemma nonincr_many {A} (p : parsy.parser A) :
  nonincr p -> nonincr (parsy.many p).
Proof.
  intros Hp s v r E. unfold parsy.many in E. injection E as E.
  pose proof (many_loop_length p (length s) Hp s) as H.
  rewrite E in H. exact H.
Qed.

Lemma consuming_string c k : consuming (parsy.string (c :: k) lower).
Proof.
  intros s v r. rewrite string_eq.
  destruct s as [|x s]; [discriminate|].
  destruct (text_eqb _ _); [|discriminate].
  intros E. injection E as _ <-. simpl.
  pose proof (length_skipn (length k) s). lia.
Qed.

Lemma nonincr_spaceless {A} (p : parsy.parser A) :
  nonincr p -> nonincr (spaceless p).
Proof.
  intros Hp s v r. rewrite spaceless_eq.
  destruct (p (strip s)) as [[v1 r1]|] eqn:E; [|discriminate].
  intros E2. injection E2 as _ <-. apply Hp in E.
  pose proof (strip_length s). pose proof (strip_length r1). lia.
Qed.

Lemma consuming_spaceless {A} (p : parsy.parser A) :
  consuming p -> consuming (spaceless p).
Proof.
  intros Hp s v r. rewrite spaceless_eq.
  destruct (p (strip s)) as [[v1 r1]|] eqn:E; [|discriminate].
  intros E2. injection E2 as _ <-. apply Hp in E.
  pose proof (strip_length s). pose proof (strip_length r1). lia.
Qed.

Lemma consuming_spaceless_string names :
  Forall nonempty names -> consuming (spaceless_string names).
Proof.
  intros H. apply consuming_spaceless, consuming_alt.
  induction H as [|k names Hk _ IH]; simpl; constructor; [|exact IH].
  destruct k as [|c k]; [now elim Hk|]. apply consuming_string.
Qed.

Ltac nonempty_names := repeat constructor; discriminate.

Lemma consuming_punct c : consuming (spaceless_string [String c EmptyString]).
Proof. apply consuming_spaceless_string. nonempty_names. Qed.

Lemma consuming_NUMBER : consuming NUMBER.
Proof.
  apply consuming_spaceless. intros s v r.
  pose proof (span_app is_digit s) as H.
  destruct (span is_digit s) as [[|d ds] r']; [discriminate|].
  intros E. injection E as _ <-. simpl in H. rewrite <- H. simpl.
  rewrite length_app. lia.
Qed.

Lemma consuming_field : consuming field.
Proof.
  apply consuming_spaceless. intros s v r. unfold FIELD.
  destruct s as [|c s]; [discriminate|].
  destruct (is_ident_start c); [|discriminate].
  pose proof (span_length is_ident_char s) as H.
  destruct (span is_ident_char s) as [m r']. simpl in H.
  intros E. injection E as _ <-. simpl. lia.
Qed.

Lemma consuming_primitive : consuming primitive.
Proof.
  apply consuming_alt. unfold primitive_table.
  repeat (constructor;
          [apply consuming_map, consuming_spaceless_string; nonempty_names|]).
  constructor.
Qed.

Lemma consuming_brackets : consuming brackets.
Proof.
  apply consuming_bind_l.
  - apply consuming_spaceless, consuming_punct.
  - intros _. apply nonincr_bind.
    + apply nonincr_spaceless, consuming_nonincr, consuming_punct.
    + intros _. apply nonincr_success.
Qed.

Lemma consuming_decimal d : consuming (decimal d).
Proof.
  apply consuming_bind_l.
  - apply consuming_spaceless_string. nonempty_names.
  - intros _. apply nonincr_bind.
    + apply nonincr_optional, nonincr_bind.
      * apply nonincr_bind; [apply consuming_nonincr, consuming_punct|].
        intros _. apply nonincr_bind.
        -- apply nonincr_bind; [apply consuming_nonincr, consuming_NUMBER|].
           intros v. apply nonincr_map, consuming_nonincr, consuming_punct.
        -- intros prec. apply nonincr_bind;
             [apply consuming_nonincr, consuming_NUMBER|].
           intros sc. apply nonincr_success.
      * intros v. apply nonincr_map, consuming_nonincr, consuming_punct.
    + intros [[p s]|]; [|destruct d]; apply nonincr_success.
Qed.

Section ProductionsConsume.

Variable d : Z * Z.
Variable rec : parsy.parser DataType.
Hypothesis rec_nonincr : nonincr rec.

Lemma consuming_item : consuming (item rec).
Proof.
  apply consuming_bind_l; [apply consuming_field|].
  intros name. apply nonincr_bind; [exact rec_nonincr|].
  intros t. apply nonincr_success.
Qed.

Lemma consuming_sep_item : consuming (parsy.then_ COMMA (item rec)).
Proof.
  apply consuming_bind_l; [apply consuming_punct|].
  intros _. apply consuming_nonincr, consuming_item.
Qed.

Lemma consuming_map_production : consuming (map rec).
Proof.
  apply consuming_bind_l; [apply consuming_spaceless_string; nonempty_names|].
  intros _. apply nonincr_bind; [apply consuming_nonincr, consuming_punct|].
  intros _. apply nonincr_bind;
    [apply consuming_nonincr, consuming_primitive|].
  intros k. apply nonincr_bind; [apply consuming_nonincr, consuming_punct|].
  intros _. apply nonincr_bind; [exact rec_nonincr|].
  intros v. apply nonincr_bind; [apply consuming_nonincr, consuming_punct|].
  intros _. apply nonincr_success.
Qed.

Lemma consuming_struct : consuming (struct rec).
Proof.
  apply consuming_bind_l; [apply consuming_spaceless_string; nonempty_names|].
  intros _. apply nonincr_bind; [apply consuming_nonincr, consuming_punct|].
  intros _. apply nonincr_bind.
  - apply nonincr_or; [|apply nonincr_success].
    apply nonincr_bind; [apply consuming_nonincr, consuming_item|].
    intros v. apply nonincr_map, nonincr_many, consuming_nonincr,
      consuming_sep_item.
  - intros fs. apply nonincr_bind;
      [apply consuming_nonincr, consuming_punct|].
    intros _. apply nonincr_success.
Qed.

Lemma consuming_non_pg_array_type : consuming (non_pg_array_type d rec).
Proof.
  apply consuming_or; [apply consuming_or; [apply consuming_or|]|].
  - apply consuming_primitive.
  - apply consuming_decimal.
  - apply consuming_map_production.
  - apply consuming_struct.
Qed.

Lemma consuming_pg_array : consuming (pg_array d rec).
Proof.
  apply consuming_bind_l; [apply consuming_non_pg_array_type|].
  intros v. apply nonincr_bind.
  - apply nonincr_bind; [apply consuming_nonincr, consuming_brackets|].
    intros u. apply nonincr_map, nonincr_many, consuming_nonincr,
      consuming_brackets.
  - intros bs. apply nonincr_success.
Qed.

Lemma consuming_ty_body : consuming (ty_body d rec).
Proof.
  apply consuming_or;
    [apply consuming_pg_array | apply consuming_non_pg_array_type].
Qed.

End ProductionsConsume.

Lemma struct_item rec :
  struct rec =
  (spaceless_string ["struct"]%string ;;;
   LPAREN ;;;
   field_names_types <- parsy.sep_by (item rec) COMMA ;;
   RPAREN ;;;
   parsy.success (dt.Struct field_names_types)).
Proof. reflexivity. Qed.

Lemma consuming_ty_fuel d n : consuming (ty_fuel d n).
Proof.
  induction n as [|n IH]; simpl; apply consuming_ty_body.
  - apply nonincr_fail.
  - now apply consuming_nonincr.
Qed.

(** ** The bounds of the loops and of the recursion are never reached *)

Lemma many_loop_fuel {A} (p : parsy.parser A) :
  consuming p ->
  forall n m s, length s <= n -> length s <= m ->
  parsy.many_loop n p s = parsy.many_loop m p s.
Proof.
  intros Hp. induction n as [|n IH]; intros m s Hn Hm.
  - destruct s; [|simpl in Hn; lia].
    destruct m; simpl; [reflexivity|].
    destruct (p []) as [[v r]|] eqn:E; [|reflexivity].
    apply Hp in E. simpl in E. lia.
  - destruct m as [|m].
    + destruct s; [|simpl in Hm; lia]. simpl.
      destruct (p []) as [[v r]|] eqn:E; [|reflexivity].
      apply Hp in E. simpl in E. lia.
    + simpl. destruct (p s) as [[v r]|] eqn:E; [|reflexivity].
      apply Hp in E. rewrite (IH m r); [reflexivity| lia | lia].
Qed.

(** [many] obeys the equation of the loop it stands for. *)
Lemma many_unfold {A} (p : parsy.parser A) s :
  consuming p ->
  parsy.many p s =
  match p s with
  | Some (v, r) => parsy.map (cons v) (parsy.many p) r
  | None => Some ([], s)
  end.
Proof.
  intros Hp. unfold parsy.many, parsy.map.
  destruct s as [|c s]; simpl.
  - destruct (p []) as [[v r]|] eqn:E; [|reflexivity].
    apply Hp in E. simpl in E. lia.
  - destruct (p (c :: s)) as [[v r]|] eqn:E; [|reflexivity].
    apply Hp in E. simpl in E.
    rewrite (many_loop_fuel p Hp (length s) (length r) r); [|lia|lia].
    now destruct (parsy.many_loop (length r) p r).
Qed.

Lemma many_loop_agree {A} (p q : parsy.parser A) n :
  nonincr p ->
  forall s, (forall u, length u <= length s -> p u = q u) ->
  parsy.many_loop n p s = parsy.many_loop n q s.
Proof.
  intros Hp. induction n as [|n IH]; intros s H; simpl; [reflexivity|].
  rewrite <- (H s) by lia.
  destruct (p s) as [[v r]|] eqn:E; [|reflexivity].
  apply Hp in E. rewrite IH; [reflexivity|].
  intros u Hu. apply H. lia.
Qed.

Ltac run p s v r E := destruct (p s) as [[v r]|] eqn:E; [|try reflexivity].

Section Agree.

Variable d : Z * Z.
Variables rec1 rec2 : parsy.parser DataType.
Variable bound : nat.
Hypothesis rec_agree : forall u, length u < bound -> rec1 u = rec2 u.
Hypothesis rec1_nonincr : nonincr rec1.

Lemma item_agree s : length s <= bound -> item rec1 s = item rec2 s.
Proof.
  intros Hs. unfold item, parsy.bind.
  run field s name r E. apply consuming_field in E.
  now rewrite rec_agree by lia.
Qed.

Lemma sep_item_agree s :
  length s <= bound ->
  parsy.then_ COMMA (item rec1) s = parsy.then_ COMMA (item rec2) s.
Proof.
  intros Hs. unfold parsy.then_, parsy.bind.
  run COMMA s v r E. apply consuming_punct in E.
  apply item_agree. lia.
Qed.

Lemma map_agree s : length s <= bound -> map rec1 s = map rec2 s.
Proof.
  intros Hs. unfold map, parsy.bind.
  run (spaceless_string ["map"%string]) s v1 r1 E1.
  apply consuming_spaceless_string in E1; [|nonempty_names].
  run LPAREN r1 v2 r2 E2. apply consuming_punct in E2.
  run primitive r2 v3 r3 E3. apply consuming_primitive in E3.
  run COMMA r3 v4 r4 E4. apply consuming_punct in E4.
  now rewrite rec_agree by lia.
Qed.

Lemma struct_agree s : length s <= bound -> struct rec1 s = struct rec2 s.
Proof.
  intros Hs. rewrite !struct_item. unfold parsy.bind.
  run (spaceless_string ["struct"%string]) s v1 r1 E1.
  apply consuming_spaceless_string in E1; [|nonempty_names].
  run LPAREN r1 v2 r2 E2. apply consuming_punct in E2.
  replace (parsy.sep_by (item rec2) COMMA r2)
    with (parsy.sep_by (item rec1) COMMA r2); [reflexivity|].
  unfold parsy.sep_by, parsy.or_, parsy.bind.
  rewrite <- item_agree by lia.
  run (item rec1) r2 v3 r3 E3.
  apply (consuming_item rec1 rec1_nonincr) in E3.
  unfold parsy.map, parsy.many.
  rewrite (many_loop_agree _ (parsy.then_ COMMA (item rec2)));
    [reflexivity | |].
  - apply consuming_nonincr, consuming_sep_item, rec1_nonincr.
  - intros u Hu. apply sep_item_agree. lia.
Qed.

Lemma non_pg_array_type_agree s :
  length s <= bound ->
  non_pg_array_type d rec1 s = non_pg_array_type d rec2 s.
Proof.
  intros Hs. unfold non_pg_array_type, parsy.or_.
  now rewrite map_agree, struct_agree.
Qed.

Lemma ty_body_agree s :
  length s <= bound -> ty_body d rec1 s = ty_body d rec2 s.
Proof.
  intros Hs. unfold ty_body, pg_array, parsy.or_, parsy.bind.
  now rewrite !non_pg_array_type_agree.
Qed.

End Agree.

Lemma ty_fuel_eq d n : ty_fuel d n = ty_body d (rec_of d n).
Proof. now destruct n. Qed.

Lemma nonincr_rec_of d n : nonincr (rec_of d n).
Proof.
  destruct n; simpl;
    [apply nonincr_fail | apply consuming_nonincr, consuming_ty_fuel].
Qed.

Lemma ty_fuel_irrelevant d n :
  forall m s, length s <= n -> length s <= m -> ty_fuel d n s = ty_fuel d m s.
Proof.
  induction n as [|n IH]; intros m s Hn Hm; rewrite !ty_fuel_eq;
    apply (ty_body_agree d _ _ (length s)); try lia;
    try apply nonincr_rec_of; intros u Hu.
  destruct m as [|m]; [lia|]. simpl. apply IH; lia.
Qed.

Lemma consuming_ty d : consuming (ty d).
Proof. intros s v r. apply consuming_ty_fuel. Qed.

(** [ty] obeys the recursive equation of the source: it is the
    alternation of [pg_array] and [non_pg_array_type] whose nested types
    are parsed by [ty] itself. *)
Lemma ty_unfold d s : ty d s = ty_body d (ty d) s.
Proof.
  unfold ty at 1. rewrite ty_fuel_eq.
  apply (ty_body_agree d _ _ (length s)); try lia;
    try apply nonincr_rec_of.
  intros u Hu. destruct (length s) as [|n] eqn:E; [lia|]. simpl.
  unfold ty. apply ty_fuel_irrelevant; lia.
Qed.

Lemma ty_at_fuel d n s : length s <= n -> ty_fuel d n s = ty d s.
Proof. intros H. apply ty_fuel_irrelevant; [exact H | apply Nat.le_refl]. Qed.

Lemma string_match_kw k s :
  parsy.string k lower s =
  match match_kw k s with Some r => Some (k, r) | None => None end.
Proof.
  rewrite string_eq.
  assert (H : forall k s,
             (text_eqb (lower (firstn (length k) s)) (lower k) = true ->
              match_kw k s = Some (skipn (length k) s)) /\
             (text_eqb (lower (firstn (length k) s)) (lower k) = false ->
              match_kw k s = None)).
  { clear. induction k as [|x k IH]; intros s; simpl.
    - split; [reflexivity | discriminate].
    - destruct s as [|y s]; simpl; [split; [discriminate | reflexivity]|].
      destruct (Ascii.eqb (lower_char y) (lower_char x)); simpl;
        [apply IH | split; [discriminate | reflexivity]]. }
  destruct (text_eqb _ _) eqn:E; apply H in E; now rewrite E.
Qed.

Lemma spaceless_string_eq names s :
  spaceless_string names s =
  on_rest strip (raw_strings (keywords names) (strip s)).
Proof.
  unfold spaceless_string. rewrite spaceless_eq.
  unfold raw_strings, keywords. rewrite List.map_map. reflexivity.
Qed.

Lemma lower_punct x c :
  is_punct x = true ->
  Ascii.eqb (lower_char c) (lower_char x) = Ascii.eqb c x.
Proof.
  unfold is_punct. simpl. intros H.
  repeat (apply orb_true_iff in H as [H|H];
          [apply Ascii.eqb_eq in H; subst x; each_char c|]).
  discriminate.
Qed.

(** A punctuation atom looks at the next character only. *)
Lemma punct_eq x s :
  is_punct x = true ->
  spaceless_string [String x EmptyString] s =
  match strip s with
  | c :: r => if Ascii.eqb c x then Some ([x], strip r) else None
  | [] => None
  end.
Proof.
  intros Hx. rewrite spaceless_string_eq. unfold raw_strings; simpl.
  unfold parsy.or_. rewrite string_match_kw.
  destruct (strip s) as [|c r]; simpl; [reflexivity|].
  rewrite (lower_punct x c Hx). now destruct (Ascii.eqb c x).
Qed.

Lemma punct_some x s v r :
  is_punct x = true ->
  spaceless_string [String x EmptyString] s = Some (v, r) ->
  next_char s = Some x.
Proof.
  intros Hx. rewrite (punct_eq x s Hx). unfold next_char.
  destruct (strip s) as [|c r']; [discriminate|].
  destruct (Ascii.eqb c x) eqn:E; [|discriminate].
  apply Ascii.eqb_eq in E. now subst.
Qed.

Lemma punct_none x s :
  is_punct x = true ->
  next_char s <> Some x ->
  spaceless_string [String x EmptyString] s = None.
Proof.
  intros Hx. rewrite (punct_eq x s Hx). unfold next_char.
  destruct (strip s) as [|c r']; [reflexivity|].
  destruct (Ascii.eqb c x) eqn:E; [|reflexivity].
  apply Ascii.eqb_eq in E. subst. simpl. congruence.
Qed.

Lemma punct_none_inv x s :
  is_punct x = true ->
  spaceless_string [String x EmptyString] s = None ->
  next_char s <> Some x.
Proof.
  intros Hx. rewrite (punct_eq x s Hx). unfold next_char.
  destruct (strip s) as [|c r']; [discriminate|]. simpl.
  destruct (Ascii.eqb c x) eqn:E; [discriminate|].
  intros _ H. injection H as ->. now rewrite Ascii.eqb_refl in E.
Qed.

Lemma primitive_plain : plain_table primitive_table = true.
Proof. reflexivity. Qed.

(** ** Text after a type

    What a parser does on an input followed by more text that starts with
    a character [c] which is no whitespace, no letter, digit or underscore
    and no opening parenthesis. *)

Section Barrier.

Variable c : ascii.
Variable tl : text.
Hypothesis c_space : is_space c = false.
Hypothesis c_ident : is_ident_char c = false.
Hypothesis c_paren : c <> "("%char.

Local Abbreviation sfx := (c :: tl).

Lemma next_char_append s :
  next_char (s ++ sfx) =
  match next_char s with Some y => Some y | None => Some c end.
Proof.
  unfold next_char. rewrite strip_append by exact c_space.
  now destruct (strip s).
Qed.

Lemma barrier_char x :
  (is_ident_char x || is_space x)%bool = true ->
  Ascii.eqb (lower_char c) (lower_char x) = false.
Proof.
  intros Hx. apply Ascii.eqb_neq. intros E.
  pose proof (lower_ident c) as H1. pose proof (lower_ident x) as H2.
  pose proof (is_space_lower c) as H3. pose proof (is_space_lower x) as H4.
  rewrite E in H1, H3. rewrite H1 in H2. rewrite H3 in H4.
  rewrite <- H2, <- H4, c_ident, c_space in Hx. discriminate.
Qed.

Lemma match_kw_append k :
  plain k = true ->
  forall s, match_kw k (s ++ sfx) =
            option_map (fun r => r ++ sfx) (match_kw k s).
Proof.
  induction k as [|x k IH]; intros Hk s; [reflexivity|].
  simpl in Hk. apply andb_true_iff in Hk as [Hx Hk].
  destruct s as [|y s]; simpl.
  - now rewrite (barrier_char x Hx).
  - destruct (Ascii.eqb (lower_char y) (lower_char x)); [|reflexivity].
    now apply IH.
Qed.

Lemma stable_string k : plain k = true -> stable sfx (parsy.string k lower).
Proof.
  intros Hk s. rewrite !string_match_kw, (match_kw_append k Hk).
  now destruct (match_kw k s).
Qed.

Lemma stable_raw_strings names :
  forallb plain names = true -> stable sfx (raw_strings names).
Proof.
  unfold raw_strings.
  induction names as [|k names IH]; intros H s; simpl; [reflexivity|].
  simpl in H. apply andb_true_iff in H as [Hk H].
  unfold parsy.or_. rewrite (stable_string k Hk).
  destruct (parsy.string k lower s) as [[v r]|]; [reflexivity|].
  now apply IH.
Qed.

Lemma stable_spaceless {A} (p : parsy.parser A) :
  stable sfx p -> stable sfx (spaceless p).
Proof.
  intros H s. rewrite !spaceless_eq, strip_append, H by exact c_space.
  destruct (p (strip s)) as [[v r]|]; simpl; [|reflexivity].
  now rewrite strip_append by exact c_space.
Qed.

Lemma stable_spaceless_string names :
  forallb plain (keywords names) = true ->
  stable sfx (spaceless_string names).
Proof.
  intros H. apply stable_spaceless. unfold keywords in H.
  pose proof (stable_raw_strings _ H) as H'. unfold raw_strings in H'.
  rewrite List.map_map in H'. exact H'.
Qed.

Lemma extends_punct x :
  is_punct x = true -> extends sfx (spaceless_string [String x EmptyString]).
Proof.
  intros Hx s v r. rewrite !(punct_eq x) by exact Hx.
  rewrite strip_append by exact c_space.
  destruct (strip s) as [|y r']; [discriminate|]. simpl.
  destruct (Ascii.eqb y x); [|discriminate].
  intros E. injection E as <- <-.
  now rewrite strip_append by exact c_space.
Qed.

Lemma stable_LPAREN : stable sfx LPAREN.
Proof.
  intros s. unfold LPAREN. rewrite !(punct_eq "(") by reflexivity.
  rewrite strip_append by exact c_space.
  destruct (strip s) as [|y r']; simpl.
  - destruct (Ascii.eqb c "(") eqn:E; [|reflexivity].
    apply Ascii.eqb_eq in E. now elim c_paren.
  - destruct (Ascii.eqb y "("); [|reflexivity]. simpl.
    now rewrite strip_append by exact c_space.
Qed.

Lemma stable_NUMBER : stable sfx NUMBER.
Proof.
  apply stable_spaceless. intros s.
  assert (Hd : is_digit c = false).
  { destruct (is_digit c) eqn:E; [|reflexivity].
    apply digit_ident in E. congruence. }
  rewrite (span_append is_digit s c tl Hd).
  destruct (span is_digit s) as [[|x ds] r]; reflexivity.
Qed.

Lemma stable_field : stable sfx field.
Proof.
  apply stable_spaceless. intros s. unfold FIELD.
  destruct s as [|y s]; simpl.
  - destruct (is_ident_start c) eqn:E; [|reflexivity].
    apply ident_start_char in E. congruence.
  - destruct (is_ident_start y); [|reflexivity].
    rewrite (span_append is_ident_char s c tl c_ident).
    now destruct (span is_ident_char s).
Qed.

Lemma stable_table tbl :
  plain_table tbl = true ->
  stable sfx
    (parsy.alt
       (List.map
          (fun '(names, v) => parsy.result_ (spaceless_string names) v)
          tbl)).
Proof.
  induction tbl as [|[names v] tbl IH]; intros H s; simpl; [reflexivity|].
  simpl in H. apply andb_true_iff in H as [Hk H].
  unfold parsy.or_, parsy.result_, parsy.map.
  rewrite (stable_spaceless_string names Hk).
  destruct (spaceless_string names s) as [[v' r]|]; [reflexivity|].
  now apply IH.
Qed.

Lemma stable_primitive : stable sfx primitive.
Proof. apply stable_table, primitive_plain. Qed.

Lemma extends_spaceless {A} (p : parsy.parser A) :
  extends sfx p -> extends sfx (spaceless p).
Proof.
  intros H s v r. rewrite !spaceless_eq, strip_append by exact c_space.
  destruct (p (strip s)) as [[v1 r1]|] eqn:E; [|discriminate].
  intros E2. injection E2 as <- <-. rewrite (H _ _ _ E).
  now rewrite strip_append by exact c_space.
Qed.

Lemma extends_group : extends sfx prec_scale_group.
Proof.
  intros s v r. unfold prec_scale_group, parsy.skip, parsy.then_,
    parsy.bind, parsy.map, parsy.success, PRECISION, SCALE, COMMA, RPAREN.
  rewrite stable_LPAREN.
  destruct (LPAREN s) as [[v1 r1]|]; [|discriminate]. cbn [on_rest].
  rewrite stable_NUMBER.
  destruct (NUMBER r1) as [[v2 r2]|]; [|discriminate]. cbn [on_rest].
  destruct (spaceless_string _ r2) as [[v3 r3]|] eqn:E3; [|discriminate].
  rewrite (extends_punct "," eq_refl _ _ _ E3).
  rewrite stable_NUMBER.
  destruct (NUMBER r3) as [[v4 r4]|]; [|discriminate]. cbn [on_rest].
  destruct (spaceless_string _ r4) as [[v5 r5]|] eqn:E5; [|discriminate].
  rewrite (extends_punct ")" eq_refl _ _ _ E5).
  intros E. now injection E as <- <-.
Qed.

Lemma group_fails s :
  next_char s <> Some "("%char -> prec_scale_group (s ++ sfx) = None.
Proof.
  intros H. unfold prec_scale_group, parsy.skip, parsy.then_, parsy.bind.
  unfold LPAREN. rewrite (punct_none "("); [reflexivity..|].
  rewrite next_char_append. destruct (next_char s); congruence.
Qed.

Lemma decimal_eq d :
  decimal d =
  (spaceless_string ["decimal"; "numeric"]%string ;;;
   prec_scale <- parsy.optional prec_scale_group ;;
   let '(prec, scale) :=
     match prec_scale with Some ps => ps | None => d end in
   parsy.success (dt.Decimal prec scale)).
Proof. reflexivity. Qed.

Lemma decimal_extends d s v r :
  decimal d s = Some (v, r) -> next_char r <> Some "("%char ->
  decimal d (s ++ sfx) = Some (v, r ++ sfx).
Proof.
  rewrite !decimal_eq. unfold parsy.bind, parsy.optional.
  rewrite (stable_spaceless_string _ (eq_refl : forallb plain
    (keywords ["decimal"; "numeric"]%string) = true)).
  destruct (spaceless_string _ s) as [[v1 r1]|]; [|discriminate].
  cbn [on_rest].
  destruct (prec_scale_group r1) as [[[p1 s1] r2]|] eqn:E.
  - rewrite (extends_group _ _ _ E). intros E2 _.
    now injection E2 as <- <-.
  - destruct d as [p0 s0]. intros E2 H. injection E2 as <- <-.
    now rewrite (group_fails r1 H).
Qed.

Lemma decimal_fails d s : decimal d s = None -> decimal d (s ++ sfx) = None.
Proof.
  rewrite !decimal_eq. unfold parsy.bind, parsy.optional.
  rewrite (stable_spaceless_string _ (eq_refl : forallb plain
    (keywords ["decimal"; "numeric"]%string) = true)).
  destruct (spaceless_string _ s) as [[v1 r1]|]; [|reflexivity].
  destruct (prec_scale_group r1) as [[[p1 s1] r2]|]; [discriminate|].
  destruct d. discriminate.
Qed.

Lemma extends_brackets : extends sfx brackets.
Proof.
  intros s v r. unfold brackets, parsy.bind, parsy.success, LBRACKET,
    RBRACKET.
  destruct (spaceless (spaceless_string ["["%string]) s) as [[v1 r1]|] eqn:E1; [|discriminate].
  rewrite (extends_spaceless _ (extends_punct "[" eq_refl) _ _ _ E1).
  destruct (spaceless (spaceless_string ["]"%string]) r1) as [[v2 r2]|] eqn:E2; [|discriminate].
  rewrite (extends_spaceless _ (extends_punct "]" eq_refl) _ _ _ E2).
  intros E. now injection E as <- <-.
Qed.

Lemma brackets_next s v r :
  brackets s = Some (v, r) -> next_char s = Some "["%char.
Proof.
  unfold brackets, parsy.bind. rewrite spaceless_eq. unfold LBRACKET.
  destruct (spaceless_string _ (strip s)) as [[v1 r1]|] eqn:E;
    [|discriminate].
  intros _. apply punct_some in E; [|reflexivity].
  unfold next_char in *. now rewrite strip_idem in E.
Qed.

Lemma brackets_none s :
  next_char s <> Some "["%char -> brackets s = None.
Proof.
  intros H. unfold brackets, parsy.bind. rewrite spaceless_eq.
  unfold LBRACKET. rewrite (punct_none "["); [reflexivity..|].
  unfold next_char in *. now rewrite strip_idem.
Qed.

Lemma brackets_fails s :
  next_char s <> Some "["%char -> (next_char s = None -> c <> "["%char) ->
  brackets (s ++ sfx) = None.
Proof.
  intros H1 H2. apply brackets_none. rewrite next_char_append.
  destruct (next_char s); [exact H1|].
  intros E. injection E as E. now apply H2.
Qed.

Lemma many_brackets_extends n :
  forall s bs r, length s <= n ->
  parsy.many brackets s = Some (bs, r) ->
  next_char r <> Some "["%char -> (next_char r = None -> c <> "["%char) ->
  parsy.many brackets (s ++ sfx) = Some (bs, r ++ sfx).
Proof.
  induction n as [|n IH]; intros s bs r Hn; rewrite !many_unfold
    by exact consuming_brackets;
    (destruct (brackets s) as [[v1 r1]|] eqn:E1;
     [| intros E H1 H2; injection E as <- <-;
        now rewrite (brackets_fails s H1 H2)]).
  - apply consuming_brackets in E1. lia.
  - rewrite (extends_brackets _ _ _ E1). unfold parsy.map.
    destruct (parsy.many brackets r1) as [[bs1 r2]|] eqn:E2;
      [|discriminate].
    intros E H1 H2. injection E as <- <-.
    apply consuming_brackets in E1.
    rewrite (IH r1 bs1 r2); [reflexivity | lia | exact E2 | exact H1
                            | exact H2].
Qed.

Lemma follows_close r :
  next_char r = Some ","%char \/ next_char r = Some ")"%char ->
  follows c r.
Proof.
  unfold follows. intros [H|H]; rewrite H; repeat split; discriminate.
Qed.

Lemma field_none s : next_char s = Some ")"%char -> field s = None.
Proof.
  unfold next_char, field. rewrite spaceless_eq.
  destruct (strip s) as [|y r]; [discriminate|].
  intros E. injection E as ->. reflexivity.
Qed.

Lemma struct_keyword_not_map s v r :
  spaceless_string ["struct"%string] s = Some (v, r) ->
  spaceless_string ["map"%string] s = None.
Proof.
  rewrite !spaceless_string_eq. unfold raw_strings, keywords; simpl.
  unfold parsy.or_. rewrite !string_match_kw.
  destruct (strip s) as [|y s']; [discriminate|].
  unfold T; simpl.
  change (lower_char "s") with "s"%char.
  change (lower_char "m") with "m"%char.
  destruct (Ascii.eqb (lower_char y) "s") eqn:E; [|discriminate].
  apply Ascii.eqb_eq in E. rewrite E. reflexivity.
Qed.

Section Nested.

Variable d : Z * Z.
Variable rec : parsy.parser DataType.
Hypothesis rec_nonincr : nonincr rec.
Hypothesis rec_extends :
  forall s v r, rec s = Some (v, r) -> follows c r ->
                rec (s ++ sfx) = Some (v, r ++ sfx).

Lemma item_extends s f r :
  item rec s = Some (f, r) -> follows c r ->
  item rec (s ++ sfx) = Some (f, r ++ sfx).
Proof.
  unfold item, parsy.bind, parsy.success. rewrite stable_field.
  destruct (field s) as [[name r1]|]; [|discriminate]. cbn [on_rest].
  destruct (rec r1) as [[t r2]|] eqn:E; [|discriminate].
  intros E2 H. injection E2 as <- <-.
  now rewrite (rec_extends _ _ _ E H).
Qed.

(** In a struct body that is closed, a type is followed by a comma or
    by the closing parenthesis. *)
Lemma sep_loop_next s fs r :
  parsy.many (parsy.then_ COMMA (item rec)) s = Some (fs, r) ->
  next_char r = Some ")"%char ->
  next_char s = Some ","%char \/ next_char s = Some ")"%char.
Proof.
  rewrite many_unfold by (apply consuming_sep_item, rec_nonincr).
  unfold parsy.then_ at 1. unfold parsy.bind, COMMA.
  destruct (spaceless_string _ s) as [[v1 r1]|] eqn:E1.
  - intros _ _. left. now apply punct_some in E1.
  - intros E H. injection E as <- <-. now right.
Qed.

Lemma sep_loop_extends n :
  forall s fs r, length s <= n ->
  parsy.many (parsy.then_ COMMA (item rec)) s = Some (fs, r) ->
  next_char r = Some ")"%char ->
  parsy.many (parsy.then_ COMMA (item rec)) (s ++ sfx)
  = Some (fs, r ++ sfx).
Proof.
  induction n as [|n IH]; intros s fs r Hn;
    rewrite !many_unfold by (apply consuming_sep_item, rec_nonincr);
    (destruct (parsy.then_ COMMA (item rec) s) as [[f1 r1]|] eqn:E1;
     [| intros E H; injection E as <- <-;
        unfold parsy.then_, parsy.bind, COMMA;
        rewrite (punct_none ","); [reflexivity | reflexivity |];
        rewrite next_char_append, H; discriminate]).
  - apply (consuming_sep_item rec rec_nonincr) in E1. lia.
  - unfold parsy.map.
    destruct (parsy.many _ r1) as [[fs1 r2]|] eqn:E2; [|discriminate].
    intros E H. injection E as <- <-.
    pose proof (consuming_sep_item rec rec_nonincr _ _ _ E1) as Hlen.
    assert (Hstep : parsy.then_ COMMA (item rec) (s ++ sfx)
                    = Some (f1, r1 ++ sfx)).
    { unfold parsy.then_, parsy.bind, COMMA in E1 |- *.
      destruct (spaceless_string _ s) as [[v0 r0]|] eqn:E0;
        [|discriminate].
      rewrite (extends_punct "," eq_refl _ _ _ E0).
      apply item_extends; [exact E1|].
      apply follows_close. eapply sep_loop_next; eassumption. }
    rewrite Hstep.
    rewrite (IH r1 fs1 r2); [reflexivity | lia | exact E2 | exact H].
Qed.

Lemma sep_by_extends s fs r :
  parsy.sep_by (item rec) COMMA s = Some (fs, r) ->
  next_char r = Some ")"%char ->
  parsy.sep_by (item rec) COMMA (s ++ sfx) = Some (fs, r ++ sfx).
Proof.
  unfold parsy.sep_by, parsy.or_, parsy.bind, parsy.map, parsy.success.
  destruct (item rec s) as [[f1 r1]|] eqn:E1.
  - destruct (parsy.many _ r1) as [[fs1 r2]|] eqn:E2.
    + intros E H. injection E as <- <-.
      rewrite (item_extends _ _ _ E1)
        by (apply follows_close; eapply sep_loop_next; eassumption).
      now rewrite (sep_loop_extends (length r1) r1 fs1 r2 (Nat.le_refl _)
                     E2 H).
    + unfold parsy.many in E2. discriminate.
  - intros E H. injection E as <- <-.
    unfold item at 1. unfold parsy.bind.
    rewrite stable_field, (field_none s H). reflexivity.
Qed.

Lemma map_extends : extends sfx (map rec).
Proof.
  intros s v r. unfold map, parsy.bind, parsy.success, COMMA, RPAREN.
  rewrite (stable_spaceless_string ["map"%string] eq_refl).
  destruct (spaceless_string ["map"%string] s) as [[v1 r1]|];
    [|discriminate]. cbn [on_rest].
  rewrite stable_LPAREN.
  destruct (LPAREN r1) as [[v2 r2]|]; [|discriminate]. cbn [on_rest].
  rewrite stable_primitive.
  destruct (primitive r2) as [[k r3]|]; [|discriminate]. cbn [on_rest].
  destruct (spaceless_string [","%string] r3) as [[v4 r4]|] eqn:E4;
    [|discriminate].
  rewrite (extends_punct "," eq_refl _ _ _ E4).
  destruct (rec r4) as [[t r5]|] eqn:E5; [|discriminate].
  destruct (spaceless_string [")"%string] r5) as [[v6 r6]|] eqn:E6;
    [|discriminate].
  intros E. injection E as <- <-.
  rewrite (rec_extends _ _ _ E5)
    by (apply follows_close; right; eapply punct_some;
        [reflexivity | exact E6]).
  now rewrite (extends_punct ")" eq_refl _ _ _ E6).
Qed.

Lemma struct_extends : extends sfx (struct rec).
Proof.
  intros s v r. rewrite !struct_item.
  unfold parsy.bind, parsy.success, RPAREN.
  rewrite (stable_spaceless_string ["struct"%string] eq_refl).
  destruct (spaceless_string ["struct"%string] s) as [[v1 r1]|];
    [|discriminate]. cbn [on_rest].
  rewrite stable_LPAREN.
  destruct (LPAREN r1) as [[v2 r2]|]; [|discriminate]. cbn [on_rest].
  destruct (parsy.sep_by (item rec) COMMA r2) as [[fs r3]|] eqn:E3;
    [|discriminate].
  destruct (spaceless_string [")"%string] r3) as [[v4 r4]|] eqn:E4;
    [|discriminate].
  intros E. injection E as <- <-.
  rewrite (sep_by_extends _ _ _ E3)
    by (eapply punct_some; [reflexivity | exact E4]).
  now rewrite (extends_punct ")" eq_refl _ _ _ E4).
Qed.

Lemma struct_not_map s x :
  struct rec s = Some x -> map rec (s ++ sfx) = None.
Proof.
  unfold struct, map, parsy.bind.
  destruct (spaceless_string ["struct"%string] s) as [[v1 r1]|] eqn:E;
    [|discriminate].
  intros _. apply struct_keyword_not_map in E.
  now rewrite (stable_spaceless_string ["map"%string] eq_refl), E.
Qed.

Lemma non_pg_array_type_extends s v r :
  non_pg_array_type d rec s = Some (v, r) ->
  next_char r <> Some "("%char ->
  non_pg_array_type d rec (s ++ sfx) = Some (v, r ++ sfx).
Proof.
  unfold non_pg_array_type, parsy.or_. rewrite stable_primitive.
  destruct (primitive s) as [[v1 r1]|].
  { intros E _. now injection E as <- <-. }
  cbn [on_rest].
  destruct (decimal d s) as [[v2 r2]|] eqn:E2.
  { intros E H. injection E as <- <-.
    now rewrite (decimal_extends _ _ _ _ E2 H). }
  rewrite (decimal_fails _ _ E2).
  destruct (map rec s) as [[v3 r3]|] eqn:E3.
  { intros E _. injection E as <- <-.
    now rewrite (map_extends _ _ _ E3). }
  intros E _. rewrite (struct_not_map _ _ E).
  now apply struct_extends.
Qed.

Lemma ty_body_extends s v r :
  ty_body d rec s = Some (v, r) -> follows c r ->
  ty_body d rec (s ++ sfx) = Some (v, r ++ sfx).
Proof.
  unfold ty_body, pg_array, parsy.at_least1, parsy.or_, parsy.bind,
    parsy.map, parsy.success.
  destruct (non_pg_array_type d rec s) as [[v0 r0]|] eqn:E0;
    [|discriminate].
  destruct (brackets r0) as [[u r1]|] eqn:E1.
  - destruct (parsy.many brackets r1) as [[bs r2]|] eqn:E2;
      [|unfold parsy.many in E2; discriminate].
    cbv beta iota. intros E (H1 & H2 & H3). injection E as <- <-.
    rewrite (non_pg_array_type_extends _ _ _ E0)
      by (rewrite (brackets_next _ _ _ E1); discriminate).
    rewrite (extends_brackets _ _ _ E1).
    now rewrite (many_brackets_extends (length r1) r1 bs r2
                   (Nat.le_refl _) E2 H2 H3).
  - cbv beta iota. intros E (H1 & H2 & H3). injection E as <- <-.
    rewrite (non_pg_array_type_extends _ _ _ E0 H1).
    now rewrite (brackets_fails r0 H2 H3).
Qed.

End Nested.

Lemma ty_fuel_extends d n :
  forall s v r, ty_fuel d n s = Some (v, r) -> follows c r ->
                ty_fuel d n (s ++ sfx) = Some (v, r ++ sfx).
Proof.
  induction n as [|n IH]; simpl; apply ty_body_extends.
  - apply nonincr_fail.
  - discriminate.
  - apply consuming_nonincr, consuming_ty_fuel.
  - exact IH.
Qed.

(** A type followed by text that starts with [c] is parsed as the type
    alone is, and leaves that text. *)
Lemma ty_extends d s v r :
  ty d s = Some (v, r) -> follows c r ->
  ty d (s ++ sfx) = Some (v, r ++ sfx).
Proof.
  intros E H. unfold ty.
  apply ty_fuel_extends; [|exact H].
  rewrite ty_at_fuel; [exact E|]. rewrite length_app. lia.
Qed.

Lemma non_pg_array_type_ty_extends d s v r :
  non_pg_array_type d (ty d) s = Some (v, r) ->
  next_char r <> Some "("%char ->
  non_pg_array_type d (ty d) (s ++ sfx) = Some (v, r ++ sfx).
Proof.
  apply non_pg_array_type_extends.
  - apply consuming_nonincr, consuming_ty.
  - intros s' v' r'. apply ty_extends.
Qed.

End Barrier.

(** ** Bracket suffixes *)

Lemma brackets_step rest :
  brackets ("["%char :: "]"%char :: rest) = Some (tt, strip rest).
Proof.
  unfold brackets, parsy.bind, parsy.success, LBRACKET, RBRACKET.
  rewrite spaceless_eq, (punct_eq "[") by reflexivity.
  rewrite !strip_cons by reflexivity. rewrite Ascii.eqb_refl.
  rewrite !strip_cons by reflexivity.
  rewrite spaceless_eq, (punct_eq "]") by reflexivity.
  rewrite !strip_cons by reflexivity. rewrite Ascii.eqb_refl.
  now rewrite !strip_idem.
Qed.

Lemma suffixes_S n : suffixes (S n) = "["%char :: "]"%char :: suffixes n.
Proof. reflexivity. Qed.

Lemma strip_suffixes n : strip (suffixes n) = suffixes n.
Proof. destruct n; [reflexivity|]. now rewrite suffixes_S, strip_cons. Qed.

Lemma many_brackets_suffixes n :
  parsy.many brackets (suffixes n) = Some (repeat tt n, []).
Proof.
  induction n as [|n IH]; [reflexivity|].
  rewrite many_unfold by exact consuming_brackets.
  rewrite suffixes_S, brackets_step, strip_suffixes.
  unfold parsy.map. now rewrite IH.
Qed.

Lemma brackets_nil : brackets [] = None.
Proof. reflexivity. Qed.

(** A type that [ty] reads to the end of the input is the result of
    [parse], and conversely. *)
Lemma parse_ok_iff s d v : parse s d = parsy.Ok v <-> ty d s = Some (v, []).
Proof.
  unfold parse, parsy.parse, parsy.skip, parsy.bind, parsy.map, parsy.eof.
  destruct (ty d s) as [[v1 [|x r1]]|]; cbn; split; intros H;
    try discriminate; injection H as <-; reflexivity.
Qed.

Lemma parse_error_iff s d :
  parse s d = parsy.ParseError <->
  ty d s = None \/ exists v r, ty d s = Some (v, r) /\ r <> [].
Proof.
  unfold parse, parsy.parse, parsy.skip, parsy.bind, parsy.map, parsy.eof.
  destruct (ty d s) as [[v1 [|x r1]]|]; cbn; split; intros H;
    try discriminate; try reflexivity.
  - destruct H as [H|(v & r & H & Hr)]; [discriminate|].
    injection H as <- <-. now elim Hr.
  - right. exists v1, (x :: r1). split; [reflexivity | discriminate].
  - now left.
Qed.

(** The unsuffixed alternative of [ty]. *)
Lemma ty_of_non_pg_array_type d s v :
  non_pg_array_type d (ty d) s = Some (v, []) -> ty d s = Some (v, []).
Proof.
  intros H. rewrite ty_unfold.
  unfold ty_body, pg_array, parsy.at_least1, parsy.or_, parsy.bind.
  now rewrite H, brackets_nil.
Qed.

(** ** Numbers *)

Lemma digit_not_space x : is_digit x = true -> is_space x = false.
Proof. each_char x. Qed.

Lemma NUMBER_run ds x tl :
  digits ds -> ds <> [] -> is_digit x = false ->
  NUMBER (ds ++ x :: tl) = Some (int ds, strip (x :: tl)).
Proof.
  intros Hd Hne Hx. unfold NUMBER. rewrite spaceless_eq.
  destruct ds as [|y ds]; [now elim Hne|].
  cbn [app]. rewrite strip_cons
    by (apply digit_not_space; now inversion Hd).
  change (y :: ds ++ x :: tl) with ((y :: ds) ++ x :: tl).
  now rewrite (span_run is_digit (y :: ds) x tl Hd Hx).
Qed.

Lemma NUMBER_none x tl :
  is_digit x = false -> is_space x = false -> NUMBER (x :: tl) = None.
Proof.
  intros Hd Hs. unfold NUMBER. rewrite spaceless_eq, strip_cons by exact Hs.
  simpl. now rewrite Hd.
Qed.

Lemma LPAREN_step tl : LPAREN ("("%char :: tl) = Some (["("%char], strip tl).
Proof.
  unfold LPAREN. rewrite (punct_eq "(") by reflexivity.
  now rewrite strip_cons by reflexivity.
Qed.

Lemma COMMA_step tl : COMMA (","%char :: tl) = Some ([","%char], strip tl).
Proof.
  unfold COMMA. rewrite (punct_eq ",") by reflexivity.
  now rewrite strip_cons by reflexivity.
Qed.

Lemma RPAREN_step tl : RPAREN (")"%char :: tl) = Some ([")"%char], strip tl).
Proof.
  unfold RPAREN. rewrite (punct_eq ")") by reflexivity.
  now rewrite strip_cons by reflexivity.
Qed.

Lemma strip_digits ds tl :
  digits ds -> ds <> [] -> strip (ds ++ tl) = ds ++ tl.
Proof.
  intros Hd Hne. destruct ds as [|y ds]; [now elim Hne|].
  cbn [app]. apply strip_cons, digit_not_space. now inversion Hd.
Qed.

(** The parenthesized parameters, written without whitespace. *)
Lemma group_complete ds1 ds2 tl :
  digits ds1 -> ds1 <> [] -> digits ds2 -> ds2 <> [] ->
  prec_scale_group ("("%char :: ds1 ++ ","%char :: ds2 ++ ")"%char :: tl)
  = Some ((int ds1, int ds2), strip tl).
Proof.
  intros H1 N1 H2 N2.
  unfold prec_scale_group, parsy.skip, parsy.then_, parsy.bind, parsy.map,
    parsy.success, PRECISION, SCALE.
  rewrite LPAREN_step, strip_digits by assumption.
  rewrite (NUMBER_run ds1 "," _ H1 N1 eq_refl).
  rewrite strip_cons by reflexivity.
  rewrite COMMA_step, strip_digits by assumption.
  rewrite (NUMBER_run ds2 ")" _ H2 N2 eq_refl).
  rewrite strip_cons by reflexivity.
  now rewrite RPAREN_step.
Qed.

(** Parameters that stop after the precision, or after the comma. *)
Lemma group_partial ds tl :
  digits ds ->
  prec_scale_group ("("%char :: ds ++ ")"%char :: tl) = None /\
  prec_scale_group ("("%char :: ds ++ ","%char :: ")"%char :: tl) = None.
Proof.
  intros Hd.
  unfold prec_scale_group, parsy.skip, parsy.then_, parsy.bind, parsy.map,
    parsy.success, PRECISION, SCALE.
  rewrite !LPAREN_step.
  destruct ds as [|y ds].
  - cbn [app]. rewrite !strip_cons by reflexivity.
    now rewrite !NUMBER_none by reflexivity.
  - rewrite !strip_digits by (assumption || discriminate).
    rewrite (NUMBER_run (y :: ds) ")" _ Hd ltac:(discriminate) eq_refl).
    rewrite (NUMBER_run (y :: ds) "," _ Hd ltac:(discriminate) eq_refl).
    rewrite !strip_cons by reflexivity.
    unfold COMMA at 1. rewrite (punct_eq ",") by reflexivity.
    rewrite strip_cons by reflexivity.
    change (Ascii.eqb ")" ",") with false. cbv beta iota.
    rewrite COMMA_step, strip_cons by reflexivity.
    now rewrite NUMBER_none by reflexivity.
Qed.

(** [decimal] after its keyword: the parameters are read entirely or not
    at all. *)
Lemma decimal_after_keyword d kw tl :
  In kw ["decimal"; "numeric"]%string ->
  decimal d (T kw ++ "("%char :: tl) =
  match prec_scale_group ("("%char :: tl) with
  | Some ((p, s), r) => Some (dt.Decimal p s, r)
  | None => Some (dt.Decimal (fst d) (snd d), "("%char :: tl)
  end.
Proof.
  intros [<-|[<-|[]]]; rewrite decimal_eq; unfold parsy.bind, parsy.optional.
  - replace (spaceless_string ["decimal"; "numeric"]%string _)
      with (Some (T "decimal", "("%char :: tl)) by (vm_compute; reflexivity).
    destruct (prec_scale_group _) as [[[p s] r]|];
      [reflexivity | now destruct d].
  - replace (spaceless_string ["decimal"; "numeric"]%string _)
      with (Some (T "numeric", "("%char :: tl)) by (vm_compute; reflexivity).
    destruct (prec_scale_group _) as [[[p s] r]|];
      [reflexivity | now destruct d].
Qed.

(** ** Parsers built from parsers that respect a change of the input *)

Section Respects.

Variable f : text -> text.

Lemma respects_success {A} (v : A) : respects f (parsy.success v).
Proof. intros s. reflexivity. Qed.

Lemma respects_fail {A} : respects f (@parsy.fail A).
Proof. intros s. reflexivity. Qed.

Lemma respects_bind {A B} (p : parsy.parser A) (k : A -> parsy.parser B) :
  respects f p -> (forall v, respects f (k v)) -> respects f (parsy.bind p k).
Proof.
  intros Hp Hk s. unfold parsy.bind. rewrite Hp.
  destruct (p s) as [[v r]|]; [apply Hk | reflexivity].
Qed.

Lemma respects_map {A B} (g : A -> B) (p : parsy.parser A) :
  respects f p -> respects f (parsy.map g p).
Proof.
  intros Hp s. unfold parsy.map. rewrite Hp.
  now destruct (p s) as [[v r]|].
Qed.

Lemma respects_or {A} (p q : parsy.parser A) :
  respects f p -> respects f q -> respects f (parsy.or_ p q).
Proof.
  intros Hp Hq s. unfold parsy.or_. rewrite Hp.
  destruct (p s) as [[v r]|]; [reflexivity | apply Hq].
Qed.

Lemma respects_alt {A} (ps : list (parsy.parser A)) :
  Forall (respects f) ps -> respects f (parsy.alt ps).
Proof.
  induction 1 as [|p ps Hp _ IH]; simpl;
    [apply respects_fail | now apply respects_or].
Qed.

Lemma respects_optional {A} (p : parsy.parser A) :
  respects f p -> respects f (parsy.optional p).
Proof.
  intros Hp s. unfold parsy.optional. rewrite Hp.
  now destruct (p s) as [[v r]|].
Qed.

Lemma respects_many {A} (p : parsy.parser A) :
  consuming p -> respects f p -> respects f (parsy.many p).
Proof.
  intros Hc Hp s. remember (length s) as n eqn:Hn.
  assert (Hle : length s <= n) by lia. clear Hn. revert s Hle.
  induction n as [|n IH]; intros s Hle; rewrite !many_unfold by exact Hc;
    rewrite Hp; (destruct (p s) as [[v r]|] eqn:E; [|reflexivity]);
    apply Hc in E.
  - lia.
  - cbn [on_rest]. unfold parsy.map. rewrite IH by lia.
    now destruct (parsy.many p r) as [[vs r']|].
Qed.

Lemma respects_at_least1 {A} (p : parsy.parser A) :
  consuming p -> respects f p -> respects f (parsy.at_least1 p).
Proof.
  intros Hc Hp. apply respects_bind; [exact Hp|].
  intros v. now apply respects_map, respects_many.
Qed.

Lemma respects_sep_by {A B} (p : parsy.parser A) (sep : parsy.parser B) :
  consuming p -> nonincr sep -> respects f p -> respects f sep ->
  respects f (parsy.sep_by p sep).
Proof.
  intros Hc Hn Hp Hs. apply respects_or; [|apply respects_success].
  apply respects_bind; [exact Hp|].
  intros v. apply respects_map, respects_many.
  - intros s x r. unfold parsy.then_, parsy.bind.
    destruct (sep s) as [[y r1]|] eqn:E; [|discriminate].
    intros E2. apply Hn in E. apply Hc in E2. lia.
  - apply respects_bind; [exact Hs | intros _; exact Hp].
Qed.

(** The grammar respects a change that its atoms respect. *)
Section Atoms.

Hypothesis respects_keyword :
  forall names, forallb solid (keywords names) = true ->
                respects f (spaceless_string names).
Hypothesis respects_NUMBER : respects f NUMBER.
Hypothesis respects_field : respects f field.
Hypothesis strip_f : forall s, strip (f s) = f (strip s).
Hypothesis length_f : forall s, length s <= length (f s).

Lemma respects_spaceless {A} (p : parsy.parser A) :
  respects f p -> respects f (spaceless p).
Proof.
  intros Hp s. rewrite !spaceless_eq, strip_f, Hp.
  destruct (p (strip s)) as [[v r]|]; [|reflexivity].
  cbn [on_rest]. now rewrite strip_f.
Qed.

Lemma respects_punct x :
  is_punct x = true -> respects f (spaceless_string [String x EmptyString]).
Proof.
  intros Hx. apply respects_keyword. unfold is_punct in Hx. simpl in Hx.
  repeat (apply orb_true_iff in Hx as [Hx|Hx];
          [apply Ascii.eqb_eq in Hx; subst x; reflexivity|]).
  discriminate.
Qed.

Lemma respects_table tbl :
  solid_table tbl = true ->
  respects f
    (parsy.alt
       (List.map
          (fun '(names, v) => parsy.result_ (spaceless_string names) v)
          tbl)).
Proof.
  intros H. apply respects_alt.
  induction tbl as [|[names v] tbl IH]; simpl; constructor.
  - apply respects_map, respects_keyword.
    simpl in H. now apply andb_true_iff in H as [H _].
  - apply IH. simpl in H. now apply andb_true_iff in H as [_ H].
Qed.

Lemma respects_primitive : respects f primitive.
Proof. apply respects_table. reflexivity. Qed.

Lemma respects_brackets : respects f brackets.
Proof.
  apply respects_bind;
    [apply respects_spaceless, respects_punct; reflexivity|].
  intros _. apply respects_bind;
    [apply respects_spaceless, respects_punct; reflexivity|].
  intros _. apply respects_success.
Qed.

Lemma respects_group : respects f prec_scale_group.
Proof.
  apply respects_bind.
  - apply respects_bind; [apply respects_punct; reflexivity|].
    intros _. apply respects_bind.
    + apply respects_bind; [exact respects_NUMBER|].
      intros v. apply respects_map, respects_punct. reflexivity.
    + intros prec. apply respects_bind; [exact respects_NUMBER|].
      intros sc. apply respects_success.
  - intros v. apply respects_map, respects_punct. reflexivity.
Qed.

Lemma respects_decimal d : respects f (decimal d).
Proof.
  rewrite decimal_eq. apply respects_bind;
    [apply respects_keyword; reflexivity|].
  intros _. apply respects_bind;
    [apply respects_optional, respects_group|].
  intros [[p s]|]; [|destruct d]; apply respects_success.
Qed.

Section Nested.

Variable d : Z * Z.
Variable rec : parsy.parser DataType.
Hypothesis rec_nonincr : nonincr rec.
Hypothesis rec_respects : respects f rec.

Lemma respects_item : respects f (item rec).
Proof.
  apply respects_bind; [exact respects_field|].
  intros name. apply respects_bind; [exact rec_respects|].
  intros t. apply respects_success.
Qed.

Lemma respects_map_production : respects f (map rec).
Proof.
  apply respects_bind; [apply respects_keyword; reflexivity|].
  intros _. apply respects_bind; [apply respects_punct; reflexivity|].
  intros _. apply respects_bind; [apply respects_primitive|].
  intros k. apply respects_bind; [apply respects_punct; reflexivity|].
  intros _. apply respects_bind; [exact rec_respects|].
  intros v. apply respects_bind; [apply respects_punct; reflexivity|].
  intros _. apply respects_success.
Qed.

Lemma respects_struct : respects f (struct rec).
Proof.
  rewrite struct_item.
  apply respects_bind; [apply respects_keyword; reflexivity|].
  intros _. apply respects_bind; [apply respects_punct; reflexivity|].
  intros _. apply respects_bind.
  - apply respects_sep_by.
    + apply consuming_item, rec_nonincr.
    + apply consuming_nonincr, consuming_punct.
    + apply respects_item.
    + apply respects_punct. reflexivity.
  - intros fs. apply respects_bind; [apply respects_punct; reflexivity|].
    intros _. apply respects_success.
Qed.

Lemma respects_non_pg_array_type : respects f (non_pg_array_type d rec).
Proof.
  apply respects_or; [apply respects_or; [apply respects_or|]|].
  - apply respects_primitive.
  - apply respects_decimal.
  - apply respects_map_production.
  - apply respects_struct.
Qed.

Lemma respects_ty_body : respects f (ty_body d rec).
Proof.
  apply respects_or; [|apply respects_non_pg_array_type].
  apply respects_bind; [apply respects_non_pg_array_type|].
  intros v. apply respects_bind.
  - apply respects_at_least1; [apply consuming_brackets|].
    apply respects_brackets.
  - intros bs. apply respects_success.
Qed.

End Nested.

Lemma respects_ty_fuel d n : respects f (ty_fuel d n).
Proof.
  induction n as [|n IH]; simpl; apply respects_ty_body.
  - apply nonincr_fail.
  - apply respects_fail.
  - apply consuming_nonincr, consuming_ty_fuel.
  - exact IH.
Qed.

Lemma respects_ty d : respects f (ty d).
Proof.
  intros s. unfold ty at 1. rewrite respects_ty_fuel.
  now rewrite ty_at_fuel by apply length_f.
Qed.

End Atoms.

End Respects.

(** ** Whitespace at the end of the input *)

Section Padding.

Variable ws : text.
Hypothesis ws_blank : blank ws.

Lemma strip_blank : strip ws = [].
Proof. unfold strip. now rewrite (span_run_end is_space ws ws_blank). Qed.

Lemma strip_app_blank s : strip (s ++ ws) = pad ws (strip s).
Proof.
  induction s as [|x s IH]; [exact strip_blank|].
  destruct (is_space x) eqn:E.
  - unfold strip in *. cbn [app]. simpl. rewrite E.
    destruct (span is_space (s ++ ws)), (span is_space s). exact IH.
  - rewrite (strip_cons x s E). cbn [app]. now rewrite strip_cons.
Qed.

Lemma strip_pad s : strip (pad ws s) = pad ws (strip s).
Proof. destruct s; [reflexivity | apply strip_app_blank]. Qed.

Lemma length_pad s : length s <= length (pad ws s).
Proof. destruct s; simpl; [lia|]. rewrite length_app. lia. Qed.

Lemma span_app_blank g s :
  (forall x, is_space x = true -> g x = false) ->
  span g (s ++ ws) = (fst (span g s), snd (span g s) ++ ws).
Proof.
  intros H. destruct ws_blank as [|w ws' Hw _].
  - rewrite !app_nil_r. now destruct (span g s).
  - apply span_append, H, Hw.
Qed.

Lemma match_kw_blank k :
  solid k = true -> forall b, blank b -> match_kw k b = None.
Proof.
  induction k as [|x k IH]; [discriminate|].
  intros Hk b Hb. destruct b as [|w b]; [reflexivity|]. simpl.
  destruct (Ascii.eqb (lower_char w) (lower_char x)) eqn:E; [|reflexivity].
  destruct k as [|y k].
  - simpl in Hk. apply Ascii.eqb_eq in E.
    pose proof (is_space_lower w) as H1. pose proof (is_space_lower x) as H2.
    rewrite E, H2 in H1. inversion Hb as [|? ? Hw _]; subst.
    rewrite Hw in H1. rewrite H1 in Hk. discriminate.
  - apply IH; [exact Hk | now inversion Hb].
Qed.

Lemma match_kw_pad k :
  solid k = true ->
  forall s, match_kw k (s ++ ws) = option_map (fun r => r ++ ws) (match_kw k s).
Proof.
  intros Hk s. revert k Hk. induction s as [|y s IH]; intros k Hk.
  - cbn [app]. rewrite (match_kw_blank k Hk ws ws_blank). now destruct k.
  - destruct k as [|x k]; [discriminate|]. cbn [app]. simpl.
    destruct (Ascii.eqb (lower_char y) (lower_char x)); [|reflexivity].
    destruct k as [|x' k]; [reflexivity|]. now apply IH.
Qed.

Lemma stable_raw_strings_blank names :
  forallb solid names = true -> stable ws (raw_strings names).
Proof.
  unfold raw_strings.
  induction names as [|k names IH]; intros H s; simpl; [reflexivity|].
  simpl in H. apply andb_true_iff in H as [Hk H].
  unfold parsy.or_. rewrite !string_match_kw, (match_kw_pad k Hk).
  destruct (match_kw k s); [reflexivity|]. now apply IH.
Qed.

Lemma raw_strings_nil names :
  forallb solid names = true -> raw_strings names [] = None.
Proof.
  unfold raw_strings.
  induction names as [|k names IH]; intros H; simpl; [reflexivity|].
  simpl in H. apply andb_true_iff in H as [Hk H].
  unfold parsy.or_. rewrite string_match_kw.
  destruct k; [discriminate|]. now apply IH.
Qed.

(** An atom between two runs of whitespace takes the added whitespace
    into the run after it. *)
Lemma respects_pad_spaceless {A} (p : parsy.parser A) :
  stable ws p -> p [] = None -> respects (pad ws) (spaceless p).
Proof.
  intros Hp Hnil s. rewrite !spaceless_eq, strip_pad.
  destruct (strip s) as [|x r]; simpl; [now rewrite Hnil|].
  change (x :: r ++ ws) with ((x :: r) ++ ws). rewrite Hp.
  destruct (p (x :: r)) as [[v r']|]; [|reflexivity].
  cbn [on_rest]. now rewrite strip_app_blank.
Qed.

Lemma respects_pad_keyword names :
  forallb solid (keywords names) = true ->
  respects (pad ws) (spaceless_string names).
Proof.
  intros H. unfold keywords in H.
  pose proof (stable_raw_strings_blank _ H) as H1.
  pose proof (raw_strings_nil _ H) as H2.
  unfold raw_strings in H1, H2. rewrite List.map_map in H1, H2.
  now apply respects_pad_spaceless.
Qed.

Lemma respects_pad_NUMBER : respects (pad ws) NUMBER.
Proof.
  apply respects_pad_spaceless; [|reflexivity].
  intros s. rewrite (span_app_blank is_digit s space_not_digit).
  destruct (span is_digit s) as [[|x ds] r]; reflexivity.
Qed.

Lemma respects_pad_field : respects (pad ws) field.
Proof.
  apply respects_pad_spaceless; [|reflexivity].
  intros s. unfold FIELD. destruct s as [|y s]; simpl.
  - destruct ws_blank as [|w ws' Hw _]; [reflexivity|]. simpl.
    destruct (is_ident_start w) eqn:E; [|reflexivity].
    apply ident_start_char in E. apply space_not_ident in Hw. congruence.
  - destruct (is_ident_start y); [|reflexivity].
    rewrite (span_app_blank is_ident_char s space_not_ident).
    now destruct (span is_ident_char s).
Qed.

(** Whitespace after a text changes nothing to what [ty] does with it. *)
Lemma respects_pad_ty d : respects (pad ws) (ty d).
Proof.
  apply respects_ty.
  - exact respects_pad_keyword.
  - exact respects_pad_NUMBER.
  - exact respects_pad_field.
  - exact strip_pad.
  - exact length_pad.
Qed.

End Padding.

(** ** Whitespace before a type *)

Lemma lead_spaceless {A} (p : parsy.parser A) : lead (spaceless p).
Proof. intros s. now rewrite !spaceless_eq, strip_idem. Qed.

Lemma lead_bind {A B} (p : parsy.parser A) (k : A -> parsy.parser B) :
  lead p -> lead (parsy.bind p k).
Proof. intros H s. unfold parsy.bind. now rewrite H. Qed.

Lemma lead_map {A B} (g : A -> B) (p : parsy.parser A) :
  lead p -> lead (parsy.map g p).
Proof. intros H s. unfold parsy.map. now rewrite H. Qed.

Lemma lead_or {A} (p q : parsy.parser A) :
  lead p -> lead q -> lead (parsy.or_ p q).
Proof. intros Hp Hq s. unfold parsy.or_. now rewrite Hp, Hq. Qed.

Lemma lead_alt {A} (ps : list (parsy.parser A)) :
  Forall lead ps -> lead (parsy.alt ps).
Proof.
  induction 1 as [|p ps Hp _ IH]; simpl;
    [intros s; reflexivity | now apply lead_or].
Qed.

Lemma lead_primitive : lead primitive.
Proof.
  apply lead_alt. unfold primitive_table.
  repeat (constructor; [apply lead_map, lead_spaceless|]). constructor.
Qed.

Lemma lead_non_pg_array_type d rec : lead (non_pg_array_type d rec).
Proof.
  apply lead_or; [apply lead_or; [apply lead_or|]|].
  - apply lead_primitive.
  - apply lead_bind, lead_spaceless.
  - apply lead_bind, lead_spaceless.
  - apply lead_bind, lead_spaceless.
Qed.

Lemma lead_ty_body d rec : lead (ty_body d rec).
Proof.
  apply lead_or; [|apply lead_non_pg_array_type].
  apply lead_bind, lead_non_pg_array_type.
Qed.

Lemma lead_ty d : lead (ty d).
Proof.
  intros s. rewrite !ty_unfold. apply lead_ty_body.
Qed.

Lemma ty_blank d ws : blank ws -> ty d ws = None.
Proof.
  intros H. rewrite <- lead_ty, (strip_blank ws H). reflexivity.
Qed.

(** ** What the productions return *)

Lemma yields_success {A} (P : A -> Prop) v : P v -> yields P (parsy.success v).
Proof. intros H s v' r E. now injection E as <- _. Qed.

Lemma yields_fail {A} (P : A -> Prop) : yields P parsy.fail.
Proof. intros s v r E. discriminate. Qed.

Lemma yields_bind {A B} (Q : A -> Prop) (P : B -> Prop)
  (p : parsy.parser A) (k : A -> parsy.parser B) :
  yields Q p -> (forall v, Q v -> yields P (k v)) -> yields P (parsy.bind p k).
Proof.
  intros Hp Hk s v r. unfold parsy.bind.
  destruct (p s) as [[v1 r1]|] eqn:E; [|discriminate].
  apply Hk. now apply Hp in E.
Qed.

Lemma yields_true {A} (p : parsy.parser A) : yields (fun _ => True) p.
Proof. intros s v r _. exact I. Qed.

Lemma yields_map {A B} (Q : A -> Prop) (P : B -> Prop) (g : A -> B)
  (p : parsy.parser A) :
  yields Q p -> (forall v, Q v -> P (g v)) -> yields P (parsy.map g p).
Proof.
  intros Hp Hg s v r. unfold parsy.map.
  destruct (p s) as [[v1 r1]|] eqn:E; [|discriminate].
  intros E2. injection E2 as <- _. apply Hg. now apply Hp in E.
Qed.

Lemma yields_or {A} (P : A -> Prop) (p q : parsy.parser A) :
  yields P p -> yields P q -> yields P (parsy.or_ p q).
Proof.
  intros Hp Hq s v r. unfold parsy.or_.
  destruct (p s) as [[v1 r1]|] eqn:E; [|apply Hq].
  intros E2. injection E2 as <- _. now apply Hp in E.
Qed.

Lemma yields_many {A} (Q : A -> Prop) (p : parsy.parser A) :
  yields Q p -> yields (Forall Q) (parsy.many p).
Proof.
  intros Hp.
  assert (H : forall n s, Forall Q (fst (parsy.many_loop n p s))).
  { induction n as [|n IH]; intros s; simpl; [constructor|].
    destruct (p s) as [[v1 r1]|] eqn:E1; [|constructor].
    specialize (IH r1). destruct (parsy.many_loop n p r1); simpl in *.
    constructor; [now apply Hp in E1 | exact IH]. }
  intros s v r E. unfold parsy.many in E. injection E as E.
  specialize (H (length s) s). now rewrite E in H.
Qed.

Lemma yields_table tbl :
  yields (fun v : DataType => In v (List.map snd tbl))
    (parsy.alt
       (List.map
          (fun '(names, v) => parsy.result_ (spaceless_string names) v)
          tbl)).
Proof.
  induction tbl as [|[names v] tbl IH]; simpl; [apply yields_fail|].
  apply yields_or.
  - apply (yields_map (fun _ => True)); [apply yields_true|]. now left.
  - intros s v' r E. right. now apply IH in E.
Qed.

Lemma yields_primitive : yields is_primitive_value primitive.
Proof. apply yields_table. Qed.

Lemma keys_iterate n v :
  map_keys_primitive v -> map_keys_primitive (nth_iterate n dt.Array v).
Proof.
  intros H. induction n as [|n IH]; [exact H|]. simpl. now apply keys_array.
Qed.

Section Keys.

Variable d : Z * Z.
Variable rec : parsy.parser DataType.
Hypothesis rec_keys : yields map_keys_primitive rec.

Lemma yields_decimal : yields map_keys_primitive (decimal d).
Proof.
  rewrite decimal_eq. apply (yields_bind (fun _ => True));
    [apply yields_true|].
  intros _ _. apply (yields_bind (fun _ => True)); [apply yields_true|].
  intros [[p s]|] _; [|destruct d]; apply yields_success, keys_decimal.
Qed.

Lemma yields_map_production : yields map_keys_primitive (map rec).
Proof.
  apply (yields_bind (fun _ => True)); [apply yields_true|].
  intros _ _. apply (yields_bind (fun _ => True)); [apply yields_true|].
  intros _ _. apply (yields_bind is_primitive_value);
    [apply yields_primitive|].
  intros k Hk. apply (yields_bind (fun _ => True)); [apply yields_true|].
  intros _ _. apply (yields_bind map_keys_primitive); [exact rec_keys|].
  intros v Hv. apply (yields_bind (fun _ => True)); [apply yields_true|].
  intros _ _. apply yields_success. now apply keys_map.
Qed.

Lemma yields_item : yields (fun f => map_keys_primitive (snd f)) (item rec).
Proof.
  apply (yields_bind (fun _ => True)); [apply yields_true|].
  intros name _. apply (yields_bind map_keys_primitive); [exact rec_keys|].
  intros v Hv. now apply yields_success.
Qed.

Lemma yields_struct : yields map_keys_primitive (struct rec).
Proof.
  rewrite struct_item.
  apply (yields_bind (fun _ => True)); [apply yields_true|].
  intros _ _. apply (yields_bind (fun _ => True)); [apply yields_true|].
  intros _ _.
  apply (yields_bind (Forall (fun f => map_keys_primitive (snd f)))).
  - apply yields_or; [|apply yields_success; constructor].
    apply (yields_bind (fun f => map_keys_primitive (snd f)));
      [apply yields_item|].
    intros f Hf.
    apply (yields_map (Forall (fun f => map_keys_primitive (snd f)))).
    + apply yields_many.
      apply (yields_bind (fun _ => True)); [apply yields_true|].
      intros _ _. apply yields_item.
    + intros fs Hfs. now constructor.
  - intros fs Hfs. apply (yields_bind (fun _ => True)); [apply yields_true|].
    intros _ _. apply yields_success. now apply keys_struct.
Qed.

Lemma yields_non_pg_array_type :
  yields map_keys_primitive (non_pg_array_type d rec).
Proof.
  apply yields_or; [apply yields_or; [apply yields_or|]|].
  - intros s v r E. apply keys_primitive. now apply yields_primitive in E.
  - apply yields_decimal.
  - apply yields_map_production.
  - apply yields_struct.
Qed.

Lemma yields_ty_body : yields map_keys_primitive (ty_body d rec).
Proof.
  apply yields_or; [|apply yields_non_pg_array_type].
  apply (yields_bind map_keys_primitive); [apply yields_non_pg_array_type|].
  intros v Hv. apply (yields_bind (fun _ => True)); [apply yields_true|].
  intros bs _. apply yields_success. now apply keys_iterate.
Qed.

End Keys.

Lemma yields_ty_fuel d n : yields map_keys_primitive (ty_fuel d n).
Proof.
  induction n as [|n IH]; simpl; apply yields_ty_body;
    [apply yields_fail | exact IH].
Qed.

(** Whatever [ty] returns, its map keys are primitive values. *)
Lemma yields_ty d : yields map_keys_primitive (ty d).
Proof. intros s v r E. unfold ty in E. now apply yields_ty_fuel in E. Qed.

Lemma primitive_value_not_composite v :
  is_primitive_value v -> ~ is_composite v.
Proof.
  unfold is_primitive_value, primitive_table. simpl.
  intros H. repeat (destruct H as [<-|H]; [intros []|]). destruct H.
Qed.

(** ** Letter case *)

Lemma match_kw_lower k :
  forall s, match_kw k (lower s) = option_map lower (match_kw k s).
Proof.
  induction k as [|x k IH]; intros s; [reflexivity|].
  destruct s as [|y s]; [reflexivity|]. simpl.
  rewrite lower_char_idem.
  destruct (Ascii.eqb (lower_char y) (lower_char x)); [apply IH|reflexivity].
Qed.

Lemma respects_lower_raw names : respects lower (raw_strings names).
Proof.
  unfold raw_strings.
  induction names as [|k names IH]; intros s; simpl; [reflexivity|].
  unfold parsy.or_. rewrite !string_match_kw, match_kw_lower.
  destruct (match_kw k s); [reflexivity | apply IH].
Qed.

Lemma respects_lower_keyword names : respects lower (spaceless_string names).
Proof.
  intros s. rewrite !spaceless_string_eq, strip_lower, respects_lower_raw.
  destruct (raw_strings _ (strip s)) as [[v r]|]; [|reflexivity].
  cbn [on_rest]. now rewrite strip_lower.
Qed.

(** [primitive] does not see the case of the letters. *)
Lemma respects_lower_primitive : respects lower primitive.
Proof.
  apply respects_primitive. intros names _. apply respects_lower_keyword.
Qed.

(** Every alias of the table, as written there, is matched entirely by
    [primitive] with the value of its group. *)
Lemma primitive_table_sound :
  Forall (fun e =>
            Forall (fun a => lower (T a) = T a /\
                             primitive (T a) = Some (snd e, []))
              (fst e))
    primitive_table.
Proof.
  unfold primitive_table.
  repeat (constructor;
          [repeat (constructor; [split; vm_compute; reflexivity|]);
           constructor|]).
  constructor.
Qed.

Lemma primitive_any_case names v alias s :
  In (names, v) primitive_table -> In alias names -> lower s = T alias ->
  primitive s = Some (v, []).
Proof.
  intros Hg Ha Hs.
  pose proof primitive_table_sound as H.
  rewrite Forall_forall in H. specialize (H _ Hg). cbn [fst snd] in H.
  rewrite Forall_forall in H. destruct (H _ Ha) as [_ E].
  rewrite <- Hs, respects_lower_primitive in E.
  destruct (primitive s) as [[v' r]|]; [|discriminate].
  cbn [on_rest] in E. injection E as <- E. now destruct r.
Qed.

(** ** Types inside a struct or a map *)

Lemma ident_start_not_space x : is_ident_start x = true -> is_space x = false.
Proof. each_char x. Qed.

Lemma strip_space x s : is_space x = true -> strip (x :: s) = strip s.
Proof.
  intros H. unfold strip. simpl. rewrite H.
  now destruct (span is_space s).
Qed.

Lemma strip_identifier n rest :
  identifier n -> strip (n ++ rest) = n ++ rest.
Proof.
  destruct n as [|x m]; [intros []|]. intros [Hx _].
  cbn [app]. now apply strip_cons, ident_start_not_space.
Qed.

Lemma field_step n rest :
  identifier n ->
  field (n ++ " "%char :: rest) = Some (string_of_list_ascii n, strip rest).
Proof.
  intros Hn. unfold field. rewrite spaceless_eq, strip_identifier by exact Hn.
  destruct n as [|x m]; [destruct Hn|]. destruct Hn as [Hx Hm].
  cbn [app]. unfold FIELD. rewrite Hx.
  rewrite (span_run is_ident_char m " " rest Hm eq_refl).
  now rewrite strip_space by reflexivity.
Qed.

(** A type that is read entirely is read the same before a comma or a
    closing parenthesis. *)
Lemma ty_closed d t v c tl :
  ty d t = Some (v, []) -> c = ","%char \/ c = ")"%char ->
  ty d (strip (t ++ c :: tl)) = Some (v, c :: tl).
Proof.
  intros E Hc. rewrite lead_ty.
  assert (H : is_space c = false /\ is_ident_char c = false /\
              c <> "("%char /\ c <> "["%char)
    by (destruct Hc as [-> | ->]; repeat split; discriminate).
  destruct H as (H1 & H2 & H3 & H4).
  apply (ty_extends c tl H1 H2 H3 d t v [] E).
  repeat split; try discriminate. intros _. exact H4.
Qed.

Lemma item_step d f c tl :
  well_typed d f -> c = ","%char \/ c = ")"%char ->
  item (ty d) (pair_text f ++ c :: tl) = Some (struct_field f, c :: tl).
Proof.
  intros [Hn Ht] Hc. apply parse_ok_iff in Ht.
  unfold item, parsy.bind, pair_text. rewrite <- app_assoc. cbn [app].
  rewrite (field_step _ _ Hn).
  now rewrite (ty_closed d _ _ c tl Ht Hc).
Qed.

Lemma strip_pair_text d f rest :
  well_typed d f -> strip (pair_text f ++ rest) = pair_text f ++ rest.
Proof.
  intros [Hn _]. unfold pair_text. rewrite <- app_assoc.
  now apply strip_identifier.
Qed.

Lemma more_pairs_head fs tl :
  exists c tl', more_pairs fs ++ ")"%char :: tl = c :: tl' /\
                (c = ","%char \/ c = ")"%char).
Proof.
  destruct fs as [|f fs]; simpl.
  - exists ")"%char, tl. now split; [|right].
  - eexists ","%char, _. split; [reflexivity | now left].
Qed.

Lemma more_pairs_loop d fs tl :
  Forall (well_typed d) fs ->
  parsy.many (parsy.then_ COMMA (item (ty d))) (more_pairs fs ++ ")"%char :: tl)
  = Some (List.map struct_field fs, ")"%char :: tl).
Proof.
  assert (Hc : consuming (parsy.then_ COMMA (item (ty d))))
    by apply consuming_sep_item, consuming_nonincr, consuming_ty.
  induction 1 as [|f fs Hf _ IH]; rewrite many_unfold by exact Hc.
  - cbn [more_pairs flat_map app]. unfold parsy.then_, parsy.bind, COMMA.
    rewrite (punct_none ","); [reflexivity | reflexivity |].
    unfold next_char. rewrite strip_cons by reflexivity. discriminate.
  - cbn [more_pairs flat_map]. fold (more_pairs fs).
    rewrite <- !app_assoc. cbn [app].
    unfold parsy.then_ at 1. unfold parsy.bind at 1.
    rewrite COMMA_step, (strip_pair_text d f _ Hf).
    destruct (more_pairs_head fs tl) as (c & tl' & E & Hcl). rewrite E in *.
    rewrite (item_step d f c tl' Hf Hcl).
    unfold parsy.map. now rewrite IH.
Qed.

Lemma sep_by_empty rec s :
  next_char s = Some ")"%char ->
  parsy.sep_by (item rec) COMMA s = Some ([], s).
Proof.
  intros H. unfold parsy.sep_by, parsy.or_, item at 1. unfold parsy.bind.
  now rewrite (field_none s H).
Qed.

Lemma sep_by_step rec s f r fs r' :
  item rec s = Some (f, r) ->
  parsy.many (parsy.then_ COMMA (item rec)) r = Some (fs, r') ->
  parsy.sep_by (item rec) COMMA s = Some (f :: fs, r').
Proof.
  intros E1 E2. unfold parsy.sep_by, parsy.or_, parsy.bind, parsy.map.
  now rewrite E1, E2.
Qed.

Lemma struct_step d fs tl :
  Forall (well_typed d) fs ->
  struct (ty d) (T "struct(" ++ struct_body fs ++ ")"%char :: tl)
  = Some (dt.Struct (List.map struct_field fs), strip tl).
Proof.
  intros Hfs. rewrite struct_item. unfold parsy.bind, parsy.success.
  replace (spaceless_string ["struct"%string] _)
    with (Some (T "struct", "("%char :: struct_body fs ++ ")"%char :: tl))
    by (vm_compute; reflexivity).
  rewrite LPAREN_step.
  destruct Hfs as [|f fs Hf Hfs].
  - cbn [struct_body app]. rewrite strip_cons by reflexivity.
    rewrite sep_by_empty
      by (unfold next_char; now rewrite strip_cons by reflexivity).
    now rewrite RPAREN_step.
  - cbn [struct_body]. rewrite <- app_assoc, (strip_pair_text d f _ Hf).
    destruct (more_pairs_head fs tl) as (c & tl' & E & Hcl).
    rewrite (sep_by_step (ty d) _ (struct_field f) (c :: tl')
               (List.map struct_field fs) (")"%char :: tl)).
    + now rewrite RPAREN_step.
    + rewrite E. now apply item_step.
    + rewrite <- E. now apply more_pairs_loop.
Qed.

Lemma map_step d names k alias tv v tl :
  In (names, k) primitive_table -> In alias names ->
  ty d tv = Some (v, []) ->
  map (ty d) (T "map(" ++ T alias ++ ","%char :: tv ++ ")"%char :: tl)
  = Some (dt.Map k v, strip tl).
Proof.
  intros Hg Ha Hv. unfold map, parsy.bind, parsy.success.
  replace (spaceless_string ["map"%string] _)
    with (Some (T "map",
                "("%char :: T alias ++ ","%char :: tv ++ ")"%char :: tl))
    by (vm_compute; reflexivity).
  rewrite LPAREN_step, lead_primitive.
  rewrite (stable_primitive "," _ eq_refl eq_refl).
  pose proof primitive_table_sound as H.
  rewrite Forall_forall in H. specialize (H _ Hg). cbn [fst snd] in H.
  rewrite Forall_forall in H. destruct (H _ Ha) as [_ E]. rewrite E.
  cbn [on_rest app]. rewrite COMMA_step.
  rewrite (ty_closed d tv v ")" tl Hv (or_intror eq_refl)).
  now rewrite RPAREN_step.
Qed.

Lemma non_pg_array_type_decimal d rec kw tl :
  In kw ["decimal"; "numeric"]%string ->
  non_pg_array_type d rec (T kw ++ "("%char :: tl)
  = decimal d (T kw ++ "("%char :: tl).
Proof.
  intros H. unfold non_pg_array_type, parsy.or_.
  replace (primitive (T kw ++ "("%char :: tl)) with (@None (DataType * text))
    by (destruct H as [<-|[<-|[]]]; vm_compute; reflexivity).
  rewrite (decimal_after_keyword d kw tl H).
  now destruct (prec_scale_group _) as [[[p s] r]|].
Qed.

Lemma ty_decimal_partial d kw tl :
  In kw ["decimal"; "numeric"]%string ->
  prec_scale_group ("("%char :: tl) = None ->
  ty d (T kw ++ "("%char :: tl)
  = Some (dt.Decimal (fst d) (snd d), "("%char :: tl).
Proof.
  intros H E. rewrite ty_unfold.
  unfold ty_body, pg_array, parsy.at_least1, parsy.or_, parsy.bind.
  rewrite (non_pg_array_type_decimal d _ kw tl H).
  rewrite (decimal_after_keyword d kw tl H), E.
  rewrite brackets_none; [reflexivity|].
  unfold next_char. rewrite strip_cons by reflexivity. discriminate.
Qed.

Lemma ty_decimal_complete d kw tl p s :
  In kw ["decimal"; "numeric"]%string ->
  prec_scale_group ("("%char :: tl) = Some ((p, s), []) ->
  ty d (T kw ++ "("%char :: tl) = Some (dt.Decimal p s, []).
Proof.
  intros H E. rewrite ty_unfold.
  unfold ty_body, pg_array, parsy.at_least1, parsy.or_, parsy.bind.
  rewrite (non_pg_array_type_decimal d _ kw tl H).
  now rewrite (decimal_after_keyword d kw tl H), E.
Qed.

(** ** The input left over starts with no whitespace *)

Lemma stripped_spaceless {A} (p : parsy.parser A) : stripped (spaceless p).
Proof.
  intros s v r. rewrite spaceless_eq.
  destruct (p (strip s)) as [[v1 r1]|]; [|discriminate].
  intros E. injection E as _ <-. apply strip_idem.
Qed.

Lemma stripped_bind {A B} (p : parsy.parser A) (k : A -> parsy.parser B) :
  (forall v, stripped (k v)) -> stripped (parsy.bind p k).
Proof.
  intros Hk s v r. unfold parsy.bind.
  destruct (p s) as [[v1 r1]|]; [apply Hk | discriminate].
Qed.

Lemma stripped_map {A B} (g : A -> B) (p : parsy.parser A) :
  stripped p -> stripped (parsy.map g p).
Proof.
  intros Hp s v r. unfold parsy.map.
  destruct (p s) as [[v1 r1]|] eqn:E; [|discriminate].
  intros E2. injection E2 as _ <-. now apply Hp in E.
Qed.

Lemma stripped_last {A B} (p : parsy.parser A) (g : A -> B) :
  stripped p -> stripped (parsy.bind p (fun v => parsy.success (g v))).
Proof. intros Hp. now apply (stripped_map g p). Qed.

Lemma stripped_or {A} (p q : parsy.parser A) :
  stripped p -> stripped q -> stripped (parsy.or_ p q).
Proof.
  intros Hp Hq s v r. unfold parsy.or_.
  destruct (p s) as [[v1 r1]|] eqn:E; [|apply Hq].
  intros E2. injection E2 as _ <-. now apply Hp in E.
Qed.

Lemma stripped_alt {A} (ps : list (parsy.parser A)) :
  Forall stripped ps -> stripped (parsy.alt ps).
Proof.
  induction 1 as [|p ps Hp _ IH]; simpl;
    [intros s v r E; discriminate | now apply stripped_or].
Qed.

Lemma stripped_primitive : stripped primitive.
Proof.
  apply stripped_alt. unfold primitive_table.
  repeat (constructor; [apply stripped_map, stripped_spaceless|]).
  constructor.
Qed.

Lemma stripped_many_loop {A} (p : parsy.parser A) n :
  stripped p ->
  forall s, strip s = s ->
            strip (snd (parsy.many_loop n p s)) = snd (parsy.many_loop n p s).
Proof.
  intros Hp. induction n as [|n IH]; intros s Hs; simpl; [exact Hs|].
  destruct (p s) as [[v r]|] eqn:E; [|exact Hs].
  apply Hp in E. specialize (IH r E).
  now destruct (parsy.many_loop n p r).
Qed.

Lemma stripped_decimal d : stripped (decimal d).
Proof.
  intros s v r. rewrite decimal_eq. unfold parsy.bind, parsy.optional.
  destruct (spaceless_string _ s) as [[v1 r1]|] eqn:E1; [|discriminate].
  apply stripped_spaceless in E1.
  destruct (prec_scale_group r1) as [[[p1 s1] r2]|] eqn:E2.
  - intros E. injection E as _ <-. revert E2.
    apply stripped_bind. intros x. apply stripped_map, stripped_spaceless.
  - destruct d. intros E. now injection E as _ <-.
Qed.

Lemma stripped_brackets : stripped brackets.
Proof.
  apply stripped_bind. intros _. apply stripped_last, stripped_spaceless.
Qed.

Lemma stripped_ty_body d rec : stripped (ty_body d rec).
Proof.
  apply stripped_or; [|apply stripped_or; [apply stripped_or;
                                           [apply stripped_or|]|]].
  - apply stripped_bind. intros v0 s v r.
    unfold parsy.at_least1, parsy.bind, parsy.map, parsy.many,
      parsy.success.
    destruct (brackets s) as [[u r1]|] eqn:E1; [|discriminate].
    apply stripped_brackets in E1.
    pose proof (stripped_many_loop brackets (length r1) stripped_brackets
                  r1 E1) as H.
    destruct (parsy.many_loop (length r1) brackets r1) as [bs r2].
    intros E. now injection E as _ <-.
  - apply stripped_primitive.
  - apply stripped_decimal.
  - do 5 (apply stripped_bind; intros ?).
    apply stripped_last, stripped_spaceless.
  - rewrite struct_item. do 3 (apply stripped_bind; intros ?).
    apply stripped_last, stripped_spaceless.
Qed.

(** What [ty] leaves is empty or starts with a character that is no
    whitespace. *)
Lemma stripped_ty d : stripped (ty d).
Proof. intros s v r. rewrite ty_unfold. apply stripped_ty_body. Qed.

(** A bracket-suffixed key: the key is read as the primitive type and the
    comma is not found. *)
Lemma map_array_key d names k alias rest :
  In (names, k) primitive_table -> In alias names ->
  ty d (T "map(" ++ T alias ++ "["%char :: rest) = None.
Proof.
  intros Hg Ha.
  assert (E : non_pg_array_type d (ty d)
                (T "map(" ++ T alias ++ "["%char :: rest) = None).
  { unfold non_pg_array_type, parsy.or_.
    replace (primitive _) with (@None (DataType * text))
      by (vm_compute; reflexivity).
    replace (decimal d _) with (@None (DataType * text))
      by (vm_compute; reflexivity).
    replace (struct (ty d) _) with (@None (DataType * text))
      by (vm_compute; reflexivity).
    unfold map, parsy.bind.
    replace (spaceless_string ["map"%string] _)
      with (Some (T "map", "("%char :: T alias ++ "["%char :: rest))
      by (vm_compute; reflexivity).
    rewrite LPAREN_step, lead_primitive.
    rewrite (stable_primitive "[" _ eq_refl eq_refl).
    pose proof primitive_table_sound as H.
    rewrite Forall_forall in H. specialize (H _ Hg). cbn [fst snd] in H.
    rewrite Forall_forall in H. destruct (H _ Ha) as [_ E]. rewrite E.
    cbn [on_rest app]. unfold COMMA.
    rewrite (punct_none ","); [reflexivity | reflexivity |].
    unfold next_char. rewrite strip_cons by reflexivity. discriminate. }
  rewrite ty_unfold. unfold ty_body, pg_array, parsy.or_, parsy.bind.
  now rewrite E.
Qed.

(** ** What a parser leaves is the end of its input *)

Lemma tails_strip s : exists pre, s = pre ++ strip s.
Proof. exists (fst (span is_space s)). symmetry. apply span_app. Qed.

Lemma tails_match_kw k : forall s r,
  match_kw k s = Some r -> exists pre, s = pre ++ r.
Proof.
  induction k as [|x k IH]; intros s r; simpl.
  - intros E. injection E as <-. now exists [].
  - destruct s as [|y s]; [discriminate|].
    destruct (Ascii.eqb (lower_char y) (lower_char x)); [|discriminate].
    intros E. destruct (IH _ _ E) as [pre ->]. now exists (y :: pre).
Qed.

Lemma tails_success {A} (v : A) : tails (parsy.success v).
Proof. intros s v' r E. injection E as _ <-. now exists []. Qed.

Lemma tails_fail {A} : tails (@parsy.fail A).
Proof. intros s v r E. discriminate. Qed.

Lemma tails_bind {A B} (p : parsy.parser A) (k : A -> parsy.parser B) :
  tails p -> (forall v, tails (k v)) -> tails (parsy.bind p k).
Proof.
  intros Hp Hk s v r. unfold parsy.bind.
  destruct (p s) as [[v1 r1]|] eqn:E; [|discriminate].
  intros E2. destruct (Hp _ _ _ E) as [pre1 ->].
  destruct (Hk _ _ _ _ E2) as [pre2 ->].
  exists (pre1 ++ pre2). now rewrite app_assoc.
Qed.

Lemma tails_map {A B} (g : A -> B) (p : parsy.parser A) :
  tails p -> tails (parsy.map g p).
Proof.
  intros Hp s v r. unfold parsy.map.
  destruct (p s) as [[v1 r1]|] eqn:E; [|discriminate].
  intros E2. injection E2 as _ <-. now apply Hp in E.
Qed.

Lemma tails_or {A} (p q : parsy.parser A) :
  tails p -> tails q -> tails (parsy.or_ p q).
Proof.
  intros Hp Hq s v r. unfold parsy.or_.
  destruct (p s) as [[v1 r1]|] eqn:E; [|apply Hq].
  intros E2. injection E2 as _ <-. now apply Hp in E.
Qed.

Lemma tails_alt {A} (ps : list (parsy.parser A)) :
  Forall tails ps -> tails (parsy.alt ps).
Proof.
  induction 1 as [|p ps Hp _ IH]; simpl;
    [apply tails_fail | now apply tails_or].
Qed.

Lemma tails_optional {A} (p : parsy.parser A) :
  tails p -> tails (parsy.optional p).
Proof.
  intros Hp s v r. unfold parsy.optional.
  destruct (p s) as [[v1 r1]|] eqn:E.
  - intros E2. injection E2 as _ <-. now apply Hp in E.
  - intros E2. injection E2 as _ <-. now exists [].
Qed.

Lemma tails_many_loop {A} (p : parsy.parser A) n :
  tails p ->
  forall s, exists pre, s = pre ++ snd (parsy.many_loop n p s).
Proof.
  intros Hp. induction n as [|n IH]; intros s; simpl; [now exists []|].
  destruct (p s) as [[v r]|] eqn:E; [|now exists []].
  destruct (Hp _ _ _ E) as [pre1 ->]. destruct (IH r) as [pre2 E2].
  destruct (parsy.many_loop n p r) as [vs r']. simpl in *.
  exists (pre1 ++ pre2). rewrite <- app_assoc. now rewrite <- E2.
Qed.

Lemma tails_many {A} (p : parsy.parser A) : tails p -> tails (parsy.many p).
Proof.
  intros Hp s v r E. unfold parsy.many in E.
  destruct (tails_many_loop p (length s) Hp s) as [pre H].
  destruct (parsy.many_loop (length s) p s) as [vs r'].
  injection E as _ <-. now exists pre.
Qed.

Lemma tails_spaceless {A} (p : parsy.parser A) :
  tails p -> tails (spaceless p).
Proof.
  intros Hp s v r. rewrite spaceless_eq.
  destruct (p (strip s)) as [[v1 r1]|] eqn:E; [|discriminate].
  intros E2. injection E2 as _ <-.
  destruct (tails_strip s) as [pre1 H1]. destruct (Hp _ _ _ E) as [pre2 H2].
  destruct (tails_strip r1) as [pre3 H3].
  exists (pre1 ++ pre2 ++ pre3).
  rewrite H1 at 1. rewrite H2 at 1. rewrite H3 at 1.
  now rewrite <- !app_assoc.
Qed.

Lemma tails_string k : tails (parsy.string k lower).
Proof.
  intros s v r. rewrite string_match_kw.
  destruct (match_kw k s) as [r0|] eqn:E; [|discriminate].
  intros E2. injection E2 as _ <-. now apply tails_match_kw in E.
Qed.

Lemma tails_spaceless_string names : tails (spaceless_string names).
Proof.
  apply tails_spaceless, tails_alt.
  induction names as [|n names IH]; simpl; constructor;
    [apply tails_string | exact IH].
Qed.

Lemma tails_NUMBER : tails NUMBER.
Proof.
  apply tails_spaceless. intros s v r.
  pose proof (span_app is_digit s) as H.
  destruct (span is_digit s) as [[|x ds] r0]; [discriminate|].
  intros E. injection E as _ <-. now exists (x :: ds).
Qed.

Lemma tails_field : tails field.
Proof.
  apply tails_spaceless. intros s v r. unfold FIELD.
  destruct s as [|y s]; [discriminate|].
  destruct (is_ident_start y); [|discriminate].
  pose proof (span_app is_ident_char s) as H.
  destruct (span is_ident_char s) as [m r0].
  intros E. injection E as _ <-. exists (y :: m). simpl in *. now rewrite H.
Qed.

Lemma tails_primitive : tails primitive.
Proof.
  apply tails_alt. unfold primitive_table.
  repeat (constructor; [apply tails_map, tails_spaceless_string|]).
  constructor.
Qed.

Lemma tails_decimal d : tails (decimal d).
Proof.
  apply tails_bind; [apply tails_spaceless_string|]. intros _.
  apply tails_bind.
  - apply tails_optional. apply tails_bind.
    + apply tails_bind; [apply tails_spaceless_string|]. intros _.
      apply tails_bind.
      * apply tails_bind; [apply tails_NUMBER|]. intros ?.
        apply tails_map, tails_spaceless_string.
      * intros ?. apply tails_bind; [apply tails_NUMBER|]. intros ?.
        apply tails_success.
    + intros ?. apply tails_map, tails_spaceless_string.
  - intros [[p s]|]; [|destruct d]; apply tails_success.
Qed.

Lemma tails_brackets : tails brackets.
Proof.
  apply tails_bind; [apply tails_spaceless, tails_spaceless_string|].
  intros _. apply tails_bind;
    [apply tails_spaceless, tails_spaceless_string|].
  intros _. apply tails_success.
Qed.

Section ProductionsTail.

Variable d : Z * Z.
Variable rec : parsy.parser DataType.
Hypothesis rec_tails : tails rec.

Lemma tails_item : tails (item rec).
Proof.
  apply tails_bind; [apply tails_field|]. intros ?.
  apply tails_bind; [exact rec_tails|]. intros ?. apply tails_success.
Qed.

Lemma tails_map_production : tails (map rec).
Proof.
  apply tails_bind; [apply tails_spaceless_string|]. intros _.
  apply tails_bind; [apply tails_spaceless_string|]. intros _.
  apply tails_bind; [apply tails_primitive|]. intros ?.
  apply tails_bind; [apply tails_spaceless_string|]. intros _.
  apply tails_bind; [exact rec_tails|]. intros ?.
  apply tails_bind; [apply tails_spaceless_string|]. intros _.
  apply tails_success.
Qed.

Lemma tails_struct : tails (struct rec).
Proof.
  rewrite struct_item.
  apply tails_bind; [apply tails_spaceless_string|]. intros _.
  apply tails_bind; [apply tails_spaceless_string|]. intros _.
  apply tails_bind.
  - apply tails_or; [|apply tails_success].
    apply tails_bind; [apply tails_item|]. intros ?.
    apply tails_map, tails_many.
    apply tails_bind; [apply tails_spaceless_string|]. intros _.
    apply tails_item.
  - intros ?. apply tails_bind; [apply tails_spaceless_string|]. intros _.
    apply tails_success.
Qed.

Lemma tails_non_pg_array_type : tails (non_pg_array_type d rec).
Proof.
  apply tails_or; [apply tails_or; [apply tails_or|]|].
  - apply tails_primitive.
  - apply tails_decimal.
  - apply tails_map_production.
  - apply tails_struct.
Qed.

Lemma tails_ty_body : tails (ty_body d rec).
Proof.
  apply tails_or; [|apply tails_non_pg_array_type].
  apply tails_bind; [apply tails_non_pg_array_type|]. intros ?.
  apply tails_bind.
  - apply tails_bind; [apply tails_brackets|]. intros ?.
    apply tails_map, tails_many, tails_brackets.
  - intros ?. apply tails_success.
Qed.

End ProductionsTail.

Lemma tails_ty_fuel d n : tails (ty_fuel d n).
Proof.
  induction n as [|n IH]; simpl; apply tails_ty_body;
    [apply tails_fail | exact IH].
Qed.

Lemma tails_ty d : tails (ty d).
Proof. intros s v r. unfold ty. apply tails_ty_fuel. Qed.

Lemma field_none_item rec s :
  next_char s = Some ")"%char -> item rec s = None.
Proof.
  intros H. unfold item, parsy.bind. now rewrite (field_none s H).
Qed.

(** ** Text after a type, whatever its first character

    What the parsers do on an input followed by more text that starts with
    a character [c] which is no whitespace.  An atom reads an input that
    has a barrier character in it as it reads the input alone: its token
    ends before that character. *)

Lemma barrier_not_space x : barrier x = true -> is_space x = false.
Proof. each_char x. Qed.

Lemma barrier_not_ident x : barrier x = true -> is_ident_char x = false.
Proof. each_char x. Qed.

Lemma barred_app pre r : barred r = true -> barred (pre ++ r) = true.
Proof.
  intros H. unfold barred. rewrite existsb_app, orb_true_iff. now right.
Qed.

Lemma barred_tails {A} (p : parsy.parser A) s v r :
  tails p -> p s = Some (v, r) -> barred r = true -> barred s = true.
Proof.
  intros Hp E H. destruct (Hp _ _ _ E) as [pre ->]. now apply barred_app.
Qed.

Lemma barred_strip s : barred s = true -> barred (strip s) = true.
Proof.
  induction s as [|x s IH]; [discriminate|].
  destruct (is_space x) eqn:E.
  - rewrite strip_space by exact E. simpl.
    destruct (barrier x) eqn:E2; [|exact IH].
    apply barrier_not_space in E2. congruence.
  - now rewrite strip_cons by exact E.
Qed.

Lemma barred_next r x :
  next_char r = Some x -> barrier x = true -> barred r = true.
Proof.
  unfold next_char. intros E Hx. destruct (tails_strip r) as [pre H].
  rewrite H. apply barred_app.
  destruct (strip r) as [|y u]; [discriminate|].
  injection E as ->. simpl. now rewrite Hx.
Qed.

Lemma barred_closing r : closing r -> barred r = true.
Proof. intros [H|H]; now apply (barred_next r _ H). Qed.


Lemma plain_not_barrier x y :
  (is_ident_char x || is_space x)%bool = true ->
  Ascii.eqb (lower_char y) (lower_char x) = true -> barrier y = false.
Proof.
  intros Hx E. apply Ascii.eqb_eq in E. unfold barrier.
  rewrite <- (lower_ident y), <- (is_space_lower y), E.
  now rewrite lower_ident, is_space_lower, Hx.
Qed.

Lemma match_kw_barred sfx k :
  plain k = true ->
  forall u, barred u = true ->
            match_kw k (u ++ sfx) =
            option_map (fun r => r ++ sfx) (match_kw k u).
Proof.
  induction k as [|x k IH]; intros Hk u Hu; [reflexivity|].
  simpl in Hk. apply andb_true_iff in Hk as [Hx Hk].
  destruct u as [|y u]; [discriminate|]. simpl.
  destruct (Ascii.eqb (lower_char y) (lower_char x)) eqn:E; [|reflexivity].
  apply IH; [exact Hk|]. simpl in Hu.
  now rewrite (plain_not_barrier x y Hx E) in Hu.
Qed.

Lemma span_barred f sfx :
  (forall y, barrier y = true -> f y = false) ->
  forall u, barred u = true ->
            span f (u ++ sfx) = (fst (span f u), snd (span f u) ++ sfx).
Proof.
  intros Hf. induction u as [|y u IH]; [discriminate|].
  intros Hu. simpl. destruct (f y) eqn:E; [|reflexivity].
  simpl in Hu. destruct (barrier y) eqn:E2.
  - apply Hf in E2. congruence.
  - rewrite (IH Hu). now destruct (span f u).
Qed.

Section Trailing.

Variable c : ascii.
Variable tl : text.
Hypothesis c_space : is_space c = false.

Local Abbreviation sfx := (c :: tl).

Lemma raw_strings_at names u :
  forallb plain names = true -> barred u = true ->
  stable_at sfx (raw_strings names) u.
Proof.
  unfold stable_at, raw_strings.
  induction names as [|k names IH]; intros H Hu; simpl; [reflexivity|].
  simpl in H. apply andb_true_iff in H as [Hk H].
  unfold parsy.or_. rewrite !string_match_kw.
  rewrite (match_kw_barred sfx k Hk u Hu).
  destruct (match_kw k u) as [r|]; [reflexivity|]. now apply IH.
Qed.

Lemma spaceless_at {A} (p : parsy.parser A) s :
  stable_at sfx p (strip s) -> stable_at sfx (spaceless p) s.
Proof.
  unfold stable_at. intros H.
  rewrite !spaceless_eq, strip_append, H by exact c_space.
  destruct (p (strip s)) as [[v r]|]; simpl; [|reflexivity].
  now rewrite strip_append by exact c_space.
Qed.

Lemma keyword_at names s :
  forallb plain (keywords names) = true -> barred s = true ->
  stable_at sfx (spaceless_string names) s.
Proof.
  intros H Hs. apply spaceless_at. unfold keywords in H.
  pose proof (raw_strings_at _ (strip s) H (barred_strip s Hs)) as H'.
  unfold raw_strings in H'. rewrite List.map_map in H'. exact H'.
Qed.


Lemma NUMBER_at s : barred s = true -> stable_at sfx NUMBER s.
Proof.
  intros Hs. apply spaceless_at. unfold stable_at.
  rewrite (span_barred is_digit sfx); [|
    intros y Hy; destruct (is_digit y) eqn:E; [|reflexivity];
    apply digit_ident in E; apply barrier_not_ident in Hy; congruence |
    now apply barred_strip].
  destruct (span is_digit (strip s)) as [[|x ds] r]; reflexivity.
Qed.

Lemma field_at s : barred s = true -> stable_at sfx field s.
Proof.
  intros Hs. apply spaceless_at. apply barred_strip in Hs.
  unfold stable_at, FIELD.
  destruct (strip s) as [|y u]; [discriminate|]. simpl.
  destruct (is_ident_start y) eqn:E; [|reflexivity].
  simpl in Hs. destruct (barrier y) eqn:E2.
  { apply barrier_not_ident in E2. apply ident_start_char in E. congruence. }
  rewrite (span_barred is_ident_char sfx barrier_not_ident u Hs).
  now destruct (span is_ident_char u).
Qed.

Lemma table_at tbl s :
  plain_table tbl = true -> barred s = true ->
  stable_at sfx
    (parsy.alt
       (List.map
          (fun '(names, v) => parsy.result_ (spaceless_string names) v)
          tbl)) s.
Proof.
  unfold stable_at.
  induction tbl as [|[names v] tbl IH]; intros H Hs; simpl; [reflexivity|].
  simpl in H. apply andb_true_iff in H as [Hk H].
  unfold parsy.or_, parsy.result_, parsy.map.
  rewrite (keyword_at names s Hk Hs).
  destruct (spaceless_string names s) as [[v' r]|]; [reflexivity|].
  now apply IH.
Qed.

Lemma primitive_at s : barred s = true -> stable_at sfx primitive s.
Proof. apply table_at, primitive_plain. Qed.


Lemma group_at : extends sfx prec_scale_group.
Proof.
  intros s v r. unfold prec_scale_group, parsy.skip, parsy.then_,
    parsy.bind, parsy.map, parsy.success, PRECISION, SCALE, LPAREN, COMMA,
    RPAREN.
  destruct (spaceless_string ["("%string] s) as [[v1 r1]|] eqn:E1;
    [|discriminate].
  rewrite (extends_punct c tl c_space "(" eq_refl _ _ _ E1).
  destruct (NUMBER r1) as [[v2 r2]|] eqn:E2; [|discriminate].
  destruct (spaceless_string [","%string] r2) as [[v3 r3]|] eqn:E3;
    [|discriminate].
  destruct (NUMBER r3) as [[v4 r4]|] eqn:E4; [|discriminate].
  destruct (spaceless_string [")"%string] r4) as [[v5 r5]|] eqn:E5;
    [|discriminate].
  intros E. injection E as <- <-.
  assert (H2 : barred r2 = true)
    by (apply (barred_next r2 ","); [|reflexivity];
        now apply punct_some in E3).
  assert (H4 : barred r4 = true)
    by (apply (barred_next r4 ")"); [|reflexivity];
        now apply punct_some in E5).
  rewrite (NUMBER_at r1 (barred_tails _ _ _ _ tails_NUMBER E2 H2)), E2.
  cbn [on_rest].
  rewrite (extends_punct c tl c_space "," eq_refl _ _ _ E3).
  rewrite (NUMBER_at r3 (barred_tails _ _ _ _ tails_NUMBER E4 H4)), E4.
  cbn [on_rest].
  now rewrite (extends_punct c tl c_space ")" eq_refl _ _ _ E5).
Qed.

Lemma group_fails_at s :
  next_char s <> None -> next_char s <> Some "("%char ->
  prec_scale_group (s ++ sfx) = None.
Proof.
  intros H0 H. unfold prec_scale_group, parsy.skip, parsy.then_, parsy.bind.
  unfold LPAREN. rewrite (punct_none "("); [reflexivity..|].
  rewrite (next_char_append c tl c_space). now destruct (next_char s).
Qed.

Lemma many_brackets_at n :
  forall s bs r, length s <= n ->
  parsy.many brackets s = Some (bs, r) ->
  brackets (r ++ sfx) = None ->
  parsy.many brackets (s ++ sfx) = Some (bs, r ++ sfx).
Proof.
  induction n as [|n IH]; intros s bs r Hn; rewrite !many_unfold
    by exact consuming_brackets;
    (destruct (brackets s) as [[v1 r1]|] eqn:E1;
     [| intros E H; injection E as <- <-; now rewrite H]).
  - apply consuming_brackets in E1. lia.
  - rewrite (extends_brackets c tl c_space _ _ _ E1). unfold parsy.map.
    destruct (parsy.many brackets r1) as [[bs1 r2]|] eqn:E2;
      [|discriminate].
    intros E H. injection E as <- <-.
    apply consuming_brackets in E1.
    rewrite (IH r1 bs1 r2); [reflexivity | lia | exact E2 | exact H].
Qed.

Lemma closing_brackets r : closing r -> brackets (r ++ sfx) = None.
Proof.
  intros H. apply (brackets_fails c tl c_space); destruct H as [H|H];
    rewrite H; discriminate.
Qed.

Section Nested.

Variable d : Z * Z.
Variable rec : parsy.parser DataType.
Hypothesis rec_nonincr : nonincr rec.
Hypothesis rec_tails : tails rec.
Hypothesis rec_at :
  forall s v r, rec s = Some (v, r) -> closing r ->
                rec (s ++ sfx) = Some (v, r ++ sfx).

Lemma item_at s f r :
  item rec s = Some (f, r) -> closing r ->
  item rec (s ++ sfx) = Some (f, r ++ sfx).
Proof.
  unfold item, parsy.bind, parsy.success.
  destruct (field s) as [[name r1]|] eqn:E1; [|discriminate].
  destruct (rec r1) as [[t r2]|] eqn:E2; [|discriminate].
  intros E H. injection E as <- <-.
  pose proof (barred_tails _ _ _ _ rec_tails E2 (barred_closing _ H)) as H1.
  rewrite (field_at s (barred_tails _ _ _ _ tails_field E1 H1)), E1.
  cbn [on_rest]. now rewrite (rec_at _ _ _ E2 H).
Qed.

Lemma sep_loop_at n :
  forall s fs r, length s <= n ->
  parsy.many (parsy.then_ COMMA (item rec)) s = Some (fs, r) ->
  next_char r = Some ")"%char ->
  parsy.many (parsy.then_ COMMA (item rec)) (s ++ sfx)
  = Some (fs, r ++ sfx).
Proof.
  induction n as [|n IH]; intros s fs r Hn;
    rewrite !many_unfold by (apply consuming_sep_item, rec_nonincr);
    (destruct (parsy.then_ COMMA (item rec) s) as [[f1 r1]|] eqn:E1;
     [| intros E H; injection E as <- <-;
        unfold parsy.then_, parsy.bind, COMMA;
        rewrite (punct_none ","); [reflexivity | reflexivity |];
        rewrite (next_char_append c tl c_space), H; discriminate]).
  - apply (consuming_sep_item rec rec_nonincr) in E1. lia.
  - unfold parsy.map.
    destruct (parsy.many _ r1) as [[fs1 r2]|] eqn:E2; [|discriminate].
    intros E H. injection E as <- <-.
    pose proof (consuming_sep_item rec rec_nonincr _ _ _ E1) as Hlen.
    assert (Hstep : parsy.then_ COMMA (item rec) (s ++ sfx)
                    = Some (f1, r1 ++ sfx)).
    { unfold parsy.then_, parsy.bind, COMMA in E1 |- *.
      destruct (spaceless_string _ s) as [[v0 r0]|] eqn:E0;
        [|discriminate].
      rewrite (extends_punct c tl c_space "," eq_refl _ _ _ E0).
      apply item_at; [exact E1|].
      eapply sep_loop_next; eassumption. }
    rewrite Hstep.
    rewrite (IH r1 fs1 r2); [reflexivity | lia | exact E2 | exact H].
Qed.

Lemma sep_by_at s fs r :
  parsy.sep_by (item rec) COMMA s = Some (fs, r) ->
  next_char r = Some ")"%char ->
  parsy.sep_by (item rec) COMMA (s ++ sfx) = Some (fs, r ++ sfx).
Proof.
  unfold parsy.sep_by, parsy.or_, parsy.bind, parsy.map, parsy.success.
  destruct (item rec s) as [[f1 r1]|] eqn:E1.
  - destruct (parsy.many _ r1) as [[fs1 r2]|] eqn:E2.
    + intros E H. injection E as <- <-.
      rewrite (item_at _ _ _ E1)
        by (eapply sep_loop_next; eassumption).
      now rewrite (sep_loop_at (length r1) r1 fs1 r2 (Nat.le_refl _)
                     E2 H).
    + unfold parsy.many in E2. discriminate.
  - intros E H. injection E as <- <-.
    rewrite (field_none_item rec (s ++ sfx)); [reflexivity|].
    now rewrite (next_char_append c tl c_space), H.
Qed.

Lemma map_at : extends sfx (map rec).
Proof.
  intros s v r. unfold map, parsy.bind, parsy.success, LPAREN, COMMA,
    RPAREN.
  destruct (spaceless_string ["map"%string] s) as [[v1 r1]|] eqn:E1;
    [|discriminate].
  destruct (spaceless_string ["("%string] r1) as [[v2 r2]|] eqn:E2;
    [|discriminate].
  destruct (primitive r2) as [[k r3]|] eqn:E3; [|discriminate].
  destruct (spaceless_string [","%string] r3) as [[v4 r4]|] eqn:E4;
    [|discriminate].
  destruct (rec r4) as [[t r5]|] eqn:E5; [|discriminate].
  destruct (spaceless_string [")"%string] r5) as [[v6 r6]|] eqn:E6;
    [|discriminate].
  intros E. injection E as <- <-.
  assert (H1 : barred r1 = true)
    by (apply (barred_next r1 "("); [|reflexivity];
        now apply punct_some in E2).
  assert (H3 : barred r3 = true)
    by (apply (barred_next r3 ","); [|reflexivity];
        now apply punct_some in E4).
  rewrite (keyword_at ["map"%string] s eq_refl
             (barred_tails _ _ _ _ (tails_spaceless_string _) E1 H1)), E1.
  cbn [on_rest].
  rewrite (extends_punct c tl c_space "(" eq_refl _ _ _ E2).
  rewrite (primitive_at r2 (barred_tails _ _ _ _ tails_primitive E3 H3)), E3.
  cbn [on_rest].
  rewrite (extends_punct c tl c_space "," eq_refl _ _ _ E4).
  rewrite (rec_at _ _ _ E5)
    by (right; eapply punct_some; [reflexivity | exact E6]).
  now rewrite (extends_punct c tl c_space ")" eq_refl _ _ _ E6).
Qed.

Lemma struct_at : extends sfx (struct rec).
Proof.
  intros s v r. rewrite !struct_item.
  unfold parsy.bind, parsy.success, LPAREN, RPAREN.
  destruct (spaceless_string ["struct"%string] s) as [[v1 r1]|] eqn:E1;
    [|discriminate].
  destruct (spaceless_string ["("%string] r1) as [[v2 r2]|] eqn:E2;
    [|discriminate].
  destruct (parsy.sep_by (item rec) COMMA r2) as [[fs r3]|] eqn:E3;
    [|discriminate].
  destruct (spaceless_string [")"%string] r3) as [[v4 r4]|] eqn:E4;
    [|discriminate].
  intros E. injection E as <- <-.
  assert (H1 : barred r1 = true)
    by (apply (barred_next r1 "("); [|reflexivity];
        now apply punct_some in E2).
  rewrite (keyword_at ["struct"%string] s eq_refl
             (barred_tails _ _ _ _ (tails_spaceless_string _) E1 H1)), E1.
  cbn [on_rest].
  rewrite (extends_punct c tl c_space "(" eq_refl _ _ _ E2).
  rewrite (sep_by_at _ _ _ E3)
    by (eapply punct_some; [reflexivity | exact E4]).
  now rewrite (extends_punct c tl c_space ")" eq_refl _ _ _ E4).
Qed.

Lemma struct_not_map_at s x :
  struct rec s = Some x -> map rec (s ++ sfx) = None.
Proof.
  unfold struct, map, parsy.bind, LPAREN.
  destruct (spaceless_string ["struct"%string] s) as [[v1 r1]|] eqn:E1;
    [|discriminate].
  destruct (spaceless_string ["("%string] r1) as [[v2 r2]|] eqn:E2;
    [|discriminate].
  intros _.
  assert (H1 : barred r1 = true)
    by (apply (barred_next r1 "("); [|reflexivity];
        now apply punct_some in E2).
  rewrite (keyword_at ["map"%string] s eq_refl
             (barred_tails _ _ _ _ (tails_spaceless_string _) E1 H1)).
  now rewrite (struct_keyword_not_map _ _ _ E1).
Qed.

(** The unsuffixed alternatives, where the keywords of [primitive] and of
    [decimal] are read at [s] followed by [sfx] as at [s], and no
    parameters of a decimal are found in [sfx]. *)
Lemma non_pg_array_type_at s v r :
  non_pg_array_type d rec s = Some (v, r) ->
  stable_at sfx primitive s ->
  stable_at sfx (spaceless_string ["decimal"; "numeric"]%string) s ->
  (forall k, spaceless_string ["decimal"; "numeric"]%string s = Some (k, r) ->
             prec_scale_group r = None ->
             prec_scale_group (r ++ sfx) = None) ->
  non_pg_array_type d rec (s ++ sfx) = Some (v, r ++ sfx).
Proof.
  intros E Hp Hk Hg. revert E.
  unfold non_pg_array_type, parsy.or_. rewrite Hp.
  destruct (primitive s) as [[v1 r1]|].
  { intros E. now injection E as <- <-. }
  cbn [on_rest]. rewrite !decimal_eq. unfold parsy.bind, parsy.optional.
  rewrite Hk.
  destruct (spaceless_string _ s) as [[k r1]|]; cbn [on_rest].
  { destruct (prec_scale_group r1) as [[[p1 s1] r2]|] eqn:E2.
    - rewrite (group_at _ _ _ E2). intros E. now injection E as <- <-.
    - destruct d as [p0 s0]. intros E. injection E as <- <-.
      now rewrite (Hg k eq_refl E2). }
  destruct (map rec s) as [[v3 r3]|] eqn:E3.
  { intros E. injection E as <- <-. now rewrite (map_at _ _ _ E3). }
  intros E. rewrite (struct_not_map_at _ _ E). now apply struct_at.
Qed.

Lemma ty_body_at s v r :
  ty_body d rec s = Some (v, r) -> closing r ->
  ty_body d rec (s ++ sfx) = Some (v, r ++ sfx).
Proof.
  unfold ty_body, pg_array, parsy.at_least1, parsy.or_, parsy.bind,
    parsy.map, parsy.success.
  destruct (non_pg_array_type d rec s) as [[v0 r0]|] eqn:E0;
    [|discriminate].
  assert (Hnp : forall x, next_char r0 = Some x -> barrier x = true ->
                          x <> "("%char ->
                non_pg_array_type d rec (s ++ sfx) = Some (v0, r0 ++ sfx)).
  { intros x Hx Hb Hne.
    pose proof (barred_tails _ _ _ _ (tails_non_pg_array_type d rec rec_tails)
                  E0 (barred_next r0 x Hx Hb)) as Hs.
    apply non_pg_array_type_at; [exact E0 | now apply primitive_at
                                | now apply keyword_at |].
    intros k _ _. apply group_fails_at; rewrite Hx; congruence. }
  destruct (brackets r0) as [[u r1]|] eqn:E1.
  - destruct (parsy.many brackets r1) as [[bs r2]|] eqn:E2;
      [|unfold parsy.many in E2; discriminate].
    cbv beta iota. intros E H. injection E as <- <-.
    rewrite (Hnp "["%char (brackets_next _ _ _ E1) eq_refl)
      by discriminate.
    rewrite (extends_brackets c tl c_space _ _ _ E1).
    now rewrite (many_brackets_at (length r1) r1 bs r2 (Nat.le_refl _) E2
                   (closing_brackets _ H)).
  - cbv beta iota. intros E H. injection E as <- <-.
    assert (E : non_pg_array_type d rec (s ++ sfx) = Some (v0, r0 ++ sfx))
      by (destruct H as [H|H]; apply (Hnp _ H); [reflexivity | discriminate
                                                | reflexivity | discriminate]).
    rewrite E. now rewrite (closing_brackets _ H).
Qed.

End Nested.

Lemma ty_fuel_at d n :
  forall s v r, ty_fuel d n s = Some (v, r) -> closing r ->
                ty_fuel d n (s ++ sfx) = Some (v, r ++ sfx).
Proof.
  induction n as [|n IH]; simpl; apply ty_body_at.
  - apply nonincr_fail.
  - apply tails_fail.
  - discriminate.
  - apply consuming_nonincr, consuming_ty_fuel.
  - apply tails_ty_fuel.
  - exact IH.
Qed.

(** A type inside a map or a struct is read the same whatever follows the
    comma or the parenthesis after it. *)
Lemma ty_at d s v r :
  ty d s = Some (v, r) -> closing r ->
  ty d (s ++ sfx) = Some (v, r ++ sfx).
Proof.
  intros E H. unfold ty.
  apply ty_fuel_at; [|exact H].
  rewrite ty_at_fuel; [exact E|]. rewrite length_app. lia.
Qed.

(** A type that is read entirely, followed by text that neither
    [primitive] nor the keyword of [decimal] reads differently, that holds
    no parameters for a decimal without any and starts with no bracket
    suffix: the type is read as before and the text is left. *)
Lemma ty_top d t v :
  ty d t = Some (v, []) ->
  stable_at sfx primitive t ->
  stable_at sfx (spaceless_string ["decimal"; "numeric"]%string) t ->
  (forall k, spaceless_string ["decimal"; "numeric"]%string t = Some (k, []) ->
             prec_scale_group sfx = None) ->
  brackets sfx = None ->
  ty d (t ++ sfx) = Some (v, sfx).
Proof.
  intros E Hp Hk Hg Hb. revert E. rewrite !ty_unfold.
  unfold ty_body, pg_array, parsy.at_least1, parsy.or_, parsy.bind,
    parsy.map, parsy.success.
  destruct (non_pg_array_type d (ty d) t) as [[v0 r0]|] eqn:E0;
    [|discriminate].
  assert (Hnp : r0 = [] \/ next_char r0 = Some "["%char ->
                non_pg_array_type d (ty d) (t ++ sfx) = Some (v0, r0 ++ sfx)).
  { intros Hr. apply non_pg_array_type_at; try assumption.
    - apply consuming_nonincr, consuming_ty.
    - apply tails_ty.
    - apply ty_at.
    - intros k Ek Eg. destruct Hr as [-> | Hr]; [now apply (Hg k)|].
      apply group_fails_at; rewrite Hr; discriminate. }
  destruct (brackets r0) as [[u r1]|] eqn:E1.
  - destruct (parsy.many brackets r1) as [[bs r2]|] eqn:E2;
      [|unfold parsy.many in E2; discriminate].
    cbv beta iota. intros E. injection E as <- ->.
    rewrite Hnp by (right; exact (brackets_next _ _ _ E1)).
    rewrite (extends_brackets c tl c_space _ _ _ E1).
    now rewrite (many_brackets_at (length r1) r1 bs [] (Nat.le_refl _) E2 Hb).
  - cbv beta iota. intros E. injection E as <- ->.
    rewrite (Hnp (or_introl eq_refl)). cbn [app]. now rewrite Hb.
Qed.


(** *** A parser that stops before the text added *)

Lemma match_kw_length k : forall s r,
  match_kw k s = Some r -> length s = length k + length r.
Proof.
  induction k as [|x k IH]; intros s r; simpl.
  - intros E. now injection E as <-.
  - destruct s as [|y s]; [discriminate|].
    destruct (Ascii.eqb (lower_char y) (lower_char x)); [|discriminate].
    intros E. apply IH in E. simpl. lia.
Qed.

Lemma match_kw_extends k : forall u r,
  match_kw k u = Some r -> match_kw k (u ++ sfx) = Some (r ++ sfx).
Proof.
  induction k as [|x k IH]; intros u r; simpl.
  - intros E. now injection E as <-.
  - destruct u as [|y u]; [discriminate|]. simpl.
    destruct (Ascii.eqb (lower_char y) (lower_char x)); [|discriminate].
    apply IH.
Qed.

Lemma match_kw_back k : forall u r,
  match_kw k (u ++ sfx) = Some r -> length sfx <= length r ->
  exists r', r = r' ++ sfx /\ match_kw k u = Some r'.
Proof.
  induction k as [|x k IH]; intros u r.
  - simpl. intros E _. injection E as <-. now exists u.
  - destruct u as [|y u].
    + cbn [app]. intros E H. apply match_kw_length in E. simpl in E, H. lia.
    + simpl. destruct (Ascii.eqb (lower_char y) (lower_char x));
        [apply IH | discriminate].
Qed.

Lemma calm_of_back k u :
  (forall r, match_kw k (u ++ sfx) = Some r -> length sfx <= length r) ->
  calm sfx k u.
Proof.
  intros H. unfold calm.
  destruct (match_kw k (u ++ sfx)) as [r|] eqn:E.
  - destruct (match_kw_back k u r E (H r eq_refl)) as (r' & -> & ->).
    reflexivity.
  - destruct (match_kw k u) as [r'|] eqn:E'; [|reflexivity].
    apply match_kw_extends in E'. congruence.
Qed.

Lemma within_string k : within sfx (parsy.string k lower).
Proof.
  intros s v r. rewrite !string_match_kw.
  destruct (match_kw k (s ++ sfx)) as [r0|] eqn:E; [|discriminate].
  intros E2 H. injection E2 as <- <-.
  destruct (match_kw_back k s r0 E H) as (r' & -> & ->). now exists r'.
Qed.

Lemma persists_string k : persists sfx (parsy.string k lower).
Proof.
  intros s. rewrite !string_match_kw.
  destruct (match_kw k s) as [r|] eqn:E; [|easy].
  now rewrite (match_kw_extends k s r E).
Qed.

Lemma within_fail {A} : within sfx (@parsy.fail A).
Proof. intros s v r E. discriminate. Qed.

Lemma persists_fail {A} : persists sfx (@parsy.fail A).
Proof. intros s H. now elim H. Qed.

Lemma within_or {A} (p q : parsy.parser A) :
  within sfx p -> within sfx q -> persists sfx p ->
  within sfx (parsy.or_ p q).
Proof.
  intros Hp Hq Hm s v r. unfold parsy.or_.
  destruct (p (s ++ sfx)) as [[v1 r1]|] eqn:E.
  - intros E2 H. injection E2 as <- <-.
    destruct (Hp _ _ _ E H) as (r' & -> & ->). now exists r'.
  - intros E2 H. destruct (Hq _ _ _ E2 H) as (r' & -> & E3).
    exists r'. split; [reflexivity|].
    destruct (p s) as [x|] eqn:E4; [|exact E3].
    elim (Hm s); [now rewrite E4 | exact E].
Qed.

Lemma persists_or {A} (p q : parsy.parser A) :
  persists sfx p -> persists sfx q -> persists sfx (parsy.or_ p q).
Proof.
  intros Hp Hq s. unfold parsy.or_.
  destruct (p s) as [x|] eqn:E.
  - intros _. destruct (p (s ++ sfx)) eqn:E2; [easy|].
    elim (Hp s); [now rewrite E | exact E2].
  - intros H. destruct (p (s ++ sfx)); [easy | now apply Hq].
Qed.

Lemma within_alt {A} (ps : list (parsy.parser A)) :
  Forall (within sfx) ps -> Forall (persists sfx) ps ->
  within sfx (parsy.alt ps) /\ persists sfx (parsy.alt ps).
Proof.
  induction 1 as [|p ps Hp _ IH]; intros Hm; simpl.
  - split; [apply within_fail | apply persists_fail].
  - inversion Hm as [|? ? Hm1 Hm2]; subst.
    destruct (IH Hm2) as [H1 H2].
    split; [now apply within_or | now apply persists_or].
Qed.

Lemma within_map {A B} (g : A -> B) (p : parsy.parser A) :
  within sfx p -> within sfx (parsy.map g p).
Proof.
  intros Hp s v r. unfold parsy.map.
  destruct (p (s ++ sfx)) as [[v1 r1]|] eqn:E; [|discriminate].
  intros E2 H. injection E2 as <- <-.
  destruct (Hp _ _ _ E H) as (r' & -> & ->). now exists r'.
Qed.

Lemma persists_map {A B} (g : A -> B) (p : parsy.parser A) :
  persists sfx p -> persists sfx (parsy.map g p).
Proof.
  intros Hp s. unfold parsy.map. specialize (Hp s).
  destruct (p s) as [[v r]|]; [|easy].
  intros _. destruct (p (s ++ sfx)) as [[v' r']|]; [easy|].
  now elim Hp.
Qed.

Lemma within_spaceless {A} (p : parsy.parser A) :
  within sfx p -> within sfx (spaceless p).
Proof.
  intros Hp s v r. rewrite !spaceless_eq, strip_append by exact c_space.
  destruct (p (strip s ++ sfx)) as [[v1 r1]|] eqn:E; [|discriminate].
  intros E2 H. injection E2 as <- <-.
  pose proof (strip_length r1) as Hl.
  destruct (Hp _ _ _ E) as (r' & -> & ->); [lia|].
  exists (strip r'). now rewrite strip_append by exact c_space.
Qed.

Lemma persists_spaceless {A} (p : parsy.parser A) :
  persists sfx p -> persists sfx (spaceless p).
Proof.
  intros Hp s. rewrite !spaceless_eq, strip_append by exact c_space.
  specialize (Hp (strip s)).
  destruct (p (strip s)) as [[v r]|]; [|easy].
  intros _. destruct (p (strip s ++ sfx)) as [[v' r']|]; [easy|].
  now elim Hp.
Qed.

Lemma within_spaceless_string names :
  within sfx (spaceless_string names) /\
  persists sfx (spaceless_string names).
Proof.
  destruct (within_alt
              (List.map (fun s => parsy.string (T s) lower) names))
    as [H1 H2].
  - induction names; simpl; constructor;
      [apply within_string | assumption].
  - induction names; simpl; constructor;
      [apply persists_string | assumption].
  - split; [now apply within_spaceless | now apply persists_spaceless].
Qed.

Lemma within_primitive : within sfx primitive /\ persists sfx primitive.
Proof.
  apply within_alt; unfold primitive_table.
  - repeat (constructor;
            [apply within_map, (proj1 (within_spaceless_string _))|]).
    constructor.
  - repeat (constructor;
            [apply persists_map, (proj2 (within_spaceless_string _))|]).
    constructor.
Qed.

Lemma stable_of_within {A} (p : parsy.parser A) s :
  within sfx p -> persists sfx p ->
  (forall v r, p (s ++ sfx) = Some (v, r) -> length sfx <= length r) ->
  stable_at sfx p s.
Proof.
  intros Hp Hm H. unfold stable_at.
  destruct (p (s ++ sfx)) as [[v r]|] eqn:E.
  - destruct (Hp _ _ _ E (H _ _ eq_refl)) as (r' & -> & ->). reflexivity.
  - destruct (p s) as [x|] eqn:E2; [|reflexivity].
    elim (Hm s); [now rewrite E2 | exact E].
Qed.

Lemma consuming_group : consuming prec_scale_group.
Proof.
  apply consuming_bind_l.
  - apply consuming_bind_l; [apply consuming_punct|].
    intros _. apply nonincr_bind.
    + apply nonincr_bind; [apply consuming_nonincr, consuming_NUMBER|].
      intros v. apply nonincr_map, consuming_nonincr, consuming_punct.
    + intros prec. apply nonincr_bind;
        [apply consuming_nonincr, consuming_NUMBER|].
      intros sc. apply nonincr_success.
  - intros v. apply nonincr_map, consuming_nonincr, consuming_punct.
Qed.

(** Where [decimal] reads nothing of the text added, its keyword is read
    as before, and a keyword without parameters finds none in that
    text. *)
Lemma decimal_keyword_at d t :
  (forall v r, decimal d (t ++ sfx) = Some (v, r) ->
               length sfx <= length r) ->
  stable_at sfx (spaceless_string ["decimal"; "numeric"]%string) t.
Proof.
  intros H.
  apply stable_of_within; try apply within_spaceless_string.
  intros k r1 E1. revert H. rewrite decimal_eq.
  unfold parsy.bind, parsy.optional. rewrite E1.
  destruct (prec_scale_group r1) as [[[p s] r2]|] eqn:E2; intros H.
  - apply consuming_group in E2. specialize (H _ _ eq_refl). lia.
  - destruct d. exact (H _ _ eq_refl).
Qed.

Lemma decimal_group_at d t k :
  (forall v r, decimal d (t ++ sfx) = Some (v, r) ->
               length sfx <= length r) ->
  spaceless_string ["decimal"; "numeric"]%string t = Some (k, []) ->
  prec_scale_group sfx = None.
Proof.
  intros H E. pose proof (decimal_keyword_at d t H) as Hk.
  unfold stable_at in Hk. rewrite E in Hk. cbn [on_rest app] in Hk.
  revert H. rewrite decimal_eq. unfold parsy.bind, parsy.optional.
  rewrite Hk.
  destruct (prec_scale_group sfx) as [[[p s] r2]|] eqn:E2; [|reflexivity].
  intros H. apply consuming_group in E2. specialize (H _ _ eq_refl). lia.
Qed.

(** *** Keywords and whitespace *)

Lemma match_kw_word k :
  word k = true ->
  forall u, spaced u = true -> calm sfx k u.
Proof.
  unfold calm.
  induction k as [|x k IH]; intros Hk u Hu; [reflexivity|].
  simpl in Hk. apply andb_true_iff in Hk as [Hx Hk].
  destruct u as [|y u]; [discriminate|]. simpl.
  destruct (Ascii.eqb (lower_char y) (lower_char x)) eqn:E; [|reflexivity].
  apply IH; [exact Hk|]. simpl in Hu.
  apply Ascii.eqb_eq in E.
  rewrite <- (lower_ident y), E, lower_ident, Hx in Hu. exact Hu.
Qed.

Lemma raw_strings_calm names u :
  Forall (fun k => calm sfx k u) names ->
  stable_at sfx (raw_strings names) u.
Proof.
  unfold stable_at, raw_strings.
  induction 1 as [|k names Hk _ IH]; simpl; [reflexivity|].
  unfold parsy.or_. rewrite !string_match_kw, Hk.
  destruct (match_kw k u) as [r|]; [reflexivity | exact IH].
Qed.

Lemma keyword_calm names s :
  Forall (fun k => calm sfx k (strip s)) (keywords names) ->
  stable_at sfx (spaceless_string names) s.
Proof.
  intros H. apply spaceless_at.
  pose proof (raw_strings_calm _ _ H) as H'.
  unfold raw_strings, keywords in H'. rewrite List.map_map in H'. exact H'.
Qed.

Lemma table_calm (tbl : list (list String.string * DataType)) s :
  Forall (fun e => Forall (fun k => calm sfx k (strip s)) (keywords (fst e)))
    tbl ->
  stable_at sfx
    (parsy.alt
       (List.map
          (fun '(names, v) => parsy.result_ (spaceless_string names) v)
          tbl)) s.
Proof.
  unfold stable_at.
  induction 1 as [|[names v] tbl Hk _ IH]; simpl; [reflexivity|].
  unfold parsy.or_, parsy.result_, parsy.map.
  rewrite (keyword_calm names s Hk).
  destruct (spaceless_string names s) as [[v' r]|]; [reflexivity|].
  exact IH.
Qed.

End Trailing.

(** *** A text that parses, followed by more text *)

Lemma strip_split g : exists ws, blank ws /\ g = ws ++ strip g.
Proof.
  induction g as [|x g (ws & Hws & E)];
    [exists []; split; [constructor | reflexivity]|].
  destruct (is_space x) eqn:Ex.
  - exists (x :: ws). rewrite strip_space by exact Ex.
    split; [now constructor | simpl; now rewrite <- E].
  - exists []. split; [constructor | now rewrite strip_cons].
Qed.

Lemma lead_brackets : lead brackets.
Proof. apply lead_bind, lead_spaceless. Qed.

Lemma ty_not_blank d t v r : ty d t = Some (v, r) -> strip t <> [].
Proof.
  intros E H. rewrite <- lead_ty, H in E.
  now rewrite (ty_blank d [] (Forall_nil _)) in E.
Qed.

Lemma ty_padded d t v ws :
  ty d t = Some (v, []) -> blank ws -> ty d (t ++ ws) = Some (v, []).
Proof.
  intros E Hws. pose proof (respects_pad_ty ws Hws d t) as H.
  rewrite E in H. destruct t as [|x t]; [|exact H].
  now rewrite (ty_blank d [] (Forall_nil _)) in E.
Qed.

(** A text that parses, followed by text of which [primitive] and
    [decimal], run on the whole, read nothing, and that starts with no
    bracket suffix: [ty] reads the type as before and leaves the text that
    follows. *)
Lemma trailing_text d t g v :
  ty d t = Some (v, []) -> strip g <> [] -> brackets g = None ->
  (forall v' r, primitive (t ++ g) = Some (v', r) ->
                length (strip g) <= length r) ->
  (forall v' r, decimal d (t ++ g) = Some (v', r) ->
                length (strip g) <= length r) ->
  ty d (t ++ g) = Some (v, strip g).
Proof.
  intros E Hg Hb H1 H2.
  destruct (strip_split g) as (ws & Hws & Eg).
  rewrite <- lead_brackets in Hb.
  destruct (strip g) as [|c tl] eqn:Es; [now elim Hg|].
  assert (Hc : is_space c = false) by exact (span_stop _ _ _ _ Es).
  rewrite Eg, app_assoc in H1, H2 |- *.
  pose proof (ty_padded d t v ws E Hws) as E'.
  apply (ty_top c tl Hc d (t ++ ws) v E'); [| | |exact Hb].
  - apply (stable_of_within c tl); try apply within_primitive;
      assumption.
  - now apply (decimal_keyword_at c tl Hc d).
  - intros k. now apply (decimal_group_at c tl Hc d (t ++ ws)).
Qed.

Lemma zoned_or_word :
  Forall (fun e => Forall (fun k => word k = true \/
                                    k = T "timestamp with time zone")
                     (keywords (fst e))) primitive_table.
Proof.
  unfold primitive_table.
  repeat (constructor;
          [repeat (constructor;
                   [first [left; reflexivity | right; reflexivity]|]);
           constructor|]).
  constructor.
Qed.

(** A text that parses, followed by text that starts, after whitespace or
    not, with a character [c] other than an opening parenthesis or
    bracket: when [c] is no letter, digit or underscore, or when there is
    whitespace before it and the alias with spaces in it does not reach
    it, [ty] reads the type as before and leaves the text from [c] on. *)
Lemma trailing_word d t g v c tl :
  ty d t = Some (v, []) -> strip g = c :: tl ->
  c <> "["%char -> c <> "("%char ->
  is_ident_char c = false \/
  (strip g <> g /\
   forall k r,
     spaceless_string ["timestamp with time zone"%string] (t ++ g)
     = Some (k, r) -> length (strip g) <= length r) ->
  ty d (t ++ g) = Some (v, c :: tl).
Proof.
  intros E Es Hb Hp Hsep.
  destruct (strip_split g) as (ws & Hws & Eg). rewrite Es in Eg.
  assert (Hc : is_space c = false) by exact (span_stop _ _ _ _ Es).
  pose proof (ty_padded d t v ws E Hws) as E'.
  assert (K3 : prec_scale_group (c :: tl) = None)
    by (apply (group_fails c tl Hc Hp []); discriminate).
  assert (K4 : brackets (c :: tl) = None).
  { apply brackets_none. unfold next_char. rewrite strip_cons by exact Hc.
    simpl. congruence. }
  destruct Hsep as [Hi | [Hne HZ]].
  - rewrite Eg, app_assoc.
    apply (ty_top c tl Hc d (t ++ ws) v E'); [| | |exact K4].
    + intros. apply (stable_primitive c tl Hc Hi).
    + apply (stable_spaceless_string c tl Hc Hi). reflexivity.
    + intros _ _. exact K3.
  - assert (Hsp : spaced (strip (t ++ ws)) = true).
    { rewrite (strip_app_blank ws Hws).
      pose proof (ty_not_blank d t v [] E) as Hn.
      destruct (strip t) as [|y u]; [now elim Hn|]. cbn [pad].
      unfold spaced. rewrite existsb_app, orb_true_iff. right.
      destruct Hws as [|w ws Hw _]; [rewrite Es in Hne; now elim Hne|].
      simpl. now rewrite (space_not_ident w Hw). }
    rewrite Es in HZ. rewrite Eg, app_assoc in HZ |- *.
    assert (Hz : calm (c :: tl) (T "timestamp with time zone")
                   (strip (t ++ ws))).
    { apply calm_of_back. intros r0 E0.
      specialize (HZ (T "timestamp with time zone") (strip r0)).
      pose proof (strip_length r0) as Hl.
      rewrite spaceless_string_eq, strip_append in HZ by exact Hc.
      unfold raw_strings, keywords in HZ. cbn [List.map parsy.alt] in HZ.
      unfold parsy.or_ in HZ. rewrite string_match_kw, E0 in HZ.
      specialize (HZ eq_refl). lia. }
    apply (ty_top c tl Hc d (t ++ ws) v E'); [| | |exact K4].
    + apply (table_calm c tl Hc). eapply Forall_impl; [|exact zoned_or_word].
      intros e He. eapply Forall_impl; [|exact He].
      intros k [Hk | ->]; [now apply match_kw_word | exact Hz].
    + apply (keyword_calm c tl Hc).
      repeat constructor; now apply match_kw_word.
    + intros _ _. exact K3.
Qed.

(** ** The claims *)

(** C1. For every text [t] that the primitive, decimal, map or struct
    production matches entirely, and every [n >= 1], [t] followed by [n]
    bracket suffixes parses to [n] applications of [Array] to the type that
    [t] alone parses to, the innermost being that type; and
    [parse "int[][]"] is [Array (Array int32)], two levels deep. *)
Theorem array_suffixes_nest (d : Z * Z) (t : text) (v : DataType) (n : nat) :
  non_pg_array_type d (ty d) t = Some (v, []) ->
  1 <= n ->
  parse t d = parsy.Ok v /\
  parse (t ++ suffixes n) d = parsy.Ok (Nat.iter n dt.Array v) /\
  parse (T "int[][]") d = parsy.Ok (dt.Array (dt.Array dt.int32)).
Proof.
  intros H Hn. split; [|split].
  - now apply parse_ok_iff, ty_of_non_pg_array_type.
  - apply parse_ok_iff. destruct n as [|n]; [lia|].
    rewrite ty_unfold.
    unfold ty_body, pg_array, parsy.at_least1, parsy.or_, parsy.bind,
      parsy.map, parsy.success.
    rewrite suffixes_S.
    rewrite (non_pg_array_type_ty_extends "[" _ eq_refl eq_refl
               ltac:(discriminate) d t v [] H ltac:(discriminate)).
    cbn [app]. rewrite brackets_step, strip_suffixes.
    rewrite many_brackets_suffixes. cbn [length].
    unfold nth_iterate. now rewrite repeat_length.
  - reflexivity.
Qed.

Lemma array_suffixes_nest_witness :
  non_pg_array_type (18, 3)%Z (ty (18, 3)%Z) (T "decimal(10,2)")
  = Some (dt.Decimal 10 2, []) /\
  parse (T "decimal(10,2)" ++ suffixes 3) (18, 3)%Z
  = parsy.Ok (dt.Array (dt.Array (dt.Array (dt.Decimal 10 2)))).
Proof.
  split; [reflexivity|].
  apply (array_suffixes_nest (18, 3)%Z (T "decimal(10,2)")
           (dt.Decimal 10 2) 3); [reflexivity | lia].
Defined.

(** C3, as amended. The struct production takes zero or more (identifier,
    type) pairs between the parentheses ([sep_by] with its default minimum
    of zero): the grammar matches ["struct()"] with an empty list of pairs,
    [parse] raises no [ParseError] for it, and the empty list is what
    [Struct.from_tuples] is given. *)
Theorem struct_body_may_be_empty (d : Z * Z) :
  parse (T "struct()") d = parsy.Ok (dt.Struct []) /\
  (forall rec s, next_char s = Some ")"%char ->
                 parsy.sep_by (item rec) COMMA s = Some ([], s)).
Proof.
  split; [reflexivity | apply sep_by_empty].
Qed.

Lemma struct_body_may_be_empty_witness :
  next_char (T ")") = Some ")"%char /\
  parsy.sep_by (item parsy.fail) COMMA (T ")") = Some ([], T ")").
Proof.
  split; [reflexivity|].
  apply (proj2 (struct_body_may_be_empty (18, 3)%Z)). reflexivity.
Defined.

(** C3, as stated, fails: parsing ["struct()"] raises no [ParseError]. *)
Lemma struct_empty_body_no_error :
  parse (T "struct()") default_parameters <> parsy.ParseError.
Proof. discriminate. Qed.

(** C5. Each keyword of the timestamp family parses to a [Timestamp] with
    the timezone and scale of the table, and the alias
    ["timestamp with time zone"] is matched before the bare ["timestamp"]
    could match its prefix. *)
Theorem timestamp_family (d : Z * Z) :
  parse (T "timestamp with time zone") d = parsy.Ok (dt.Timestamp UTC None) /\
  parse (T "timestamp_tz") d = parsy.Ok (dt.Timestamp UTC None) /\
  parse (T "datetime") d = parsy.Ok (dt.Timestamp UTC None) /\
  parse (T "timestamp_sec") d = parsy.Ok (dt.Timestamp UTC (Some 0%Z)) /\
  parse (T "timestamp_s") d = parsy.Ok (dt.Timestamp UTC (Some 0%Z)) /\
  parse (T "timestamp_ms") d = parsy.Ok (dt.Timestamp UTC (Some 3%Z)) /\
  parse (T "timestamp_us") d = parsy.Ok (dt.Timestamp UTC (Some 6%Z)) /\
  parse (T "timestamp_ns") d = parsy.Ok (dt.Timestamp UTC (Some 9%Z)) /\
  parse (T "timestamp") d = parsy.Ok (dt.Timestamp UTC None) /\
  primitive (T "timestamp with time zone")
  = Some (dt.Timestamp UTC None, []).
Proof. repeat split; reflexivity. Qed.

(** C9. A decimal or numeric keyword followed by parameters that stop
    after the precision, or after the comma, is a [ParseError]: [decimal]
    reads the parenthesized pair entirely or not at all, and the parameters
    it did not read are left over. *)
Theorem decimal_parameters_all_or_nothing
  (d : Z * Z) (kw : String.string) (ds : text) :
  In kw ["decimal"; "numeric"]%string ->
  digits ds ->
  parse (T kw ++ T "(" ++ ds ++ T ")") d = parsy.ParseError /\
  parse (T kw ++ T "(" ++ ds ++ T ",)") d = parsy.ParseError /\
  ty d (T kw ++ T "(" ++ ds ++ T ")")
  = Some (dt.Decimal (fst d) (snd d), T "(" ++ ds ++ T ")") /\
  parse (T "decimal(10)") d = parsy.ParseError /\
  parse (T "decimal(10,)") d = parsy.ParseError.
Proof.
  intros Hk Hd. destruct (group_partial ds [] Hd) as [E1 E2].
  pose proof (ty_decimal_partial d kw _ Hk E1) as T1.
  pose proof (ty_decimal_partial d kw _ Hk E2) as T2.
  split; [|split; [|split; [exact T1 | destruct d; split; reflexivity]]].
  - apply parse_error_iff. right. eexists _, _. split; [exact T1|].
    discriminate.
  - apply parse_error_iff. right. eexists _, _. split; [exact T2|].
    discriminate.
Qed.

Lemma decimal_parameters_all_or_nothing_witness :
  In "numeric"%string ["decimal"; "numeric"]%string /\
  digits (T "38") /\
  parse (T "numeric" ++ T "(" ++ T "38" ++ T ")") (18, 3)%Z
  = parsy.ParseError.
Proof.
  split; [simpl; tauto|]. split; [repeat constructor|].
  apply (decimal_parameters_all_or_nothing (18, 3)%Z "numeric" (T "38"));
    [simpl; tauto | repeat constructor].
Defined.

(** C10. The character types take no length: ["varchar("] or ["char("]
    followed by anything, and so by any integer and a closing parenthesis,
    is a [ParseError]; the keyword parses to the string type and the
    parenthesis is left over. *)
Theorem character_types_take_no_length (d : Z * Z) :
  (forall n : Z,
     parse (T "varchar(" ++ repr n ++ T ")") d = parsy.ParseError /\
     parse (T "char(" ++ repr n ++ T ")") d = parsy.ParseError) /\
  (forall body : text,
     parse (T "varchar(" ++ body) d = parsy.ParseError /\
     parse (T "char(" ++ body) d = parsy.ParseError /\
     ty d (T "varchar(" ++ body) = Some (dt.string, T "(" ++ body) /\
     ty d (T "char(" ++ body) = Some (dt.string, T "(" ++ body)).
Proof.
  assert (H : forall body : text,
     parse (T "varchar(" ++ body) d = parsy.ParseError /\
     parse (T "char(" ++ body) d = parsy.ParseError /\
     ty d (T "varchar(" ++ body) = Some (dt.string, T "(" ++ body) /\
     ty d (T "char(" ++ body) = Some (dt.string, T "(" ++ body)).
  { intros body. repeat split; vm_compute; reflexivity. }
  split; [|exact H].
  intros n. destruct (H (repr n ++ T ")")) as (H1 & H2 & _). now split.
Qed.

(** C8. Every alias of a primitive group parses to the constant of the
    group, whatever the case of its letters: ["bigint"], ["int8"] and
    ["long"] all parse to [int64], and so does ["BIGINT"]. *)
Theorem primitive_aliases
  (d : Z * Z) (names : list String.string) (v : DataType)
  (alias : String.string) (s : text) :
  In (names, v) primitive_table -> In alias names -> lower s = T alias ->
  parse (T alias) d = parsy.Ok v /\
  parse s d = parsy.Ok v /\
  parse (T "bigint") d = parsy.Ok dt.int64 /\
  parse (T "int8") d = parsy.Ok dt.int64 /\
  parse (T "long") d = parsy.Ok dt.int64 /\
  parse (T "BIGINT") d = parsy.Ok dt.int64.
Proof.
  intros Hg Ha Hs.
  assert (H : forall s', lower s' = T alias -> parse s' d = parsy.Ok v).
  { intros s' Hs'. apply parse_ok_iff, ty_of_non_pg_array_type.
    unfold non_pg_array_type, parsy.or_.
    now rewrite (primitive_any_case names v alias s' Hg Ha Hs'). }
  split; [|split; [now apply H | repeat split; reflexivity]].
  apply H.
  pose proof primitive_table_sound as H'.
  rewrite Forall_forall in H'. specialize (H' _ Hg). cbn [fst] in H'.
  rewrite Forall_forall in H'. now destruct (H' _ Ha).
Qed.

Lemma primitive_aliases_witness :
  lower (T "VarChar") = T "varchar" /\
  parse (T "VarChar") (18, 3)%Z = parsy.Ok dt.string.
Proof.
  split; [reflexivity|].
  apply (primitive_aliases (18, 3)%Z
           ["varchar"; "char"; "bpchar"; "text"; "string"]%string
           dt.string "varchar" (T "VarChar")).
  - unfold primitive_table. simpl. tauto.
  - simpl. tauto.
  - reflexivity.
Defined.

(** C7, as amended. [parse] succeeds only when the whole input is consumed.
    What [ty] leaves after the type it matched starts with no whitespace,
    and when it leaves anything [parse] raises [ParseError] instead of
    returning the type matched so far. Whitespace after a text changes
    nothing to its result. A text [t] that parses, followed by text [g]
    that has a character other than whitespace, is a [ParseError] unless
    [g] continues the type: it is one when [g] starts with no bracket
    suffix and neither [primitive] nor [decimal], run on the whole text,
    reads beyond the whitespace at the start of [g] (as they do for [int]
    followed by [8], for [timestamp] followed by [ with time zone] and for
    [decimal] followed by [(10,2)]). In particular it is one when the
    first character [c] of [g] after that whitespace is no opening
    parenthesis or bracket and either is no letter, digit or underscore,
    or has whitespace before it while the alias [timestamp with time zone]
    does not read beyond that whitespace; ["int x"], ["intx"] and
    ["map(int, text) x"] are errors. *)
Theorem whole_input_consumed
  (d : Z * Z) (t : text) (v : DataType) (r ws g : text)
  (c : ascii) (tl : text) :
  (ty d t = Some (v, r) ->
   strip r = r /\ (r <> [] -> parse t d = parsy.ParseError)) /\
  (blank ws -> parse (t ++ ws) d = parse t d) /\
  (parse t d = parsy.Ok v -> strip g <> [] -> brackets g = None ->
   (forall v' r', primitive (t ++ g) = Some (v', r') ->
                  length (strip g) <= length r') ->
   (forall v' r', decimal d (t ++ g) = Some (v', r') ->
                  length (strip g) <= length r') ->
   parse (t ++ g) d = parsy.ParseError) /\
  (parse t d = parsy.Ok v -> strip g = c :: tl ->
   c <> "["%char -> c <> "("%char ->
   is_ident_char c = false \/
   (strip g <> g /\
    forall k r',
      spaceless_string ["timestamp with time zone"%string] (t ++ g)
      = Some (k, r') -> length (strip g) <= length r') ->
   parse (t ++ g) d = parsy.ParseError) /\
  parse (T "int x") d = parsy.ParseError /\
  parse (T "intx") d = parsy.ParseError /\
  parse (T "map(int, text) x") d = parsy.ParseError /\
  parse (T "int ") d = parsy.Ok dt.int32.
Proof.
  split; [|split; [|split; [|split; [|repeat split; reflexivity]]]].
  - intros E. split; [exact (stripped_ty d t v r E)|].
    intros Hr. apply parse_error_iff. right. now exists v, r.
  - intros Hws. destruct t as [|x t].
    + cbn [app]. unfold parse, parsy.parse, parsy.skip, parsy.bind.
      now rewrite (ty_blank d ws Hws).
    + change ((x :: t) ++ ws) with (pad ws (x :: t)).
      unfold parse, parsy.parse, parsy.skip, parsy.bind, parsy.map, parsy.eof.
      rewrite (respects_pad_ty ws Hws d).
      destruct (ty d (x :: t)) as [[v' [|y r']]|]; reflexivity.
  - intros E Hg Hb H1 H2. apply parse_ok_iff in E.
    apply parse_error_iff. right. exists v, (strip g).
    split; [now apply trailing_text | exact Hg].
  - intros E Es Hb Hp Hsep. apply parse_ok_iff in E.
    apply parse_error_iff. right. exists v, (c :: tl).
    split; [now apply trailing_word | discriminate].
Qed.

Lemma whole_input_consumed_witness :
  (ty (18, 3)%Z (T "int x") = Some (dt.int32, T "x") /\
   parse (T "int x") (18, 3)%Z = parsy.ParseError) /\
  (blank (T "  ") /\
   parse (T "map(int, text)" ++ T "  ") (18, 3)%Z
   = parse (T "map(int, text)") (18, 3)%Z) /\
  parse (T "int" ++ T "x") (18, 3)%Z = parsy.ParseError /\
  parse (T "decimal" ++ T "x") (18, 3)%Z = parsy.ParseError /\
  parse (T "timestamp" ++ T " with") (18, 3)%Z = parsy.ParseError /\
  parse (T "map(int, text)" ++ T ")x") (18, 3)%Z = parsy.ParseError.
Proof.
  split; [|split; [|split; [|split; [|split]]]].
  - split; [vm_compute; reflexivity|].
    refine (proj2 (proj1 (whole_input_consumed (18, 3)%Z
                            (T "int x") dt.int32 (T "x") [] []
                            " " []) _) _);
      [vm_compute; reflexivity | discriminate].
  - split; [repeat constructor|].
    refine (proj1 (proj2 (whole_input_consumed (18, 3)%Z
                            (T "map(int, text)")
                            (dt.Map dt.int32 dt.string) [] (T "  ") []
                            " " [])) _).
    repeat constructor.
  - refine (proj1 (proj2 (proj2 (whole_input_consumed (18, 3)%Z
                            (T "int") dt.int32 [] [] (T "x")
                            " " []))) _ _ _ _ _).
    + vm_compute; reflexivity.
    + discriminate.
    + vm_compute; reflexivity.
    + intros v' r' E. vm_compute in E. injection E as _ <-.
      vm_compute. apply le_n.
    + intros v' r' E. vm_compute in E. discriminate.
  - refine (proj1 (proj2 (proj2 (whole_input_consumed (18, 3)%Z
                            (T "decimal") (dt.Decimal 18 3) [] [] (T "x")
                            " " []))) _ _ _ _ _).
    + vm_compute; reflexivity.
    + discriminate.
    + vm_compute; reflexivity.
    + intros v' r' E. vm_compute in E. discriminate.
    + intros v' r' E. vm_compute in E. injection E as _ <-.
      vm_compute. apply le_n.
  - refine (proj1 (proj2 (proj2 (proj2 (whole_input_consumed (18, 3)%Z
                            (T "timestamp") (dt.Timestamp UTC None) [] []
                            (T " with") "w" (T "ith"))))) _ _ _ _ _).
    + vm_compute; reflexivity.
    + vm_compute; reflexivity.
    + discriminate.
    + discriminate.
    + right. split; [discriminate|].
      intros k r' E. vm_compute in E. discriminate.
  - refine (proj1 (proj2 (proj2 (proj2 (whole_input_consumed (18, 3)%Z
                            (T "map(int, text)")
                            (dt.Map dt.int32 dt.string) [] []
                            (T ")x") ")" (T "x"))))) _ _ _ _ _).
    + vm_compute; reflexivity.
    + vm_compute; reflexivity.
    + discriminate.
    + discriminate.
    + left. reflexivity.
Defined.

(** C7, as stated, fails: a text that parses followed by characters that
    are no whitespace can be a type again. [int] followed by [8] is the
    keyword [int8], [int] followed by [[]] is an array, [timestamp]
    followed by [ with time zone] is the alias with spaces in it, and
    [decimal] followed by [(10,2)] is a decimal with its parameters. *)
Lemma trailing_text_can_continue_type :
  parse (T "int") default_parameters = parsy.Ok dt.int32 /\
  parse (T "int" ++ T "8") default_parameters = parsy.Ok dt.int64 /\
  parse (T "int" ++ T "[]") default_parameters
  = parsy.Ok (dt.Array dt.int32) /\
  parse (T "timestamp") default_parameters
  = parsy.Ok (dt.Timestamp UTC None) /\
  parse (T "timestamp" ++ T " with time zone") default_parameters
  = parsy.Ok (dt.Timestamp UTC None) /\
  parse (T "decimal") default_parameters = parsy.Ok (dt.Decimal 18 3) /\
  parse (T "decimal" ++ T "(10,2)") default_parameters
  = parsy.Ok (dt.Decimal 10 2).
Proof. repeat split; reflexivity. Qed.

(** C4. [parse "decimal(10,2)"] is [Decimal 10 2]; [parse "decimal"] with
    the default argument is [Decimal 18 3], and with any pair [(p, s)] it
    is [Decimal p s]; a decimal with its parenthesized precision and scale
    parses to these whatever the default is: the default is used only when
    the parameters are absent. *)
Theorem decimal_default_parameters
  (d : Z * Z) (p s : Z) (ds1 ds2 : text) :
  digits ds1 -> ds1 <> [] -> digits ds2 -> ds2 <> [] ->
  parse (T "decimal(10,2)") d = parsy.Ok (dt.Decimal 10 2) /\
  parse (T "decimal") default_parameters = parsy.Ok (dt.Decimal 18 3) /\
  parse (T "decimal") (p, s) = parsy.Ok (dt.Decimal p s) /\
  parse (T "decimal(" ++ ds1 ++ T "," ++ ds2 ++ T ")") d
  = parsy.Ok (dt.Decimal (int ds1) (int ds2)) /\
  (forall t k r1,
     spaceless_string ["decimal"; "numeric"]%string t = Some (k, r1) ->
     (forall ps r, prec_scale_group r1 = Some (ps, r) ->
                   decimal d t = Some (dt.Decimal (fst ps) (snd ps), r)) /\
     (prec_scale_group r1 = None ->
      decimal d t = Some (dt.Decimal (fst d) (snd d), r1))).
Proof.
  intros H1 N1 H2 N2.
  split; [destruct d; reflexivity|].
  split; [reflexivity|]. split; [reflexivity|]. split.
  - apply parse_ok_iff.
    apply (ty_decimal_complete d "decimal"
             (ds1 ++ ","%char :: ds2 ++ [")"%char])); [simpl; tauto|].
    apply (group_complete ds1 ds2 [] H1 N1 H2 N2).
  - intros t k r1 E. rewrite decimal_eq.
    unfold parsy.bind, parsy.optional. rewrite E. split.
    + intros [p1 s1] r E1. now rewrite E1.
    + intros E1. rewrite E1. now destruct d.
Qed.

Lemma decimal_default_parameters_witness :
  digits (T "38") /\ digits (T "007") /\
  parse (T "decimal(" ++ T "38" ++ T "," ++ T "007" ++ T ")") (9, 0)%Z
  = parsy.Ok (dt.Decimal 38 7).
Proof.
  split; [repeat constructor|]. split; [repeat constructor|].
  apply (decimal_default_parameters (9, 0)%Z 0%Z 0%Z (T "38") (T "007"));
    try discriminate; repeat constructor.
Defined.

(** C2. A map type is accepted only with a key of the primitive
    alternation: ["map(varchar, struct(a int))"] parses to a map from
    string to the struct and ["map(struct(a int), varchar)"] is a
    [ParseError]; after a key that is any primitive alias the value may be
    any text that parses, and the result maps the primitive to its type; in
    every result of [parse] the keys of all maps are primitive values, none
    of them a decimal, array, map or struct; and a key that starts with the
    decimal, numeric, map or struct keyword, or is a primitive followed by
    a bracket, is a [ParseError]. *)
Theorem map_key_restriction
  (d : Z * Z) (names : list String.string) (k : DataType)
  (alias : String.string) (tv : text) (v : DataType)
  (t : text) (x : DataType) :
  In (names, k) primitive_table -> In alias names ->
  parse tv d = parsy.Ok v ->
  parse t d = parsy.Ok x ->
  parse (T "map(varchar, struct(a int))") d
  = parsy.Ok (dt.Map dt.string (dt.Struct [("a"%string, dt.int32)])) /\
  parse (T "map(struct(a int), varchar)") d = parsy.ParseError /\
  parse (T "map(" ++ T alias ++ T "," ++ tv ++ T ")") d
  = parsy.Ok (dt.Map k v) /\
  map_keys_primitive x /\
  (forall key val, x = dt.Map key val ->
                   is_primitive_value key /\ ~ is_composite key) /\
  (forall kw rest,
     In kw ["decimal"; "numeric"; "map"; "struct"]%string ->
     parse (T "map(" ++ T kw ++ rest) d = parsy.ParseError) /\
  (forall rest,
     parse (T "map(" ++ T alias ++ T "[" ++ rest) d = parsy.ParseError).
Proof.
  intros Hg Ha Hv Hx.
  apply parse_ok_iff in Hv. apply parse_ok_iff in Hx.
  pose proof (yields_ty d t x [] Hx) as Hk.
  repeat apply conj.
  - reflexivity.
  - reflexivity.
  - change (T "map(" ++ T alias ++ T "," ++ tv ++ T ")")
      with (T "map(" ++ T alias ++ ","%char :: tv ++ [")"%char]).
    apply parse_ok_iff, ty_of_non_pg_array_type.
    unfold non_pg_array_type, parsy.or_.
    replace (primitive _) with (@None (DataType * text))
      by (vm_compute; reflexivity).
    replace (decimal d _) with (@None (DataType * text))
      by (vm_compute; reflexivity).
    now rewrite (map_step d names k alias tv v [] Hg Ha Hv).
  - exact Hk.
  - intros key val ->.
    assert (H : is_primitive_value key).
    { inversion Hk as [v' H| | |k' v' H _|]; subst; [|exact H].
      exfalso. apply (primitive_value_not_composite _ H). exact I. }
    split; [exact H | now apply primitive_value_not_composite].
  - intros kw rest [<-|[<-|[<-|[<-|[]]]]]; vm_compute; reflexivity.
  - intros rest. apply parse_error_iff. left.
    now apply (map_array_key d names k alias rest).
Qed.

Lemma map_key_restriction_witness :
  parse (T "struct(a int)[]") (18, 3)%Z
  = parsy.Ok (dt.Array (dt.Struct [("a"%string, dt.int32)])) /\
  parse (T "map(" ++ T "bigint" ++ T "," ++ T "struct(a int)[]" ++ T ")")
    (18, 3)%Z
  = parsy.Ok (dt.Map dt.int64
                (dt.Array (dt.Struct [("a"%string, dt.int32)]))).
Proof.
  split; [vm_compute; reflexivity|].
  refine (proj1 (proj2 (proj2
    (map_key_restriction (18, 3)%Z ["bigint"; "int8"; "long"]%string
       dt.int64 "bigint" (T "struct(a int)[]")
       (dt.Array (dt.Struct [("a"%string, dt.int32)]))
       (T "map(int, int)") (dt.Map dt.int32 dt.int32) _ _ _ _)))).
  - unfold primitive_table. simpl. tauto.
  - simpl. tauto.
  - vm_compute. reflexivity.
  - vm_compute. reflexivity.
Defined.

(** C6. The fields of a parsed struct are the (name, type) pairs of its
    text, in the order of the text, and a name that occurs twice gives two
    fields: for every list of identifiers and of texts that parse, the
    struct whose body lists them parses to the struct of these names and
    types, in that order. *)
Theorem struct_fields_in_order (d : Z * Z) (fs : list given_field) :
  Forall (well_typed d) fs ->
  parse (T "struct(" ++ struct_body fs ++ T ")") d
  = parsy.Ok (dt.Struct (List.map struct_field fs)) /\
  parse (T "struct(a int, b varchar)") d
  = parsy.Ok (dt.Struct [("a"%string, dt.int32); ("b"%string, dt.string)]) /\
  parse (T "struct(a int, a varchar)") d
  = parsy.Ok (dt.Struct [("a"%string, dt.int32); ("a"%string, dt.string)]).
Proof.
  intros Hfs. split; [|split; reflexivity].
  change (T "struct(" ++ struct_body fs ++ T ")")
    with (T "struct(" ++ struct_body fs ++ [")"%char]).
  apply parse_ok_iff, ty_of_non_pg_array_type.
  unfold non_pg_array_type, parsy.or_.
  replace (primitive _) with (@None (DataType * text))
    by (vm_compute; reflexivity).
  replace (decimal d _) with (@None (DataType * text))
    by (vm_compute; reflexivity).
  replace (map (ty d) _) with (@None (DataType * text))
    by (vm_compute; reflexivity).
  now rewrite (struct_step d fs [] Hfs).
Qed.

Lemma struct_fields_in_order_witness :
  parse (T "struct(" ++ T "b map(int, text),a decimal,b int[]" ++ T ")")
    (18, 3)%Z
  = parsy.Ok (dt.Struct [("b"%string, dt.Map dt.int32 dt.string);
                         ("a"%string, dt.Decimal 18 3);
                         ("b"%string, dt.Array dt.int32)]).
Proof.
  apply (struct_fields_in_order (18, 3)%Z
           [(T "b", T "map(int, text)", dt.Map dt.int32 dt.string);
            (T "a", T "decimal", dt.Decimal 18 3);
            (T "b", T "int[]", dt.Array dt.int32)]).
  repeat constructor.
Defined.

(** * Further properties of the grammar *)

(** ** Inputs with nothing but whitespace, and whitespace before a type *)

Lemma strip_blank_app ws s : blank ws -> strip (ws ++ s) = strip s.
Proof.
  induction 1 as [|w ws Hw _ IH]; [reflexivity|].
  cbn [app]. now rewrite strip_space.
Qed.

(** X1. An input that is empty or holds nothing but whitespace is a
    [ParseError]: every production starts with a keyword. *)
Theorem blank_input_is_error (d : Z * Z) (ws : text) :
  blank ws -> parse ws d = parsy.ParseError.
Proof.
  intros H. apply parse_error_iff. left. now apply ty_blank.
Qed.

Lemma blank_input_is_error_witness :
  blank (T "  ") /\ parse (T "  ") (18, 3)%Z = parsy.ParseError /\
  parse [] (18, 3)%Z = parsy.ParseError.
Proof.
  split; [repeat constructor|]. split.
  - apply (blank_input_is_error (18, 3)%Z (T "  ")). repeat constructor.
  - apply (blank_input_is_error (18, 3)%Z []). constructor.
Defined.

(** X2. Whitespace before a text changes nothing to what [parse] returns
    for it, a type or a [ParseError]. *)
Theorem leading_whitespace_ignored (d : Z * Z) (ws t : text) :
  blank ws -> parse (ws ++ t) d = parse t d.
Proof.
  intros H. unfold parse, parsy.parse, parsy.skip, parsy.bind.
  now rewrite <- (lead_ty d (ws ++ t)), (strip_blank_app ws t H), lead_ty.
Qed.

Lemma leading_whitespace_ignored_witness :
  blank (T "   ") /\
  parse (T "   " ++ T "struct(a int)") (18, 3)%Z
  = parse (T "struct(a int)") (18, 3)%Z.
Proof.
  split; [repeat constructor|].
  apply (leading_whitespace_ignored (18, 3)%Z (T "   ") (T "struct(a int)")).
  repeat constructor.
Defined.

(** ** The two keywords of [decimal] *)

Lemma decimal_keyword kw rest :
  In kw ["decimal"; "numeric"]%string ->
  exists k, spaceless_string ["decimal"; "numeric"]%string (T kw ++ rest)
            = Some (k, strip rest).
Proof.
  intros H. exists (T kw). rewrite spaceless_string_eq.
  replace (strip (T kw ++ rest)) with (T kw ++ rest)
    by (destruct H as [<-|[<-|[]]]; symmetry; cbn [T list_ascii_of_string app];
        apply strip_cons; reflexivity).
  replace (raw_strings _ _) with (Some (T kw, rest))
    by (destruct H as [<-|[<-|[]]]; vm_compute; reflexivity).
  reflexivity.
Qed.

(** X3. [numeric] and [decimal] are one keyword: wherever a type is read,
    a text that starts with one is read as the text that starts with the
    other, with the same type and the same input left, and [parse] gives
    the same result for both. *)
Theorem numeric_is_decimal (d : Z * Z) (rest : text) :
  ty d (T "numeric" ++ rest) = ty d (T "decimal" ++ rest) /\
  parse (T "numeric" ++ rest) d = parse (T "decimal" ++ rest) d.
Proof.
  assert (Hd : decimal d (T "numeric" ++ rest)
               = decimal d (T "decimal" ++ rest)).
  { rewrite !decimal_eq. unfold parsy.bind.
    destruct (decimal_keyword "numeric" rest) as [k1 ->]; [simpl; tauto|].
    destruct (decimal_keyword "decimal" rest) as [k2 ->]; [simpl; tauto|].
    reflexivity. }
  assert (Hn : forall rec, non_pg_array_type d rec (T "numeric" ++ rest)
                           = non_pg_array_type d rec (T "decimal" ++ rest)).
  { intros rec. unfold non_pg_array_type, parsy.or_.
    replace (primitive (T "numeric" ++ rest)) with (@None (DataType * text))
      by (vm_compute; reflexivity).
    replace (primitive (T "decimal" ++ rest)) with (@None (DataType * text))
      by (vm_compute; reflexivity).
    rewrite Hd.
    destruct (decimal d (T "decimal" ++ rest)) as [x|] eqn:E; [reflexivity|].
    exfalso. rewrite decimal_eq in E. unfold parsy.bind, parsy.optional in E.
    destruct (decimal_keyword "decimal" rest) as [k2 E2]; [simpl; tauto|].
    rewrite E2 in E.
    destruct (prec_scale_group (strip rest)) as [[[p s] r]|];
      [discriminate | destruct d; discriminate]. }
  assert (Ht : ty d (T "numeric" ++ rest) = ty d (T "decimal" ++ rest)).
  { rewrite !ty_unfold. unfold ty_body, pg_array, parsy.or_, parsy.bind.
    now rewrite Hn. }
  split; [exact Ht|].
  unfold parse, parsy.parse, parsy.skip, parsy.bind. now rewrite Ht.
Qed.

(** ** The loops and the recursion end *)

(** X4. [ty] is the alternation of [pg_array] and [non_pg_array_type]
    whose nested types are read by [ty] itself; whenever it, one bracket
    suffix or one further field of a struct is read, input is consumed, so
    that the loops of [at_least] and [sep_by] and the recursion through
    [map] and [struct] end; and the depth that an input needs is bounded by
    its length. *)
Theorem ty_consumes_and_ends (d : Z * Z) :
  (forall s, ty d s = ty_body d (ty d) s) /\
  (forall s v r, ty d s = Some (v, r) -> length r < length s) /\
  (forall s u r, brackets s = Some (u, r) -> length r < length s) /\
  (forall s f r,
     parsy.then_ COMMA (item (ty d)) s = Some (f, r) -> length r < length s) /\
  (forall n s, length s <= n -> ty_fuel d n s = ty d s).
Proof.
  split; [apply ty_unfold|]. split; [apply consuming_ty|].
  split; [apply consuming_brackets|]. split.
  - apply consuming_sep_item, consuming_nonincr, consuming_ty.
  - intros n s. apply ty_at_fuel.
Qed.

Lemma ty_consumes_and_ends_witness :
  ty (18, 3)%Z (T "int[] , x") = Some (dt.Array dt.int32, T ", x") /\
  length (T ", x") < length (T "int[] , x").
Proof.
  split; [vm_compute; reflexivity|].
  refine (proj1 (proj2 (ty_consumes_and_ends (18, 3)%Z))
            (T "int[] , x") (dt.Array dt.int32) (T ", x") _).
  vm_compute. reflexivity.
Defined.

(** ** Arrays come from bracket suffixes only *)

Lemma primitive_value_not_array v : is_primitive_value v -> ~ is_array v.
Proof.
  intros H Ha. apply (primitive_value_not_composite v H).
  now destruct v.
Qed.

Lemma non_pg_array_type_not_array d rec :
  yields (fun v => ~ is_array v) (non_pg_array_type d rec).
Proof.
  apply yields_or; [apply yields_or; [apply yields_or|]|].
  - intros s v r E. apply primitive_value_not_array.
    now apply yields_primitive in E.
  - rewrite decimal_eq. apply (yields_bind (fun _ => True));
      [apply yields_true|].
    intros _ _. apply (yields_bind (fun _ => True)); [apply yields_true|].
    intros [[p s]|] _; [|destruct d]; apply yields_success; intros [].
  - do 6 (apply (yields_bind (fun _ => True)); [apply yields_true|];
          intros ? _).
    apply yields_success. intros [].
  - rewrite struct_item.
    do 4 (apply (yields_bind (fun _ => True)); [apply yields_true|];
          intros ? _).
    apply yields_success. intros [].
Qed.

Lemma array_depth_iterate n v :
  ~ is_array v -> array_depth (Nat.iter n dt.Array v) = n.
Proof.
  intros H. induction n as [|n IH]; simpl; [|now rewrite IH].
  destruct v; try reflexivity. now elim H.
Qed.

(** X5. The type that [parse] returns is the type of the primitive,
    decimal, map or struct production at the start of the text, which is
    never an array, inside one [Array] for each bracket suffix read after
    it: the depth of the arrays around it is the number of these
    suffixes. *)
Theorem array_depth_counts_suffixes (d : Z * Z) (t : text) (v : DataType) :
  parse t d = parsy.Ok v ->
  exists base r0 bs,
    non_pg_array_type d (ty d) t = Some (base, r0) /\
    parsy.many brackets r0 = Some (bs, []) /\
    ~ is_array base /\
    v = Nat.iter (length bs) dt.Array base /\
    array_depth v = length bs.
Proof.
  intros H. apply parse_ok_iff in H. rewrite ty_unfold in H.
  unfold ty_body, pg_array, parsy.at_least1, parsy.or_, parsy.bind,
    parsy.map, parsy.success in H.
  destruct (non_pg_array_type d (ty d) t) as [[base r0]|] eqn:E0;
    [|discriminate].
  pose proof (non_pg_array_type_not_array d (ty d) t base r0 E0) as Hb.
  exists base, r0.
  destruct (brackets r0) as [[u r1]|] eqn:E1.
  - destruct (parsy.many brackets r1) as [[bs r2]|] eqn:E2;
      [|unfold parsy.many in E2; discriminate].
    cbv beta iota in H. injection H as <- ->.
    exists (u :: bs). rewrite many_unfold by exact consuming_brackets.
    rewrite E1. unfold parsy.map. rewrite E2.
    repeat split; [exact Hb|].
    exact (array_depth_iterate (S (length bs)) base Hb).
  - cbv beta iota in H. injection H as <- ->.
    exists []. repeat split; [exact Hb|].
    destruct base; try reflexivity. now elim Hb.
Qed.

Lemma array_depth_counts_suffixes_witness :
  parse (T "map(int, text[]) [ ][]") (18, 3)%Z
  = parsy.Ok (dt.Array (dt.Array (dt.Map dt.int32 (dt.Array dt.string)))) /\
  exists base r0 bs,
    non_pg_array_type (18, 3)%Z (ty (18, 3)%Z) (T "map(int, text[]) [ ][]")
    = Some (base, r0) /\
    parsy.many brackets r0 = Some (bs, []) /\
    ~ is_array base /\
    dt.Array (dt.Array (dt.Map dt.int32 (dt.Array dt.string)))
    = Nat.iter (length bs) dt.Array base /\
    array_depth (dt.Array (dt.Array (dt.Map dt.int32 (dt.Array dt.string))))
    = length bs.
Proof.
  split; [vm_compute; reflexivity|].
  apply (array_depth_counts_suffixes (18, 3)%Z (T "map(int, text[]) [ ][]")).
  vm_compute. reflexivity.
Defined.

(** ** What the types of a result are made of *)

Lemma span_class f s : Forall (fun x => f x = true) (fst (span f s)).
Proof.
  induction s as [|x s IH]; simpl; [constructor|].
  destruct (f x) eqn:E; [|constructor].
  destruct (span f s) as [m r]; simpl in *. now constructor.
Qed.

Lemma digit_value x : is_digit x = true -> (0 <= Z.of_N (code x) - 48)%Z.
Proof.
  unfold is_digit, between. intros H.
  apply andb_true_iff in H as [H _]. apply N.leb_le in H. lia.
Qed.

Lemma int_nonneg ds : digits ds -> (0 <= int ds)%Z.
Proof.
  unfold int.
  assert (H : forall ds, digits ds -> forall acc, (0 <= acc)%Z ->
            (0 <= fold_left
                    (fun acc c => 10 * acc + (Z.of_N (code c) - 48)) ds acc)%Z).
  { clear. induction 1 as [|x ds Hx _ IH]; intros acc Hacc;
      cbn [fold_left]; [exact Hacc|].
    apply IH. apply digit_value in Hx. lia. }
  intros Hd. apply (H ds Hd 0%Z). lia.
Qed.

Lemma yields_spaceless {A} (P : A -> Prop) (p : parsy.parser A) :
  yields P p -> yields P (spaceless p).
Proof.
  intros Hp s v r. rewrite spaceless_eq.
  destruct (p (strip s)) as [[v1 r1]|] eqn:E; [|discriminate].
  intros E2. injection E2 as <- _. now apply Hp in E.
Qed.

Lemma yields_NUMBER : yields (fun z => (0 <= z)%Z) NUMBER.
Proof.
  apply yields_spaceless. intros s v r.
  pose proof (span_class is_digit s) as H.
  destruct (span is_digit s) as [[|x ds] r']; [discriminate|].
  intros E. injection E as <- _. now apply int_nonneg.
Qed.

Lemma yields_group :
  yields (fun ps => (0 <= fst ps /\ 0 <= snd ps)%Z) prec_scale_group.
Proof.
  unfold prec_scale_group, parsy.skip, parsy.then_.
  apply (yields_bind (fun ps => (0 <= fst ps /\ 0 <= snd ps)%Z)).
  - apply (yields_bind (fun _ => True)); [apply yields_true|].
    intros _ _. apply (yields_bind (fun z => (0 <= z)%Z)).
    + apply (yields_bind (fun z => (0 <= z)%Z)); [apply yields_NUMBER|].
      intros z Hz. apply (yields_map (fun _ => True)); [apply yields_true|].
      intros _ _. exact Hz.
    + intros prec Hp. apply (yields_bind (fun z => (0 <= z)%Z));
        [apply yields_NUMBER|].
      intros sc Hs. apply yields_success. now split.
  - intros ps Hps. apply (yields_map (fun _ => True)); [apply yields_true|].
    intros _ _. exact Hps.
Qed.

Lemma yields_decimal_built d : yields (built d) (decimal d).
Proof.
  rewrite decimal_eq. apply (yields_bind (fun _ => True));
    [apply yields_true|].
  intros _ _.
  apply (yields_bind
           (fun o => match o with
                     | Some ps => (0 <= fst ps /\ 0 <= snd ps)%Z
                     | None => True
                     end)).
  - intros s v r. unfold parsy.optional.
    destruct (prec_scale_group s) as [[ps r1]|] eqn:E; intros E2;
      injection E2 as <- _; [|exact I].
    now apply yields_group in E.
  - intros [[p s]|] H; [|destruct d]; apply yields_success, built_decimal;
      [now right | now left].
Qed.

Section Built.

Variable d : Z * Z.
Variable rec : parsy.parser DataType.
Hypothesis rec_built : yields (built d) rec.

Lemma yields_map_built : yields (built d) (map rec).
Proof.
  apply (yields_bind (fun _ => True)); [apply yields_true|].
  intros _ _. apply (yields_bind (fun _ => True)); [apply yields_true|].
  intros _ _. apply (yields_bind is_primitive_value);
    [apply yields_primitive|].
  intros k Hk. apply (yields_bind (fun _ => True)); [apply yields_true|].
  intros _ _. apply (yields_bind (built d)); [exact rec_built|].
  intros v Hv. apply (yields_bind (fun _ => True)); [apply yields_true|].
  intros _ _. apply yields_success. now apply built_map.
Qed.

Lemma yields_item_built : yields (fun f => built d (snd f)) (item rec).
Proof.
  apply (yields_bind (fun _ => True)); [apply yields_true|].
  intros name _. apply (yields_bind (built d)); [exact rec_built|].
  intros v Hv. now apply yields_success.
Qed.

Lemma yields_struct_built : yields (built d) (struct rec).
Proof.
  rewrite struct_item.
  apply (yields_bind (fun _ => True)); [apply yields_true|].
  intros _ _. apply (yields_bind (fun _ => True)); [apply yields_true|].
  intros _ _.
  apply (yields_bind (Forall (fun f => built d (snd f)))).
  - apply yields_or; [|apply yields_success; constructor].
    apply (yields_bind (fun f => built d (snd f)));
      [apply yields_item_built|].
    intros f Hf.
    apply (yields_map (Forall (fun f => built d (snd f)))).
    + apply yields_many.
      apply (yields_bind (fun _ => True)); [apply yields_true|].
      intros _ _. apply yields_item_built.
    + intros fs Hfs. now constructor.
  - intros fs Hfs. apply (yields_bind (fun _ => True)); [apply yields_true|].
    intros _ _. apply yields_success. now apply built_struct.
Qed.

Lemma yields_ty_body_built : yields (built d) (ty_body d rec).
Proof.
  assert (H : yields (built d) (non_pg_array_type d rec)).
  { apply yields_or; [apply yields_or; [apply yields_or|]|].
    - intros s v r E. apply built_primitive. now apply yields_primitive in E.
    - apply yields_decimal_built.
    - apply yields_map_built.
    - apply yields_struct_built. }
  apply yields_or; [|exact H].
  apply (yields_bind (built d)); [exact H|].
  intros v Hv. apply (yields_bind (fun _ => True)); [apply yields_true|].
  intros bs _. apply yields_success. unfold nth_iterate.
  induction (length bs) as [|n IH]; [exact Hv|]. simpl. now apply built_array.
Qed.

End Built.

Lemma yields_ty_built d : yields (built d) (ty d).
Proof.
  assert (H : forall n, yields (built d) (ty_fuel d n)).
  { induction n as [|n IH]; simpl; apply yields_ty_body_built;
      [apply yields_fail | exact IH]. }
  intros s v r E. unfold ty in E. now apply H in E.
Qed.

Lemma primitive_occurs u v : is_primitive_value v -> occurs u v -> u = v.
Proof.
  intros Hv H. destruct H; try reflexivity;
    exfalso; apply (primitive_value_not_composite _ Hv); exact I.
Qed.

(** What occurs in a built type is built. *)
Lemma built_occurs d u v : built d v -> occurs u v -> built d u.
Proof.
  intros Hv H. induction H as [|v _ IH|k v _ IH|k v _ IH|fs name v Hin _ IH].
  - exact Hv.
  - apply IH. inversion Hv as [x Hx| |x Hx| |]; subst; [|exact Hx].
    exfalso. apply (primitive_value_not_composite _ Hx). exact I.
  - apply IH. inversion Hv as [x Hx| | |k' x Hk Hx|]; subst;
      [|now apply built_primitive].
    exfalso. apply (primitive_value_not_composite _ Hx). exact I.
  - apply IH. inversion Hv as [x Hx| | |k' x Hk Hx|]; subst; [|exact Hx].
    exfalso. apply (primitive_value_not_composite _ Hx). exact I.
  - apply IH. inversion Hv as [x Hx| | | |fs' Hfs]; subst.
    + exfalso. apply (primitive_value_not_composite _ Hx). exact I.
    + rewrite Forall_forall in Hfs. exact (Hfs _ Hin).
Qed.

(** X6. Every timestamp in a type that [parse] returns, at any depth, has
    the timezone UTC and a scale that is absent or 0, 3, 6 or 9: no keyword
    gives a timestamp without a timezone. *)
Theorem timestamps_are_utc
  (d : Z * Z) (t : text) (v : DataType)
  (timezone : option String.string) (scale : option Z) :
  parse t d = parsy.Ok v ->
  occurs (dt.Timestamp timezone scale) v ->
  timezone = UTC /\ In scale timestamp_scales.
Proof.
  intros H Ho. apply parse_ok_iff in H. apply yields_ty_built in H.
  pose proof (built_occurs d _ _ H Ho) as Hb.
  inversion Hb as [x Hx| | | |]; subst.
  unfold is_primitive_value, primitive_table in Hx. simpl in Hx.
  unfold timestamp_scales.
  repeat (destruct Hx as [Hx|Hx];
          [try discriminate; injection Hx as <- <-; simpl; tauto|]).
  destruct Hx.
Qed.

Lemma timestamps_are_utc_witness :
  parse (T "struct(at timestamp, m map(int, timestamp_ms[]))") (18, 3)%Z
  = parsy.Ok
      (dt.Struct
         [("at"%string, dt.Timestamp UTC None);
          ("m"%string,
           dt.Map dt.int32 (dt.Array (dt.Timestamp UTC (Some 3%Z))))]) /\
  Some 3%Z <> None /\ In (Some 3%Z) timestamp_scales.
Proof.
  split; [vm_compute; reflexivity|]. split; [discriminate|].
  refine (proj2 (timestamps_are_utc (18, 3)%Z
            (T "struct(at timestamp, m map(int, timestamp_ms[]))")
            _ UTC (Some 3%Z) _ _)).
  - vm_compute. reflexivity.
  - eapply occurs_field; [right; left; reflexivity|].
    apply occurs_value, occurs_array, occurs_here.
Defined.

(** X7. Every decimal in a type that [parse] returns, at any depth, has
    the default parameters or a precision and a scale that are not
    negative: the parameters read from the text are runs of digits. *)
Theorem decimals_are_default_or_natural
  (d : Z * Z) (t : text) (v : DataType) (precision scale : Z) :
  parse t d = parsy.Ok v ->
  occurs (dt.Decimal precision scale) v ->
  (precision, scale) = d \/ (0 <= precision /\ 0 <= scale)%Z.
Proof.
  intros H Ho. apply parse_ok_iff in H. apply yields_ty_built in H.
  pose proof (built_occurs d _ _ H Ho) as Hb.
  inversion Hb as [x Hx|p s Hps| | |]; subst; [|exact Hps].
  exfalso. apply (primitive_value_not_composite _ Hx). exact I.
Qed.

Lemma decimals_are_default_or_natural_witness :
  parse (T "map(int, decimal(4,1))[]") (-1, -1)%Z
  = parsy.Ok (dt.Array (dt.Map dt.int32 (dt.Decimal 4 1))) /\
  ((4, 1)%Z = (-1, -1)%Z \/ (0 <= 4 /\ 0 <= 1)%Z).
Proof.
  split; [vm_compute; reflexivity|].
  apply (decimals_are_default_or_natural (-1, -1)%Z
           (T "map(int, decimal(4,1))[]")
           (dt.Array (dt.Map dt.int32 (dt.Decimal 4 1)))).
  - vm_compute. reflexivity.
  - apply occurs_array, occurs_value, occurs_here.
Defined.

(** ** Two runs of the grammar, on an input and on a changed input *)

Section Simulation.

Variable f : text -> text.

Lemma sim_success {A B} (R : A -> B -> Prop) v1 v2 :
  R v1 v2 -> sim f R (parsy.success v1) (parsy.success v2).
Proof. intros H s. now split. Qed.

Lemma sim_fail {A B} (R : A -> B -> Prop) :
  sim f R (@parsy.fail A) (@parsy.fail B).
Proof. intros s. exact I. Qed.

Lemma sim_bind {A B C D} (Q : A -> B -> Prop) (R : C -> D -> Prop)
  (p1 : parsy.parser A) (p2 : parsy.parser B)
  (k1 : A -> parsy.parser C) (k2 : B -> parsy.parser D) :
  sim f Q p1 p2 -> (forall v1 v2, Q v1 v2 -> sim f R (k1 v1) (k2 v2)) ->
  sim f R (parsy.bind p1 k1) (parsy.bind p2 k2).
Proof.
  intros Hp Hk s. unfold parsy.bind. specialize (Hp s).
  destruct (p1 (f s)) as [[v1 r1]|], (p2 s) as [[v2 r2]|]; try easy.
  destruct Hp as [HQ ->]. apply (Hk v1 v2 HQ r2).
Qed.

Lemma sim_map {A B C D} (Q : A -> B -> Prop) (R : C -> D -> Prop)
  (g1 : A -> C) (g2 : B -> D) (p1 : parsy.parser A) (p2 : parsy.parser B) :
  sim f Q p1 p2 -> (forall v1 v2, Q v1 v2 -> R (g1 v1) (g2 v2)) ->
  sim f R (parsy.map g1 p1) (parsy.map g2 p2).
Proof.
  intros Hp Hg s. unfold parsy.map. specialize (Hp s).
  destruct (p1 (f s)) as [[v1 r1]|], (p2 s) as [[v2 r2]|]; try easy.
  destruct Hp as [HQ ->]. split; [now apply Hg | reflexivity].
Qed.

Lemma sim_or {A B} (R : A -> B -> Prop)
  (p1 q1 : parsy.parser A) (p2 q2 : parsy.parser B) :
  sim f R p1 p2 -> sim f R q1 q2 ->
  sim f R (parsy.or_ p1 q1) (parsy.or_ p2 q2).
Proof.
  intros Hp Hq s. unfold parsy.or_. specialize (Hp s).
  destruct (p1 (f s)) as [[v1 r1]|], (p2 s) as [[v2 r2]|]; try easy.
  apply Hq.
Qed.

Lemma sim_optional {A B} (R : A -> B -> Prop)
  (p1 : parsy.parser A) (p2 : parsy.parser B) :
  sim f R p1 p2 ->
  sim f (option_rel R) (parsy.optional p1) (parsy.optional p2).
Proof.
  intros Hp s. unfold parsy.optional. specialize (Hp s).
  destruct (p1 (f s)) as [[v1 r1]|], (p2 s) as [[v2 r2]|]; try easy.
Qed.

Lemma sim_many {A B} (R : A -> B -> Prop)
  (p1 : parsy.parser A) (p2 : parsy.parser B) :
  consuming p1 -> consuming p2 -> sim f R p1 p2 ->
  sim f (Forall2 R) (parsy.many p1) (parsy.many p2).
Proof.
  intros H1 H2 Hp s. remember (length s) as n eqn:Hn.
  assert (Hle : length s <= n) by lia. clear Hn. revert s Hle.
  induction n as [|n IH]; intros s Hle;
    rewrite (many_unfold p1 (f s) H1), (many_unfold p2 s H2);
    specialize (Hp s);
    destruct (p1 (f s)) as [[v1 r1]|]; destruct (p2 s) as [[v2 r2]|] eqn:E2;
    try (now elim Hp); try (split; [constructor | reflexivity]);
    destruct Hp as [HR ->]; apply H2 in E2.
  - lia.
  - unfold parsy.map. specialize (IH r2 ltac:(lia)).
    destruct (parsy.many p1 (f r2)) as [[vs1 r1']|],
             (parsy.many p2 r2) as [[vs2 r2']|]; try easy.
    destruct IH as [IH ->]. split; [now constructor | reflexivity].
Qed.

End Simulation.

Lemma sim_weaken {A B} f (Q R : A -> B -> Prop)
  (p : parsy.parser A) (q : parsy.parser B) :
  (forall a b, Q a b -> R a b) -> sim f Q p q -> sim f R p q.
Proof.
  intros H Hp s. specialize (Hp s).
  destruct (p (f s)) as [[v1 r1]|], (q s) as [[v2 r2]|]; try easy.
  destruct Hp as [HQ ->]. split; [now apply H | reflexivity].
Qed.

Lemma token_table_primitive : token_table primitive_table = true.
Proof. reflexivity. Qed.

(** The grammar on a changed input, with other default parameters: when
    the atoms go through the change, so does [ty], with results related by
    any relation [R] that the constructors keep. *)
Section GrammarSimulation.

Variable f : text -> text.
Variables d1 d2 : Z * Z.
Variable Rname : String.string -> String.string -> Prop.
Variable R : DataType -> DataType -> Prop.

Hypothesis strip_f : forall s, strip (f s) = f (strip s).
Hypothesis f_nil : forall r, strip r = r -> f r = [] -> r = [].
Hypothesis nil_f : f [] = [].
Hypothesis sim_keyword :
  forall names, forallb token (keywords names) = true ->
  sim f (fun _ _ => True) (spaceless_string names) (spaceless_string names).
Hypothesis sim_NUMBER : sim f eq NUMBER NUMBER.
Hypothesis sim_field : sim f Rname field field.
Hypothesis R_primitive : forall v, is_primitive_value v -> R v v.
Hypothesis R_decimal : forall p s, R (dt.Decimal p s) (dt.Decimal p s).
Hypothesis R_default :
  R (dt.Decimal (fst d1) (snd d1)) (dt.Decimal (fst d2) (snd d2)).
Hypothesis R_array : forall v1 v2, R v1 v2 -> R (dt.Array v1) (dt.Array v2).
Hypothesis R_map :
  forall k v1 v2, R v1 v2 -> R (dt.Map k v1) (dt.Map k v2).
Hypothesis R_struct :
  forall fs1 fs2,
    Forall2 (fun a b => Rname (fst a) (fst b) /\ R (snd a) (snd b)) fs1 fs2 ->
    R (dt.Struct fs1) (dt.Struct fs2).

Lemma sim_spaceless {A B} (Q : A -> B -> Prop)
  (p : parsy.parser A) (q : parsy.parser B) :
  sim f Q p q -> sim f Q (spaceless p) (spaceless q).
Proof.
  intros H s. rewrite !spaceless_eq, strip_f. specialize (H (strip s)).
  destruct (p (f (strip s))) as [[v1 r1]|], (q (strip s)) as [[v2 r2]|];
    try easy.
  destruct H as [HQ ->]. split; [exact HQ | apply strip_f].
Qed.

Lemma sim_punct x :
  is_punct x = true ->
  sim f (fun _ _ => True) (spaceless_string [String x EmptyString])
    (spaceless_string [String x EmptyString]).
Proof.
  intros Hx. apply sim_keyword. unfold is_punct in Hx. simpl in Hx.
  repeat (apply orb_true_iff in Hx as [Hx|Hx];
          [apply Ascii.eqb_eq in Hx; subst x; reflexivity|]).
  discriminate.
Qed.

Lemma sim_table tbl :
  token_table tbl = true ->
  sim f (fun v1 v2 : DataType => v1 = v2 /\ In v1 (List.map snd tbl))
    (parsy.alt
       (List.map
          (fun '(names, v) => parsy.result_ (spaceless_string names) v) tbl))
    (parsy.alt
       (List.map
          (fun '(names, v) => parsy.result_ (spaceless_string names) v) tbl)).
Proof.
  induction tbl as [|[names v] tbl IH]; intros H; simpl; [apply sim_fail|].
  simpl in H. apply andb_true_iff in H as [Hk H].
  apply sim_or.
  - apply (sim_map f (fun _ _ => True)); [now apply sim_keyword|].
    intros _ _ _. split; [reflexivity | now left].
  - apply (sim_weaken f (fun v1 v2 => v1 = v2 /\ In v1 (List.map snd tbl)));
      [|now apply IH].
    intros a b [-> Hin]. split; [reflexivity | now right].
Qed.

Lemma sim_primitive :
  sim f (fun v1 v2 => v1 = v2 /\ is_primitive_value v1) primitive primitive.
Proof. apply sim_table, token_table_primitive. Qed.

Lemma sim_brackets : sim f (fun _ _ => True) brackets brackets.
Proof.
  apply (sim_bind f (fun _ _ => True));
    [apply sim_spaceless, sim_punct; reflexivity|].
  intros _ _ _. apply (sim_bind f (fun _ _ => True));
    [apply sim_spaceless, sim_punct; reflexivity|].
  intros _ _ _. now apply sim_success.
Qed.

Lemma sim_group : sim f eq prec_scale_group prec_scale_group.
Proof.
  apply (sim_bind f eq).
  - apply (sim_bind f (fun _ _ => True)); [apply sim_punct; reflexivity|].
    intros _ _ _. apply (sim_bind f eq).
    + apply (sim_bind f eq); [exact sim_NUMBER|].
      intros z _ <-. apply (sim_map f (fun _ _ => True));
        [apply sim_punct; reflexivity | reflexivity].
    + intros prec _ <-. apply (sim_bind f eq); [exact sim_NUMBER|].
      intros sc _ <-. now apply sim_success.
  - intros ps _ <-. apply (sim_map f (fun _ _ => True));
      [apply sim_punct; reflexivity | reflexivity].
Qed.

Lemma sim_decimal : sim f R (decimal d1) (decimal d2).
Proof.
  rewrite !decimal_eq. apply (sim_bind f (fun _ _ => True));
    [apply sim_keyword; reflexivity|].
  intros _ _ _. apply (sim_bind f (option_rel eq));
    [apply sim_optional, sim_group|].
  intros [[p s]|] [[p' s']|] H; try easy.
  - injection H as <- <-. apply sim_success, R_decimal.
  - destruct d1, d2. apply sim_success, R_default.
Qed.

Section Nested.

Variables rec1 rec2 : parsy.parser DataType.
Hypothesis rec1_nonincr : nonincr rec1.
Hypothesis rec2_nonincr : nonincr rec2.
Hypothesis sim_rec : sim f R rec1 rec2.

Lemma sim_item :
  sim f (fun a b => Rname (fst a) (fst b) /\ R (snd a) (snd b))
    (item rec1) (item rec2).
Proof.
  apply (sim_bind f Rname); [exact sim_field|].
  intros n1 n2 Hn. apply (sim_bind f R); [exact sim_rec|].
  intros v1 v2 Hv. apply sim_success. now split.
Qed.

Lemma sim_map_production : sim f R (map rec1) (map rec2).
Proof.
  apply (sim_bind f (fun _ _ => True)); [apply sim_keyword; reflexivity|].
  intros _ _ _. apply (sim_bind f (fun _ _ => True));
    [apply sim_punct; reflexivity|].
  intros _ _ _. apply (sim_bind f _ _ _ _ _ _ sim_primitive).
  intros k _ [<- Hk]. apply (sim_bind f (fun _ _ => True));
    [apply sim_punct; reflexivity|].
  intros _ _ _. apply (sim_bind f R); [exact sim_rec|].
  intros v1 v2 Hv. apply (sim_bind f (fun _ _ => True));
    [apply sim_punct; reflexivity|].
  intros _ _ _. apply sim_success. now apply R_map.
Qed.

Lemma sim_struct : sim f R (struct rec1) (struct rec2).
Proof.
  rewrite !struct_item.
  apply (sim_bind f (fun _ _ => True)); [apply sim_keyword; reflexivity|].
  intros _ _ _. apply (sim_bind f (fun _ _ => True));
    [apply sim_punct; reflexivity|].
  intros _ _ _.
  apply (sim_bind f
           (Forall2 (fun a b => Rname (fst a) (fst b) /\ R (snd a) (snd b)))).
  - apply sim_or; [|apply sim_success; constructor].
    apply (sim_bind f _ _ _ _ _ _ sim_item).
    intros a b Hab.
    apply (sim_map f
             (Forall2
                (fun a b => Rname (fst a) (fst b) /\ R (snd a) (snd b)))).
    + apply sim_many.
      * apply consuming_sep_item, rec1_nonincr.
      * apply consuming_sep_item, rec2_nonincr.
      * apply (sim_bind f (fun _ _ => True));
          [apply sim_punct; reflexivity|].
        intros _ _ _. exact sim_item.
    + intros fs1 fs2 Hfs. now constructor.
  - intros fs1 fs2 Hfs. apply (sim_bind f (fun _ _ => True));
      [apply sim_punct; reflexivity|].
    intros _ _ _. apply sim_success. now apply R_struct.
Qed.

Lemma sim_non_pg_array_type :
  sim f R (non_pg_array_type d1 rec1) (non_pg_array_type d2 rec2).
Proof.
  apply sim_or; [apply sim_or; [apply sim_or|]|].
  - apply (sim_weaken f (fun v1 v2 => v1 = v2 /\ is_primitive_value v1));
      [|exact sim_primitive].
    intros a b [-> H]. now apply R_primitive.
  - apply sim_decimal.
  - apply sim_map_production.
  - apply sim_struct.
Qed.

Lemma sim_ty_body : sim f R (ty_body d1 rec1) (ty_body d2 rec2).
Proof.
  apply sim_or; [|apply sim_non_pg_array_type].
  apply (sim_bind f R); [apply sim_non_pg_array_type|].
  intros v1 v2 Hv.
  apply (sim_bind f (Forall2 (fun _ _ : unit => True))).
  - apply (sim_bind f (fun _ _ => True)); [apply sim_brackets|].
    intros u1 u2 _.
    apply (sim_map f (Forall2 (fun _ _ : unit => True)));
      [|intros; now constructor].
    apply sim_many; [apply consuming_brackets.. | apply sim_brackets].
  - intros bs1 bs2 Hbs. apply sim_success.
    rewrite (Forall2_length Hbs). unfold nth_iterate.
    induction (length bs2) as [|n IH]; [exact Hv | now apply R_array].
Qed.

End Nested.

Lemma sim_ty_fuel n : sim f R (ty_fuel d1 n) (ty_fuel d2 n).
Proof.
  induction n as [|n IH]; simpl; apply sim_ty_body;
    try apply nonincr_fail; try apply consuming_nonincr, consuming_ty_fuel.
  - apply sim_fail.
  - exact IH.
Qed.

Lemma sim_ty : sim f R (ty d1) (ty d2).
Proof.
  intros s.
  pose proof (sim_ty_fuel (Nat.max (length (f s)) (length s)) s) as H.
  rewrite !ty_at_fuel in H by lia. exact H.
Qed.

(** [parse] accepts the changed input exactly when it accepts the input,
    with related types. *)
Lemma sim_parse s :
  match parse (f s) d1, parse s d2 with
  | parsy.Ok v1, parsy.Ok v2 => R v1 v2
  | parsy.ParseError, parsy.ParseError => True
  | _, _ => False
  end.
Proof.
  unfold parse, parsy.parse, parsy.skip, parsy.bind, parsy.map, parsy.eof.
  pose proof (sim_ty s) as H.
  destruct (ty d1 (f s)) as [[v1 r1]|], (ty d2 s) as [[v2 r2]|] eqn:E2;
    try easy.
  destruct H as [HR ->]. apply stripped_ty in E2.
  destruct r2 as [|x r2]; [now rewrite nil_f|].
  destruct (f (x :: r2)) eqn:E; [|exact I].
  now apply f_nil in E.
Qed.

End GrammarSimulation.

(** ** The default parameters *)

Lemma sim_same {A} (p : parsy.parser A) : sim (fun s => s) eq p p.
Proof. intros s. now destruct (p s) as [[v r]|]. Qed.

(** *** Types as they are written *)

Lemma many_brackets_more n :
  forall s bs, length s <= n ->
  parsy.many brackets s = Some (bs, []) ->
  parsy.many brackets (s ++ T "[]") = Some (bs ++ [tt], []).
Proof.
  induction n as [|n IH]; intros s bs Hn; rewrite many_unfold
    by exact consuming_brackets;
    (destruct (brackets s) as [[v1 r1]|] eqn:E1;
     [| intros E; injection E as <- ->;
        exact (many_brackets_suffixes 1)]).
  - apply consuming_brackets in E1. lia.
  - unfold parsy.map.
    destruct (parsy.many brackets r1) as [[bs1 r2]|] eqn:E2;
      [|discriminate].
    intros E. injection E as <- ->.
    rewrite many_unfold by exact consuming_brackets.
    change (T "[]") with ("["%char :: T "]").
    rewrite (extends_brackets "[" (T "]") eq_refl _ _ _ E1).
    change ("["%char :: T "]") with (T "[]").
    unfold parsy.map. apply consuming_brackets in E1.
    now rewrite (IH r1 bs1 ltac:(lia) E2).
Qed.

(** A type that is read entirely, followed by one more bracket suffix. *)
Lemma ty_suffix d t v :
  ty d t = Some (v, []) -> ty d (t ++ T "[]") = Some (dt.Array v, []).
Proof.
  rewrite !ty_unfold.
  unfold ty_body, pg_array, parsy.at_least1, parsy.or_, parsy.bind,
    parsy.map, parsy.success.
  destruct (non_pg_array_type d (ty d) t) as [[v0 r0]|] eqn:E0;
    [|discriminate].
  assert (Hnp : next_char r0 <> Some "("%char ->
                non_pg_array_type d (ty d) (t ++ T "[]")
                = Some (v0, r0 ++ T "[]"))
    by (apply (non_pg_array_type_ty_extends "[" (T "]") eq_refl eq_refl);
        [discriminate | exact E0]).
  destruct (brackets r0) as [[u r1]|] eqn:E1.
  - destruct (parsy.many brackets r1) as [[bs r2]|] eqn:E2;
      [|unfold parsy.many in E2; discriminate].
    cbv beta iota. intros E. injection E as <- ->.
    rewrite Hnp by (rewrite (brackets_next _ _ _ E1); discriminate).
    change (T "[]") with ("["%char :: T "]").
    rewrite (extends_brackets "[" (T "]") eq_refl _ _ _ E1).
    change ("["%char :: T "]") with (T "[]").
    rewrite (many_brackets_more (length r1) r1 bs (Nat.le_refl _) E2).
    unfold nth_iterate. cbn [length]. rewrite length_app. cbn [length].
    now rewrite Nat.add_1_r.
  - cbv beta iota. intros E. injection E as <- ->.
    rewrite Hnp by discriminate. cbn [app].
    change (T "[]") with ("["%char :: "]"%char :: []).
    rewrite brackets_step. reflexivity.
Qed.

(** Every way of writing a type is read as the type it stands for. *)
Lemma writes_read d t v : writes d t v -> ty d t = Some (v, []).
Proof.
  revert t v.
  apply (writes_both d (fun t v => ty d t = Some (v, []))
           (fun fs => Forall (well_typed d) fs)).
  - intros names v alias Hg Ha. apply ty_of_non_pg_array_type.
    unfold non_pg_array_type, parsy.or_.
    pose proof primitive_table_sound as H.
    rewrite Forall_forall in H. specialize (H _ Hg). cbn [fst snd] in H.
    rewrite Forall_forall in H. destruct (H _ Ha) as [_ E]. now rewrite E.
  - intros kw [<-|[<-|[]]]; destruct d; reflexivity.
  - intros kw ds1 ds2 Hk H1 N1 H2 N2.
    change (T kw ++ T "(" ++ ds1 ++ T "," ++ ds2 ++ T ")")
      with (T kw ++ "("%char :: ds1 ++ ","%char :: ds2 ++ ")"%char :: []).
    apply (ty_decimal_complete d kw _ _ _ Hk).
    exact (group_complete ds1 ds2 [] H1 N1 H2 N2).
  - intros t v _. apply ty_suffix.
  - intros names k alias t v Hg Ha _ Hv.
    change (T "map(" ++ T alias ++ T "," ++ t ++ T ")")
      with (T "map(" ++ T alias ++ ","%char :: t ++ [")"%char]).
    apply ty_of_non_pg_array_type.
    unfold non_pg_array_type, parsy.or_.
    replace (primitive _) with (@None (DataType * text))
      by (vm_compute; reflexivity).
    replace (decimal d _) with (@None (DataType * text))
      by (vm_compute; reflexivity).
    now rewrite (map_step d names k alias t v [] Hg Ha Hv).
  - intros fs _ Hfs.
    change (T "struct(" ++ struct_body fs ++ T ")")
      with (T "struct(" ++ struct_body fs ++ [")"%char]).
    apply ty_of_non_pg_array_type.
    unfold non_pg_array_type, parsy.or_.
    replace (primitive _) with (@None (DataType * text))
      by (vm_compute; reflexivity).
    replace (decimal d _) with (@None (DataType * text))
      by (vm_compute; reflexivity).
    replace (map (ty d) _) with (@None (DataType * text))
      by (vm_compute; reflexivity).
    now rewrite (struct_step d fs [] Hfs).
  - constructor.
  - intros name t v fs Hn _ Hv _ Hfs. constructor; [|exact Hfs].
    split; [exact Hn | now apply parse_ok_iff].
Qed.

(** X8. The default parameters decide nothing but the parameters of the
    decimals written without any. With two defaults a text is rejected by
    both calls or accepted by both, with types that are the same except
    where the first has the decimal of its default and the second the
    decimal of its own. And a text written from the constructs of the
    grammar is read, with any default, as the type it stands for: that
    type has the default of the call at each decimal keyword without
    parameters, and the parameters written, whatever the default, at each
    keyword with them. *)
Theorem default_changes_bare_decimals_only (d1 d2 : Z * Z) (t : text) :
  (parse t d1 = parsy.ParseError <-> parse t d2 = parsy.ParseError) /\
  (forall v1 v2,
     parse t d1 = parsy.Ok v1 -> parse t d2 = parsy.Ok v2 ->
     up_to_default d1 d2 v1 v2) /\
  (forall d v, writes d t v -> parse t d = parsy.Ok v).
Proof.
  pose proof (sim_parse (fun s => s) d1 d2 eq (up_to_default d1 d2)
                (fun s => eq_refl) (fun r _ H => H) eq_refl) as H.
  assert (Hp : match parse t d1, parse t d2 with
               | parsy.Ok v1, parsy.Ok v2 => up_to_default d1 d2 v1 v2
               | parsy.ParseError, parsy.ParseError => True
               | _, _ => False
               end).
  { apply H.
    - intros names _. apply (sim_weaken _ eq); [easy | apply sim_same].
    - apply sim_same.
    - apply sim_same.
    - intros v _. apply same_type.
    - intros p s. apply same_type.
    - apply default_decimals.
    - apply same_array.
    - apply same_map.
    - apply same_struct. }
  split; [|split].
  - destruct (parse t d1) as [v1|], (parse t d2) as [v2|]; easy.
  - intros x y E1 E2. rewrite E1, E2 in Hp. exact Hp.
  - intros d v Hw. now apply parse_ok_iff, writes_read.
Qed.

Lemma default_changes_bare_decimals_only_witness :
  parse (T "struct(a decimal,b decimal(9,2))") (18, 3)%Z
  = parsy.Ok (dt.Struct [("a"%string, dt.Decimal 18 3);
                         ("b"%string, dt.Decimal 9 2)]) /\
  parse (T "struct(a decimal,b decimal(9,2))") (38, 0)%Z
  = parsy.Ok (dt.Struct [("a"%string, dt.Decimal 38 0);
                         ("b"%string, dt.Decimal 9 2)]) /\
  up_to_default (18, 3)%Z (38, 0)%Z
    (dt.Struct [("a"%string, dt.Decimal 18 3); ("b"%string, dt.Decimal 9 2)])
    (dt.Struct [("a"%string, dt.Decimal 38 0); ("b"%string, dt.Decimal 9 2)]).
Proof.
  assert (Hw : forall d,
             writes d (T "struct(a decimal,b decimal(9,2))")
               (dt.Struct [("a"%string, dt.Decimal (fst d) (snd d));
                           ("b"%string, dt.Decimal 9 2)])).
  { intros d.
    refine (writes_struct d
              [(T "a", T "decimal", dt.Decimal (fst d) (snd d));
               (T "b", T "decimal(9,2)", dt.Decimal 9 2)] _).
    apply writes_field.
    - split; [reflexivity | constructor].
    - exact (writes_decimal d "decimal" (or_introl eq_refl)).
    - apply writes_field.
      + split; [reflexivity | constructor].
      + refine (writes_parameters d "decimal" (T "9") (T "2")
                  (or_introl eq_refl) _ _ _ _);
          try discriminate; repeat constructor.
      + apply writes_no_field. }
  pose proof (default_changes_bare_decimals_only (18, 3)%Z (38, 0)%Z
                (T "struct(a decimal,b decimal(9,2))")) as (_ & H2 & H3).
  pose proof (H3 _ _ (Hw (18, 3)%Z)) as E1.
  pose proof (H3 _ _ (Hw (38, 0)%Z)) as E2.
  split; [exact E1|]. split; [exact E2|]. exact (H2 _ _ E1 E2).
Defined.

(** ** Letter case in the whole grammar *)

Lemma respects_sim {A} f (p : parsy.parser A) : respects f p -> sim f eq p p.
Proof.
  intros H s. rewrite H. now destruct (p s) as [[v r]|].
Qed.

Lemma is_digit_lower x : is_digit (lower_char x) = is_digit x.
Proof. each_char x. Qed.

Lemma is_ident_start_lower x : is_ident_start (lower_char x) = is_ident_start x.
Proof. each_char x. Qed.

Lemma lower_digit x : is_digit x = true -> lower_char x = x.
Proof. each_char x. Qed.

Lemma span_lower g s :
  (forall x, g (lower_char x) = g x) ->
  span g (lower s) = (lower (fst (span g s)), lower (snd (span g s))).
Proof.
  intros H. induction s as [|x s IH]; [reflexivity|].
  change (lower (x :: s)) with (lower_char x :: lower s). cbn [span].
  rewrite H. destruct (g x); [|reflexivity].
  rewrite IH. now destruct (span g s).
Qed.

Lemma lower_digits ds : digits ds -> lower ds = ds.
Proof.
  induction 1 as [|x ds Hx _ IH]; [reflexivity|].
  change (lower (x :: ds)) with (lower_char x :: lower ds).
  now rewrite IH, lower_digit.
Qed.

Lemma respects_lower_NUMBER : respects lower NUMBER.
Proof.
  apply (respects_spaceless lower strip_lower). intros s.
  rewrite (span_lower is_digit s is_digit_lower).
  pose proof (span_class is_digit s) as H.
  destruct (span is_digit s) as [[|x ds] r]; [reflexivity|].
  cbn [fst snd] in *. rewrite (lower_digits _ H). reflexivity.
Qed.

Lemma sim_lower_field :
  sim lower (fun n1 n2 => n1 = lower_string n2) field field.
Proof.
  apply (sim_spaceless lower strip_lower). intros s. unfold FIELD.
  destruct s as [|x s]; [exact I|].
  change (lower (x :: s)) with (lower_char x :: lower s). cbv beta iota.
  rewrite is_ident_start_lower. destruct (is_ident_start x); [|exact I].
  rewrite (span_lower is_ident_char s lower_ident).
  destruct (span is_ident_char s) as [m r]. cbn [fst snd].
  split; [|reflexivity].
  unfold lower_string. now rewrite list_ascii_of_string_of_list_ascii.
Qed.

Lemma lower_names_primitive v : is_primitive_value v -> lower_names v = v.
Proof.
  intros H. pose proof (primitive_value_not_composite v H) as Hc.
  destruct v; try reflexivity; now elim Hc.
Qed.

(** The types of two runs on texts that differ in letter case only. *)
Lemma parse_lower d s :
  match parse (lower s) d, parse s d with
  | parsy.Ok v1, parsy.Ok v2 => v1 = lower_names v2
  | parsy.ParseError, parsy.ParseError => True
  | _, _ => False
  end.
Proof.
  apply (sim_parse lower d d (fun n1 n2 => n1 = lower_string n2)
           (fun v1 v2 => v1 = lower_names v2)).
  - exact strip_lower.
  - intros r _ H. now destruct r.
  - reflexivity.
  - intros names _. apply (sim_weaken _ eq); [easy|].
    apply respects_sim, respects_lower_keyword.
  - apply respects_sim, respects_lower_NUMBER.
  - exact sim_lower_field.
  - intros v H. symmetry. now apply lower_names_primitive.
  - reflexivity.
  - reflexivity.
  - intros v1 v2 ->. reflexivity.
  - intros k v1 v2 ->. reflexivity.
  - intros fs1 fs2 H. simpl. f_equal.
    induction H as [|[n1 u1] [n2 u2] fs1 fs2 [Hn Hu] _ IH]; [reflexivity|].
    simpl in *. now rewrite Hn, Hu, IH.
Qed.

(** X9. Letter case matters in field names only: two texts that differ
    only in the case of their letters are both rejected or both accepted,
    and the two types are the same once the names of their fields are
    written in lower case. *)
Theorem letter_case_matters_in_names_only (d : Z * Z) (s1 s2 : text) :
  lower s1 = lower s2 ->
  (parse s1 d = parsy.ParseError <-> parse s2 d = parsy.ParseError) /\
  (forall v1 v2,
     parse s1 d = parsy.Ok v1 -> parse s2 d = parsy.Ok v2 ->
     lower_names v1 = lower_names v2).
Proof.
  intros E. pose proof (parse_lower d s1) as H1.
  pose proof (parse_lower d s2) as H2. rewrite E in H1.
  destruct (parse (lower s2) d) as [v|], (parse s1 d) as [v1|],
    (parse s2 d) as [v2|]; try easy.
  split; [easy|]. intros x y Ex Ey.
  injection Ex as <-. injection Ey as <-. congruence.
Qed.

Lemma letter_case_matters_in_names_only_witness :
  lower (T "STRUCT(Ab BIGINT, c Map(Int, VARCHAR)[])")
  = lower (T "struct(AB bigint, C map(int, varchar)[])") /\
  lower_names
    (dt.Struct [("Ab"%string, dt.int64);
                ("c"%string, dt.Array (dt.Map dt.int32 dt.string))])
  = lower_names
      (dt.Struct [("AB"%string, dt.int64);
                  ("C"%string, dt.Array (dt.Map dt.int32 dt.string))]).
Proof.
  split; [vm_compute; reflexivity|].
  refine (proj2 (letter_case_matters_in_names_only (18, 3)%Z
                   (T "STRUCT(Ab BIGINT, c Map(Int, VARCHAR)[])")
                   (T "struct(AB bigint, C map(int, varchar)[])") _) _ _ _ _);
    vm_compute; reflexivity.
Defined.

(** ** Whitespace around punctuation *)

Lemma punct_not_space x : is_punct x = true -> is_space x = false.
Proof. each_char x. Qed.

Lemma punct_not_ident x : is_punct x = true -> is_ident_char x = false.
Proof. each_char x. Qed.

Lemma strip_fixed c r : strip (c :: r) = c :: r -> is_space c = false.
Proof.
  intros H. destruct (is_space c) eqn:E; [|reflexivity].
  rewrite (strip_space c r E) in H.
  pose proof (strip_length r) as Hl. rewrite H in Hl. simpl in Hl. lia.
Qed.

Section Spread.

Variables w1 w2 : text.
Hypothesis w1_blank : blank w1.
Hypothesis w2_blank : blank w2.

Local Abbreviation sp := (spread w1 w2).
Local Abbreviation h := (spread_strip w1 w2).

Lemma spread_punct c s :
  is_punct c = true -> sp (c :: s) = w1 ++ c :: w2 ++ sp s.
Proof.
  intros H. unfold spread. cbn [flat_map]. rewrite H.
  now rewrite <- app_assoc.
Qed.

Lemma spread_other c s : is_punct c = false -> sp (c :: s) = c :: sp s.
Proof. intros H. unfold spread. cbn [flat_map]. now rewrite H. Qed.

Lemma h_punct c s : is_punct c = true -> h (c :: s) = c :: w2 ++ sp s.
Proof.
  intros H. unfold spread_strip. rewrite (spread_punct c s H).
  rewrite (strip_blank_app w1 _ w1_blank).
  now apply strip_cons, punct_not_space.
Qed.

Lemma h_other c s :
  is_punct c = false -> is_space c = false -> h (c :: s) = c :: sp s.
Proof.
  intros H Hs. unfold spread_strip. rewrite (spread_other c s H).
  now apply strip_cons.
Qed.

Lemma strip_h s : strip (h s) = h (strip s).
Proof.
  unfold spread_strip. rewrite strip_idem.
  induction s as [|c s IH]; [reflexivity|].
  destruct (is_space c) eqn:E.
  - rewrite (strip_space c s E), <- IH.
    assert (Hp : is_punct c = false).
    { destruct (is_punct c) eqn:Ep; [|reflexivity].
      apply punct_not_space in Ep. congruence. }
    now rewrite (spread_other c s Hp), strip_space.
  - now rewrite (strip_cons c s E).
Qed.

Lemma h_after_blank r : strip (w2 ++ sp r) = h r.
Proof. unfold spread_strip. now apply strip_blank_app. Qed.

Lemma h_nil r : strip r = r -> h r = [] -> r = [].
Proof.
  destruct r as [|c r]; [reflexivity|]. intros H E.
  apply strip_fixed in H.
  destruct (is_punct c) eqn:Ep.
  - rewrite (h_punct c r Ep) in E. discriminate.
  - rewrite (h_other c r Ep H) in E. discriminate.
Qed.

Lemma h_strip r : h (strip r) = h r.
Proof. rewrite <- strip_h. unfold spread_strip. apply strip_idem. Qed.

Lemma raw_sim_spaceless {A} (q : parsy.parser A) :
  raw_sim w1 w2 q -> sim h eq (spaceless q) (spaceless q).
Proof.
  intros H s. rewrite !spaceless_eq, strip_h.
  specialize (H (strip s) (strip_idem s)).
  destruct (q (h (strip s))) as [[v1 r1]|], (q (strip s)) as [[v2 r2]|];
    try easy.
  destruct H as [-> Hr]. split; [reflexivity|]. now rewrite Hr, h_strip.
Qed.

Lemma raw_sim_or {A} (p q : parsy.parser A) :
  raw_sim w1 w2 p -> raw_sim w1 w2 q -> raw_sim w1 w2 (parsy.or_ p q).
Proof.
  intros Hp Hq u Hu. unfold parsy.or_. specialize (Hp u Hu).
  destruct (p (h u)) as [[v1 r1]|], (p u) as [[v2 r2]|]; try easy.
  now apply Hq.
Qed.

(** An atom that fails on punctuation and goes through the spreading. *)
Lemma raw_sim_stable {A} (q : parsy.parser A) :
  q [] = None ->
  (forall c r, is_punct c = true -> q (c :: r) = None) ->
  (forall s, q (sp s) = on_rest sp (q s)) ->
  raw_sim w1 w2 q.
Proof.
  intros Hnil Hp Hs u Hu. destruct u as [|c r].
  - change (h []) with (@nil ascii). now rewrite Hnil.
  - apply strip_fixed in Hu. destruct (is_punct c) eqn:E.
    + now rewrite (h_punct c r E), !Hp.
    + rewrite (h_other c r E Hu), <- (spread_other c r E), Hs.
      destruct (q (c :: r)) as [[v r2]|]; [|exact I]. now split.
Qed.

Lemma span_spread g s :
  (forall x, is_space x = true -> g x = false) ->
  (forall x, is_punct x = true -> g x = false) ->
  span g (sp s) = (fst (span g s), sp (snd (span g s))).
Proof.
  intros Hs Hp. induction s as [|c s IH]; [reflexivity|].
  destruct (is_punct c) eqn:E.
  - rewrite (spread_punct c s E). cbn [span]. rewrite (Hp c E). cbn [fst snd].
    rewrite (spread_punct c s E).
    destruct w1_blank as [|w ws Hw _]; cbn [app span].
    + now rewrite (Hp c E).
    + now rewrite (Hs w Hw).
  - rewrite (spread_other c s E). cbn [span]. destruct (g c).
    + rewrite IH. now destruct (span g s).
    + cbn [fst snd]. now rewrite (spread_other c s E).
Qed.

Lemma match_kw_blank_punct k :
  plain k = true -> solid k = true ->
  forall w y rest, blank w -> is_punct y = true ->
                   match_kw k (w ++ y :: rest) = None.
Proof.
  induction k as [|x k IH]; [discriminate|].
  intros Hpl Hso w y rest Hw Hy. cbn [plain forallb] in Hpl.
  apply andb_true_iff in Hpl as [Hx Hpl].
  destruct w as [|a w]; cbn [app match_kw].
  - now rewrite (barrier_char y (punct_not_space y Hy)
                   (punct_not_ident y Hy) x Hx).
  - destruct (Ascii.eqb (lower_char a) (lower_char x)) eqn:E; [|reflexivity].
    apply Ascii.eqb_eq in E.
    assert (Hsx : is_space x = true).
    { rewrite <- is_space_lower, <- E, is_space_lower. now inversion Hw. }
    destruct k as [|x' k].
    + cbn [solid] in Hso. rewrite Hsx in Hso. discriminate.
    + apply IH; [exact Hpl | exact Hso | now inversion Hw | exact Hy].
Qed.

Lemma match_kw_spread k :
  plain k = true -> k = [] \/ solid k = true ->
  forall s, match_kw k (sp s) = option_map sp (match_kw k s).
Proof.
  induction k as [|x k IH]; intros Hpl Hso s; [reflexivity|].
  destruct Hso as [Hso|Hso]; [discriminate|].
  pose proof Hpl as Hpl'. cbn [plain forallb] in Hpl'.
  apply andb_true_iff in Hpl' as [Hx Hk].
  destruct s as [|y s]; [reflexivity|].
  destruct (is_punct y) eqn:E.
  - rewrite (spread_punct y s E).
    rewrite (match_kw_blank_punct (x :: k) Hpl Hso w1 y _ w1_blank E).
    cbn [match_kw].
    now rewrite (barrier_char y (punct_not_space y E)
                   (punct_not_ident y E) x Hx).
  - rewrite (spread_other y s E). cbn [match_kw].
    destruct (Ascii.eqb (lower_char y) (lower_char x)); [|reflexivity].
    apply IH; [exact Hk|]. destruct k as [|x' k]; [now left | now right].
Qed.

Lemma raw_sim_string k :
  token k = true -> raw_sim w1 w2 (parsy.string k lower).
Proof.
  unfold token. intros H. apply andb_true_iff in H as [Hso H].
  apply orb_true_iff in H as [Hpl|Hpu].
  - apply raw_sim_stable.
    + rewrite string_match_kw. now destruct k.
    + intros c r Hc. rewrite string_match_kw.
      destruct k as [|x k]; [discriminate|]. cbn [match_kw].
      cbn [plain forallb] in Hpl. apply andb_true_iff in Hpl as [Hx _].
      now rewrite (barrier_char c (punct_not_space c Hc)
                     (punct_not_ident c Hc) x Hx).
    + intros s. rewrite !string_match_kw, (match_kw_spread k Hpl);
        [|now right].
      now destruct (match_kw k s).
  - destruct k as [|x [|x' k]]; try discriminate.
    intros u Hu. rewrite !string_match_kw. destruct u as [|c r].
    + change (h []) with (@nil ascii). exact I.
    + apply strip_fixed in Hu. destruct (is_punct c) eqn:E.
      * rewrite (h_punct c r E). cbn [match_kw].
        destruct (Ascii.eqb (lower_char c) (lower_char x)); [|exact I].
        split; [reflexivity | apply h_after_blank].
      * rewrite (h_other c r E Hu). cbn [match_kw].
        rewrite (lower_punct x c Hpu).
        destruct (Ascii.eqb c x) eqn:Ex; [|exact I].
        apply Ascii.eqb_eq in Ex. congruence.
Qed.

Lemma raw_sim_strings names :
  forallb token names = true -> raw_sim w1 w2 (raw_strings names).
Proof.
  unfold raw_strings.
  induction names as [|k names IH]; intros H; simpl.
  - intros u _. exact I.
  - simpl in H. apply andb_true_iff in H as [Hk H].
    apply raw_sim_or; [now apply raw_sim_string | now apply IH].
Qed.

Lemma sim_spread_keyword names :
  forallb token (keywords names) = true ->
  sim h (fun _ _ => True) (spaceless_string names) (spaceless_string names).
Proof.
  intros H. apply (sim_weaken _ eq); [easy|].
  pose proof (raw_sim_strings _ H) as H'.
  unfold raw_strings, keywords in H'. rewrite List.map_map in H'.
  now apply raw_sim_spaceless.
Qed.

Lemma sim_spread_NUMBER : sim h eq NUMBER NUMBER.
Proof.
  apply raw_sim_spaceless, raw_sim_stable.
  - reflexivity.
  - intros c r Hc. cbn [span].
    assert (Hd : is_digit c = false).
    { destruct (is_digit c) eqn:E; [|reflexivity].
      apply digit_ident in E. apply punct_not_ident in Hc. congruence. }
    now rewrite Hd.
  - intros s. rewrite (span_spread is_digit s space_not_digit).
    + destruct (span is_digit s) as [[|x ds] r]; reflexivity.
    + intros x Hx. destruct (is_digit x) eqn:E; [|reflexivity].
      apply digit_ident in E. apply punct_not_ident in Hx. congruence.
Qed.

Lemma sim_spread_field : sim h eq field field.
Proof.
  assert (Hst : forall c, is_punct c = true \/ is_space c = true ->
                          is_ident_start c = false).
  { intros c Hc. destruct (is_ident_start c) eqn:E; [|reflexivity].
    apply ident_start_char in E.
    destruct Hc as [Hc|Hc];
      [apply punct_not_ident in Hc | apply space_not_ident in Hc];
      congruence. }
  apply raw_sim_spaceless, raw_sim_stable.
  - reflexivity.
  - intros c r Hc. unfold FIELD. now rewrite (Hst c (or_introl Hc)).
  - intros s. unfold FIELD. destruct s as [|c s]; [reflexivity|].
    destruct (is_punct c) eqn:E.
    + rewrite (spread_punct c s E), (Hst c (or_introl E)).
      destruct w1_blank as [|w ws Hw _]; cbn [app].
      * now rewrite (Hst c (or_introl E)).
      * now rewrite (Hst w (or_intror Hw)).
    + rewrite (spread_other c s E).
      destruct (is_ident_start c); [|reflexivity].
      rewrite (span_spread is_ident_char s space_not_ident punct_not_ident).
      now destruct (span is_ident_char s).
Qed.

(** [parse] on a spread text, without its leading whitespace. *)
Lemma parse_spread_strip d s : parse (h s) d = parse s d.
Proof.
  pose proof (sim_parse h d d eq eq strip_h h_nil eq_refl
                sim_spread_keyword sim_spread_NUMBER sim_spread_field) as H.
  assert (Hp : match parse (h s) d, parse s d with
               | parsy.Ok v1, parsy.Ok v2 => v1 = v2
               | parsy.ParseError, parsy.ParseError => True
               | _, _ => False
               end).
  { apply H; try reflexivity.
    - intros v1 v2 ->. reflexivity.
    - intros k v1 v2 ->. reflexivity.
    - intros fs1 fs2 Hfs. f_equal.
      induction Hfs as [|[n1 u1] [n2 u2] fs1 fs2 [Hn Hu] _ IH];
        [reflexivity|].
      simpl in *. now rewrite Hn, Hu, IH. }
  destruct (parse (h s) d) as [v1|], (parse s d) as [v2|]; try easy.
  now rewrite Hp.
Qed.

End Spread.

(** X10. Whitespace before and after the commas, parentheses and brackets
    of a text changes nothing to what [parse] returns for it, a type or a
    [ParseError]. *)
Theorem whitespace_around_punctuation (d : Z * Z) (w1 w2 s : text) :
  blank w1 -> blank w2 -> parse (spread w1 w2 s) d = parse s d.
Proof.
  intros H1 H2. rewrite <- (parse_spread_strip w1 w2 H1 H2 d s).
  unfold spread_strip, parse, parsy.parse, parsy.skip, parsy.bind.
  now rewrite lead_ty.
Qed.

Lemma whitespace_around_punctuation_witness :
  blank (T " ") /\ blank (T "  ") /\
  spread (T " ") (T "  ") (T "map(int,decimal(5,1))[]")
  = T "map (  int ,  decimal (  5 ,  1 )   )   [   ]  " /\
  parse (T "map (  int ,  decimal (  5 ,  1 )   )   [   ]  ") (18, 3)%Z
  = parse (T "map(int,decimal(5,1))[]") (18, 3)%Z.
Proof.
  split; [repeat constructor|]. split; [repeat constructor|].
  split; [vm_compute; reflexivity|].
  apply (whitespace_around_punctuation (18, 3)%Z (T " ") (T "  ")
           (T "map(int,decimal(5,1))[]")); repeat constructor.
Defined.

(** ** Bodies that are not closed, and commas with nothing after them *)

Lemma ty_closed_end d t v tl :
  ty d t = Some (v, []) -> closes tl ->
  ty d (strip (t ++ tl)) = Some (v, tl).
Proof.
  intros E [->|(c & tl' & -> & Hc)].
  - now rewrite app_nil_r, lead_ty.
  - now apply ty_closed.
Qed.

Lemma item_step_end d f tl :
  well_typed d f -> closes tl ->
  item (ty d) (pair_text f ++ tl) = Some (struct_field f, tl).
Proof.
  intros [Hn Ht] Hc. apply parse_ok_iff in Ht.
  unfold item, parsy.bind, pair_text. rewrite <- app_assoc. cbn [app].
  rewrite (field_step _ _ Hn).
  now rewrite (ty_closed_end d _ _ tl Ht Hc).
Qed.

Lemma more_pairs_closes fs tl : closes tl -> closes (more_pairs fs ++ tl).
Proof.
  intros H. destruct fs as [|f fs]; [exact H|]. right.
  cbn [more_pairs flat_map app]. eexists _, _. split; [reflexivity | now left].
Qed.

Lemma more_pairs_stop d fs tl :
  Forall (well_typed d) fs -> closes tl ->
  parsy.then_ COMMA (item (ty d)) tl = None ->
  parsy.many (parsy.then_ COMMA (item (ty d))) (more_pairs fs ++ tl)
  = Some (List.map struct_field fs, tl).
Proof.
  assert (Hc : consuming (parsy.then_ COMMA (item (ty d))))
    by apply consuming_sep_item, consuming_nonincr, consuming_ty.
  intros Hfs Htl Hstop.
  induction Hfs as [|f fs Hf _ IH]; rewrite many_unfold by exact Hc.
  - cbn [more_pairs flat_map app]. now rewrite Hstop.
  - cbn [more_pairs flat_map]. fold (more_pairs fs).
    rewrite <- !app_assoc. cbn [app].
    unfold parsy.then_ at 1. unfold parsy.bind at 1.
    rewrite COMMA_step, (strip_pair_text d f _ Hf).
    rewrite (item_step_end d f _ Hf (more_pairs_closes fs tl Htl)).
    unfold parsy.map. now rewrite IH.
Qed.

Lemma struct_stop d f fs tl :
  Forall (well_typed d) (f :: fs) -> closes tl ->
  parsy.then_ COMMA (item (ty d)) tl = None -> RPAREN tl = None ->
  struct (ty d) (T "struct(" ++ struct_body (f :: fs) ++ tl) = None.
Proof.
  intros Hfs Htl Hstop Hclose. inversion Hfs as [|? ? Hf Hfs']; subst.
  rewrite struct_item. unfold parsy.bind, parsy.success.
  replace (spaceless_string ["struct"%string] _)
    with (Some (T "struct", "("%char :: struct_body (f :: fs) ++ tl))
    by (vm_compute; reflexivity).
  rewrite LPAREN_step. cbn [struct_body].
  rewrite <- app_assoc, (strip_pair_text d f _ Hf).
  rewrite (sep_by_step (ty d) _ (struct_field f) (more_pairs fs ++ tl)
             (List.map struct_field fs) tl).
  - now rewrite Hclose.
  - apply item_step_end; [exact Hf | now apply more_pairs_closes].
  - now apply more_pairs_stop.
Qed.

Lemma parse_struct_none d body :
  struct (ty d) (T "struct(" ++ body) = None ->
  parse (T "struct(" ++ body) d = parsy.ParseError.
Proof.
  intros H. apply parse_error_iff. left. rewrite ty_unfold.
  unfold ty_body, pg_array, non_pg_array_type, parsy.or_, parsy.bind.
  replace (primitive _) with (@None (DataType * text))
    by (vm_compute; reflexivity).
  replace (decimal d _) with (@None (DataType * text))
    by (vm_compute; reflexivity).
  replace (map (ty d) _) with (@None (DataType * text))
    by (vm_compute; reflexivity).
  now rewrite H.
Qed.

(** X11. A struct body must be closed and its commas must separate two
    fields: the text of a struct with any fields that parse, cut before its
    closing parenthesis or with a comma after its last field, is a
    [ParseError], and so is a body that starts with a comma. *)
Theorem struct_body_must_be_closed
  (d : Z * Z) (fs : list given_field) (rest : text) :
  Forall (well_typed d) fs ->
  parse (T "struct(" ++ struct_body fs) d = parsy.ParseError /\
  parse (T "struct(" ++ struct_body fs ++ T ",)") d = parsy.ParseError /\
  parse (T "struct(," ++ rest) d = parsy.ParseError.
Proof.
  intros Hfs. split; [|split; [|vm_compute; reflexivity]].
  - destruct fs as [|f fs]; [vm_compute; reflexivity|].
    rewrite <- (app_nil_r (struct_body (f :: fs))).
    apply parse_struct_none, struct_stop;
      [exact Hfs | now left | reflexivity | reflexivity].
  - destruct fs as [|f fs]; [vm_compute; reflexivity|].
    apply parse_struct_none, struct_stop; [exact Hfs | | |].
    + right. eexists _, _. split; [reflexivity | now left].
    + vm_compute. reflexivity.
    + vm_compute. reflexivity.
Qed.

Lemma struct_body_must_be_closed_witness :
  parse (T "struct(" ++ T "a int,b text[]" ++ T ",)") (18, 3)%Z
  = parsy.ParseError /\
  parse (T "struct(" ++ T "a int,b text[]") (18, 3)%Z = parsy.ParseError.
Proof.
  pose proof (struct_body_must_be_closed (18, 3)%Z
                [(T "a", T "int", dt.int32);
                 (T "b", T "text[]", dt.Array dt.string)] []
                ltac:(repeat constructor)) as (H1 & H2 & _).
  split; [exact H2 | exact H1].
Defined.

(** A map after its key. *)
Lemma map_after_key d names k alias c rest :
  In (names, k) primitive_table -> In alias names ->
  is_space c = false -> is_ident_char c = false ->
  map (ty d) (T "map(" ++ T alias ++ c :: rest)
  = (COMMA ;;;
     value_type <- ty d ;;
     RPAREN ;;;
     parsy.success (dt.Map k value_type)) (c :: rest).
Proof.
  intros Hg Ha Hs Hi. unfold map. unfold parsy.bind at 1.
  replace (spaceless_string ["map"%string] _)
    with (Some (T "map", "("%char :: T alias ++ c :: rest))
    by (vm_compute; reflexivity).
  unfold parsy.bind at 1. rewrite LPAREN_step.
  unfold parsy.bind at 1. rewrite lead_primitive.
  rewrite (stable_primitive c rest Hs Hi).
  pose proof primitive_table_sound as H.
  rewrite Forall_forall in H. specialize (H _ Hg). cbn [fst snd] in H.
  rewrite Forall_forall in H. destruct (H _ Ha) as [_ E]. rewrite E.
  reflexivity.
Qed.

Lemma parse_map_none d body :
  map (ty d) (T "map(" ++ body) = None ->
  parse (T "map(" ++ body) d = parsy.ParseError.
Proof.
  intros H. apply parse_error_iff. left. rewrite ty_unfold.
  unfold ty_body, pg_array, non_pg_array_type, parsy.or_, parsy.bind.
  replace (primitive _) with (@None (DataType * text))
    by (vm_compute; reflexivity).
  replace (decimal d _) with (@None (DataType * text))
    by (vm_compute; reflexivity).
  replace (struct (ty d) _) with (@None (DataType * text))
    by (vm_compute; reflexivity).
  now rewrite H.
Qed.

(** X12. A map needs its key, its value and its closing parenthesis: after
    any primitive alias as the key, the text cut before the closing
    parenthesis, without a value, or without the comma and the value, is a
    [ParseError], and so is a map without a key. *)
Theorem map_must_be_complete
  (d : Z * Z) (names : list String.string) (k : DataType)
  (alias : String.string) (tv : text) (v : DataType) (rest : text) :
  In (names, k) primitive_table -> In alias names ->
  parse tv d = parsy.Ok v ->
  parse (T "map(" ++ T alias ++ T "," ++ tv) d = parsy.ParseError /\
  parse (T "map(" ++ T alias ++ T ",)") d = parsy.ParseError /\
  parse (T "map(" ++ T alias ++ T ")") d = parsy.ParseError /\
  parse (T "map(," ++ rest) d = parsy.ParseError /\
  parse (T "map()") d = parsy.ParseError.
Proof.
  intros Hg Ha Hv. apply parse_ok_iff in Hv.
  split; [|split; [|split; [|split; vm_compute; reflexivity]]].
  - apply parse_map_none.
    change (T alias ++ T "," ++ tv) with (T alias ++ ","%char :: tv).
    rewrite (map_after_key d names k alias "," tv Hg Ha eq_refl eq_refl).
    unfold parsy.bind. rewrite COMMA_step, lead_ty, Hv. reflexivity.
  - apply parse_map_none.
    change (T alias ++ T ",)") with (T alias ++ ","%char :: [")"%char]).
    rewrite (map_after_key d names k alias "," _ Hg Ha eq_refl eq_refl).
    unfold parsy.bind. rewrite COMMA_step.
    replace (ty d _) with (@None (DataType * text))
      by (vm_compute; reflexivity).
    reflexivity.
  - apply parse_map_none.
    change (T alias ++ T ")") with (T alias ++ ")"%char :: []).
    rewrite (map_after_key d names k alias ")" _ Hg Ha eq_refl eq_refl).
    reflexivity.
Qed.

Lemma map_must_be_complete_witness :
  parse (T "map(" ++ T "uuid" ++ T "," ++ T "struct(a int)") (18, 3)%Z
  = parsy.ParseError.
Proof.
  refine (proj1 (map_must_be_complete (18, 3)%Z ["uuid"%string] dt.uuid
                   "uuid" (T "struct(a int)")
                   (dt.Struct [("a"%string, dt.int32)]) [] _ _ _)).
  - unfold primitive_table. simpl. tauto.
  - simpl. tauto.
  - vm_compute. reflexivity.
Defined.

(** ** The keyword at the start of a text *)

(** X13. The type before the bracket suffixes comes from the production
    whose keyword starts the text: a struct only after the struct keyword,
    a map only after the map keyword, a decimal only after the decimal or
    numeric keyword, and any other type is the value of the primitive
    alias that starts the text. *)
Theorem base_type_names_its_keyword
  (d : Z * Z) (t : text) (base : DataType) (r : text) :
  non_pg_array_type d (ty d) t = Some (base, r) ->
  match base with
  | dt.Struct _ => spaceless_string ["struct"%string] t <> None
  | dt.Map _ _ => spaceless_string ["map"%string] t <> None
  | dt.Decimal _ _ =>
      spaceless_string ["decimal"; "numeric"]%string t <> None
  | _ => primitive t = Some (base, r) /\ is_primitive_value base
  end.
Proof.
  unfold non_pg_array_type, parsy.or_.
  destruct (primitive t) as [[v1 r1]|] eqn:E1.
  { intros E. injection E as <- <-.
    pose proof (yields_primitive t v1 r1 E1) as Hp.
    pose proof (primitive_value_not_composite v1 Hp) as Hc.
    destruct v1; try (now split); now elim Hc. }
  destruct (decimal d t) as [[v2 r2]|] eqn:E2.
  { intros E. injection E as <- <-. revert E2.
    rewrite decimal_eq. unfold parsy.bind, parsy.optional.
    destruct (spaceless_string _ t) as [[k r0]|]; [|discriminate].
    destruct (prec_scale_group r0) as [[[p s] r3]|]; [|destruct d];
      intros E; injection E as <- _; discriminate. }
  destruct (map (ty d) t) as [[v3 r3]|] eqn:E3.
  { intros E. injection E as <- <-. revert E3.
    unfold map, parsy.bind, parsy.success.
    destruct (spaceless_string _ t) as [[k0 r0]|]; [|discriminate].
    destruct (LPAREN r0) as [[? r4]|]; [|discriminate].
    destruct (primitive r4) as [[k r5]|]; [|discriminate].
    destruct (COMMA r5) as [[? r6]|]; [|discriminate].
    destruct (ty d r6) as [[v r7]|]; [|discriminate].
    destruct (RPAREN r7) as [[? r8]|]; [|discriminate].
    intros E. injection E as <- _. discriminate. }
  rewrite struct_item. unfold parsy.bind, parsy.success.
  destruct (spaceless_string _ t) as [[k0 r0]|]; [|discriminate].
  destruct (LPAREN r0) as [[? r4]|]; [|discriminate].
  destruct (parsy.sep_by _ _ r4) as [[fs r5]|]; [|discriminate].
  destruct (RPAREN r5) as [[? r6]|]; [|discriminate].
  intros E. injection E as <- _. discriminate.
Qed.

Lemma base_type_names_its_keyword_witness :
  non_pg_array_type (18, 3)%Z (ty (18, 3)%Z) (T " STRUCT (a int) []")
  = Some (dt.Struct [("a"%string, dt.int32)], T "[]") /\
  spaceless_string ["struct"%string] (T " STRUCT (a int) []") <> None.
Proof.
  split; [vm_compute; reflexivity|].
  apply (base_type_names_its_keyword (18, 3)%Z (T " STRUCT (a int) []")
           (dt.Struct [("a"%string, dt.int32)]) (T "[]")).
  vm_compute. reflexivity.
Defined.
